(** * bin2c / bin2h: binary file to C array converters

    A shallow embedding of [src/bin2c/main.c] and [src/bin2h/main.c].

    - C strings are buffers of characters ([text]); a read stops at the first
      NUL character or at the end of the buffer, where the terminator sits.
    - C integers are [Z]; the wrap-around of [unsigned short] and [long] is
      written out.
    - Pointers into a buffer are offsets from its first character.
    - The [#if] branches of the sources are selected by boolean build flags. *)

From Stdlib Require Import ZArith Ascii String Strings.Byte Bool Lia List.
From Stdlib Require Import DecimalString DecimalZ.
Import ListNotations.

Open Scope Z_scope.

(** ** Characters, buffers and C strings *)

Definition text := list ascii.

Definition str (s : string) : text := list_ascii_of_string s.

Definition NUL : ascii := "000"%char.

(** The C string that starts at the head of buffer [m]. *)
Fixpoint cstring (m : text) : text :=
  match m with
  | [] => []
  | c :: rest => if (c =? NUL)%char then [] else c :: cstring rest
  end.

Definition strlen (m : text) : Z := Z.of_nat (length (cstring m)).

(** The C string seen through a pointer [off] characters into [m]. *)
Definition string_at (m : text) (off : Z) : text :=
  cstring (skipn (Z.to_nat off) m).

(** [*p] for a pointer whose remaining buffer is [m]. *)
Definition deref (m : text) : ascii :=
  match m with
  | [] => NUL
  | c :: _ => c
  end.

(** [m[i] = c]; the buffer is left alone when [i] is not inside it. *)
Fixpoint poke (m : text) (i : nat) (c : ascii) : text :=
  match m, i with
  | [], _ => []
  | _ :: rest, O => c :: rest
  | x :: rest, S i' => x :: poke rest i' c
  end.

(** ** Constants of <limits.h> and build flags *)

(** Modelled from the spec: <limits.h> is not part of the repository; the spec
    fixes the string bound at 65535 characters (a 16-bit [unsigned short]). *)
Definition USHRT_MAX : Z := 65535.

(** Modelled from the spec: the tiers of the size macro are 8-bit, 16-bit and
    32-bit signed, so [SCHAR_MAX], [SHRT_MAX] and [INT_MAX] are these. *)
Definition SCHAR_MAX : Z := 127.
Definition SHRT_MAX : Z := 32767.
Definition INT_MAX : Z := 2147483647.

(** Assignment to an [unsigned short]. *)
Definition ushort (z : Z) : Z := z mod (USHRT_MAX + 1).

(** [MAIN_PATHDELIMITER]: back-slash on the Windows builds, slash elsewhere. *)
Definition MAIN_PATHDELIMITER (windows : bool) : ascii :=
  if windows then "\"%char else "/"%char.

(** [MAIN_CHUNKSIZE]: four pages on Intel-style processors, eight sectors
    elsewhere. *)
Definition MAIN_CHUNKSIZE (intel : bool) : Z :=
  if intel then 4096 * 4 else 512 * 8.

(** ** Path and name derivation *)

(** How far the pointer that now faces [rest] has moved from the start of
    the buffer [whole]. *)
Definition ptr_diff (whole rest : text) : Z :=
  Z.of_nat (length whole) - Z.of_nat (length rest).

Section Paths.

Variable windows : bool.

(** The loop of [main_findname]: [path] is the buffer in front of the
    pointer.  Returns what is left in front of the pointer, [length] and
    [delimiter]. *)
Fixpoint main_findname_loop (path : text) (length delimiter : Z)
  : text * Z * Z :=
  if length >? 0 then
    match path with
    | [] => (path, length, delimiter)
    | c :: rest =>
        if (c =? MAIN_PATHDELIMITER windows)%char then
          main_findname_loop rest (ushort (length - 1))
                             (ushort ((USHRT_MAX - length) + 1))
        else if (c =? NUL)%char then (path, length, delimiter)
        else main_findname_loop rest (ushort (length - 1)) delimiter
    end
  else (path, length, delimiter).

(** [main_findname]: the returned pointer, as an offset into [path]. *)
Definition main_findname (path : text) : Z :=
  let '(rest, length, delimiter) := main_findname_loop path USHRT_MAX 0 in
  ptr_diff path rest - ((USHRT_MAX - length) - delimiter).

(** The loop of [main_shortenname]; returns what is left in front of the
    pointer, [length], [terminus] and [delimiter]. *)
Fixpoint main_shortenname_loop (path : text) (length terminus delimiter : Z)
  : text * Z * Z * Z :=
  if length >? 0 then
    match path with
    | [] => (path, length, terminus, delimiter)
    | c :: rest =>
        if (c =? ".")%char then
          main_shortenname_loop rest (ushort (length - 1)) length delimiter
        else if (c =? MAIN_PATHDELIMITER windows)%char then
          main_shortenname_loop rest (ushort (length - 1)) 0
                                (ushort ((USHRT_MAX - length) + 1))
        else if (c =? NUL)%char then (path, length, terminus, delimiter)
        else main_shortenname_loop rest (ushort (length - 1)) terminus delimiter
    end
  else (path, length, terminus, delimiter).

(** [main_shortenname]: the buffer after the in-place truncation and the
    returned pointer into it. *)
Definition main_shortenname (path : text) : text * Z :=
  let '(rest, length, terminus, delimiter) :=
    main_shortenname_loop path USHRT_MAX 0 0 in
  let name := ptr_diff path rest - ((USHRT_MAX - length) - delimiter) in
  if terminus >? 0 then
    let terminus := ushort ((USHRT_MAX - terminus) - delimiter) in
    (poke path (Z.to_nat (name + terminus)) NUL, name)
  else (path, name).

(** The scanning loop shared by [main_constructoutpath] (bin2c) and
    [main_constructoutname] (bin2h); returns what is left in front of the
    pointer, [length] and [offset]. *)
Fixpoint constructout_scan (inpath : text) (length offset : Z)
  : text * Z * Z :=
  if length >? 0 then
    match inpath with
    | [] => (inpath, length, offset)
    | c :: rest =>
        if (c =? ".")%char then
          constructout_scan rest (ushort (length - 1)) length
        else if (c =? MAIN_PATHDELIMITER windows)%char then
          constructout_scan rest (ushort (length - 1)) USHRT_MAX
        else if (c =? NUL)%char then (inpath, length, offset)
        else constructout_scan rest (ushort (length - 1)) offset
    end
  else (inpath, length, offset).

(** The copying loop of the same two functions: [length] characters are
    copied from [inpath].  It is never asked for more characters than the
    scan has seen; past the buffer there is nothing to copy. *)
Fixpoint constructout_copy (inpath : text) (length : Z) : text :=
  if length >? 0 then
    match inpath with
    | [] => []
    | c :: rest => c :: constructout_copy rest (ushort (length - 1))
    end
  else [].

(** The body shared by the two functions; [mark] is the character written
    after the full stop and [heap n] tells whether [malloc] grants [n]
    characters.  [None] is the [NULL] result. *)
Definition constructout (mark : ascii) (heap : Z -> bool) (inpath : text)
  : option text :=
  let '(rest, length, offset) :=
    constructout_scan inpath USHRT_MAX USHRT_MAX in
  if (deref rest =? NUL)%char then
    let start := ptr_diff inpath rest - (USHRT_MAX - length) in
    let length := if offset =? USHRT_MAX then length else offset in
    if length >=? 2 + 1 then
      let length := ushort (USHRT_MAX - length) in
      if heap (length + 2 + 1) then
        Some (constructout_copy (skipn (Z.to_nat start) inpath) length
                ++ ["."%char; mark])
      else None
    else None
  else None.

(** bin2c: the extension is [". "], and the caller overwrites the blank. *)
Definition main_constructoutpath := constructout " "%char.

(** bin2h: the extension is [".h"]. *)
Definition main_constructoutname := constructout "h"%char.

(** How many characters the scan of [constructout] reads, the one tested
    after the loop included. *)
Definition constructout_reads (inpath : text) : Z :=
  let '(rest, _, _) := constructout_scan inpath USHRT_MAX USHRT_MAX in
  ptr_diff inpath rest + 1.

(** A path cut in three: the directories [dir] (empty, or ending in the
    delimiter), the [stem] of the file name, and its [tail] (empty, or the
    last full stop and the extension after it). *)
Definition has c (s : text) : bool := existsb (Ascii.eqb c) s.

Definition well_split (dir stem tail : text) : bool :=
  negb (has NUL (dir ++ stem ++ tail))
  && (last dir (MAIN_PATHDELIMITER windows) =? MAIN_PATHDELIMITER windows)%char
  && negb (has (MAIN_PATHDELIMITER windows) (stem ++ tail))
  && match tail with
     | [] => negb (has "."%char stem)
     | c :: ext => (c =? ".")%char && negb (has "."%char ext)
     end.

End Paths.

(** [outpath[offset] = c] at the start of [main_runbin2c], with
    [offset = strlen (outpath) - 1]; [None] when the path is empty. *)
Definition set_extension (outpath : text) (c : ascii) : option text :=
  let offset := strlen outpath in
  if offset >=? 1 then Some (poke outpath (Z.to_nat (offset - 1)) c)
  else None.

(** ** The C library, as far as the converters use it *)

(** ISO C [toupper] in the "C" locale, the only one the programs run in:
    the 26 lower-case letters go to their capitals. *)
Definition toupper (c : ascii) : ascii :=
  let n := Z.of_N (N_of_ascii c) in
  if (97 <=? n) && (n <=? 122) then ascii_of_N (Z.to_N (n - 32)) else c.

Definition hex_digit (n : Z) : ascii :=
  nth (Z.to_nat n) (str "0123456789ABCDEF") "0"%char.

Fixpoint hex_digits (fuel : nat) (n : Z) (acc : text) : text :=
  match fuel with
  | O => acc
  | S fuel' =>
      let acc' := hex_digit (n mod 16) :: acc in
      if n / 16 =? 0 then acc' else hex_digits fuel' (n / 16) acc'
  end.

(** What [%X] prints for an unsigned value (ISO C, fprintf): the digits
    [0123456789ABCDEF], as many as the value needs and at least one; with no
    width or precision in the specification there is no padding. *)
Definition hexadecimal (n : Z) : text :=
  hex_digits (S (Z.to_nat (Z.log2 n))) n [].

(** What [%d] prints: the decimal digits, after [-] for a negative value. *)
Definition decimal (z : Z) : text :=
  list_ascii_of_string (NilZero.string_of_int (Z.to_int z)).

(** Reading a decimal numeral back. *)
Definition read_decimal (s : text) : option Z :=
  option_map Z.of_int (NilZero.int_of_string (string_of_list_ascii s)).

(** Conversion to the signed type whose largest value is [max]. *)
Definition signed (max z : Z) : Z :=
  (z + (max + 1)) mod (2 * (max + 1)) - (max + 1).

Inductive modifier := mod_hh | mod_h | mod_none | mod_l.

Inductive printf_arg :=
| Int (z : Z)
| Str (s : text).

(** One conversion specification of [printf]: [%s], [%X] and [%d] with the
    length modifiers the programs use.  [hh] and [h] convert the argument to
    [char] and [short] (signed for [d], unsigned for [X]) before printing; a
    [long] argument is printed as it is. *)
Definition directive (m : modifier) (conv : ascii) (a : option printf_arg)
  : text :=
  match a with
  | Some (Str s) => if (conv =? "s")%char then cstring s else []
  | Some (Int z) =>
      if (conv =? "X")%char then
        hexadecimal (match m with
                     | mod_hh => z mod 2 ^ 8
                     | mod_h => z mod (USHRT_MAX + 1)
                     | mod_none => z mod (2 * (INT_MAX + 1))
                     | mod_l => z
                     end)
      else if (conv =? "d")%char then
        decimal (match m with
                 | mod_hh => signed SCHAR_MAX z
                 | mod_h => signed SHRT_MAX z
                 | mod_none => signed INT_MAX z
                 | mod_l => z
                 end)
      else []
  | None => []
  end.

(** The characters [printf] produces for [format] and [args]. *)
Fixpoint sprintf (format : text) (args : list printf_arg) {struct format}
  : text :=
  match format with
  | [] => []
  | c :: f1 =>
      if (c =? NUL)%char then []
      else if (c =? "%")%char then
        match f1 with
        | [] => []
        | c1 :: f2 =>
            if (c1 =? "h")%char then
              match f2 with
              | [] => []
              | c2 :: f3 =>
                  if (c2 =? "h")%char then
                    match f3 with
                    | [] => []
                    | c3 :: f4 =>
                        directive mod_hh c3 (hd_error args)
                          ++ sprintf f4 (tl args)
                    end
                  else directive mod_h c2 (hd_error args)
                         ++ sprintf f3 (tl args)
              end
            else if (c1 =? "l")%char then
              match f2 with
              | [] => []
              | c2 :: f3 =>
                  directive mod_l c2 (hd_error args) ++ sprintf f3 (tl args)
              end
            else directive mod_none c1 (hd_error args) ++ sprintf f2 (tl args)
        end
      else c :: sprintf f1 args
  end.

Definition newline : ascii := "010"%char.
Definition dquote : ascii := "034"%char.
Definition EOF : Z := -1.

(** *** Streams *)

(** The input stream: the bytes still to be read, how the stream ends after
    them, and its two indicators. *)
Inductive ending := EndOfFile | ReadError.

Record infile := {
  pending : list byte;
  finish : ending;
  eof_indicator : bool;
  error_indicator : bool
}.

(** What happens to the output side, oldest event last in [log]. *)
Inductive event :=
| Opened (path : text) (ok : bool)
| Wrote (file : text) (chars : text) (ok : bool)
| Flushed (file : text) (ok : bool)
| Closed (file : text) (ok : bool)
| Complained (chars : text).

(** The world around a run.  [fault n] tells whether the [n]-th operation on
    an output stream (opening included) fails, [ops] counts them, and
    [heap n] tells whether [malloc] grants [n] characters. *)
Record world := {
  source : infile;
  fault : nat -> bool;
  ops : nat;
  heap : Z -> bool;
  log : list event
}.

Definition history (w : world) : list event := rev (log w).

(** A [FILE *] for output: [NULL], or the stream opened on a path. *)
Definition FILEp := option text.

(** A computation ends with a value, or has passed [NULL] to the library
    (undefined behaviour), or never ends. *)
Inductive result (A : Type) :=
| Ret (a : A) (w : world)
| Undefined (w : world)
| Forever (w : world).

Arguments Ret {A} a w.
Arguments Undefined {A} w.
Arguments Forever {A} w.

Definition M (A : Type) := world -> result A.

Definition ret {A} (a : A) : M A := fun w => Ret a w.

Definition bind {A B} (m : M A) (k : A -> M B) : M B :=
  fun w =>
    match m w with
    | Ret a w' => k a w'
    | Undefined w' => Undefined w'
    | Forever w' => Forever w'
    end.

Notation "x <- m ;; k" := (bind m (fun x => k))
  (at level 61, m at next level, right associativity).
Notation "' p <- m ;; k" := (bind m (fun x => let 'p := x in k))
  (at level 61, p pattern, m at next level, right associativity).

(** An operation on an output stream: succeeds unless the world says it
    fails, and is logged. *)
Definition output_op (ev : bool -> event) : M bool :=
  fun w =>
    let ok := negb (fault w (ops w)) in
    Ret ok {| source := source w; fault := fault w; ops := S (ops w);
               heap := heap w; log := ev ok :: log w |}.

Definition on_stream {A} (f : FILEp) (k : text -> M A) : M A :=
  match f with
  | None => fun w => Undefined w
  | Some name => k name
  end.

Definition fopen (path : text) : M FILEp :=
  ok <- output_op (Opened (cstring path)) ;;
  ret (if ok then Some (cstring path) else None).

Definition fputs (s : text) (f : FILEp) : M Z :=
  on_stream f (fun name =>
    ok <- output_op (Wrote name (cstring s)) ;;
    ret (if ok then 1 else EOF)).

Definition fprintf (f : FILEp) (format : text) (args : list printf_arg)
  : M Z :=
  on_stream f (fun name =>
    let chars := sprintf format args in
    ok <- output_op (Wrote name chars) ;;
    ret (if ok then Z.of_nat (length chars) else -1)).

Definition fflush (f : FILEp) : M Z :=
  on_stream f (fun name =>
    ok <- output_op (Flushed name) ;; ret (if ok then 0 else EOF)).

Definition fclose (f : FILEp) : M Z :=
  on_stream f (fun name =>
    ok <- output_op (Closed name) ;; ret (if ok then 0 else EOF)).

(** [fputs (s, stderr)], whose result the programs ignore. *)
Definition complain (s : text) : M unit :=
  fun w => Ret tt {| source := source w; fault := fault w; ops := ops w;
                     heap := heap w; log := Complained s :: log w |}.

Definition malloc (n : Z) : M bool := fun w => Ret (heap w n) w.

(** [fread (buffer, 1, n, infile)]: up to [n] bytes; a short count raises
    the indicator of the way the stream ends. *)
Definition fread (n : nat) : M (list byte) :=
  fun w =>
    let f := source w in
    let got := firstn n (pending f) in
    let short := (length got <? n)%nat in
    let f' := {| pending := skipn n (pending f);
                 finish := finish f;
                 eof_indicator :=
                   eof_indicator f
                   || (short && match finish f with
                               | EndOfFile => true
                               | ReadError => false
                               end);
                 error_indicator :=
                   error_indicator f
                   || (short && match finish f with
                               | EndOfFile => false
                               | ReadError => true
                               end) |} in
    Ret got {| source := f'; fault := fault w; ops := ops w;
               heap := heap w; log := log w |}.

Definition feof : M bool := fun w => Ret (eof_indicator (source w)) w.
Definition ferror : M bool := fun w => Ret (error_indicator (source w)) w.

(** The text of the successful writes to [file], in order. *)
Fixpoint written (file : text) (h : list event) : text :=
  match h with
  | [] => []
  | Wrote f chars true :: h' =>
      if list_eq_dec ascii_dec f file then chars ++ written file h'
      else written file h'
  | _ :: h' => written file h'
  end.

(** ** Macro names (bin2c) *)

(** [main_runbin2c_constructmacro_upperizemacro]: [macro] holds what the
    buffer contains up to the cursor; the result is the same after the
    copy, with the cursor at its end. *)
Fixpoint main_runbin2c_constructmacro_upperizemacro (part macro : text)
  : text :=
  match part with
  | [] => macro
  | c :: rest =>
      if (c =? NUL)%char then macro
      else main_runbin2c_constructmacro_upperizemacro rest
             (macro ++ [toupper c])
  end.

(** One measuring step of [main_runbin2c_constructmacro]. *)
Definition measure_fragment (part : text) (state : bool * Z) : bool * Z :=
  let '(success, length) := state in
  let fragment := strlen part in
  (success && (fragment <? length), ushort (length - ushort fragment)).

(** [main_runbin2c_constructmacro]; [None] is the [NULL] result. *)
Definition main_runbin2c_constructmacro (heap : Z -> bool)
  (prefix : option text) (core : text) (suffix : option text)
  : option text :=
  let state := (true, USHRT_MAX) in
  let state := match prefix with
               | Some p => measure_fragment p state
               | None => state
               end in
  let state := measure_fragment core state in
  let state := match suffix with
               | Some s => measure_fragment s state
               | None => state
               end in
  let '(success, length) := state in
  let success := success && (length >=? 1) in
  let length := ushort (USHRT_MAX - length) in
  if success && heap (length + 1) then
    let cursor := [] in
    let cursor := match prefix with
                  | Some p => main_runbin2c_constructmacro_upperizemacro p cursor
                  | None => cursor
                  end in
    let cursor := main_runbin2c_constructmacro_upperizemacro core cursor in
    let cursor := match suffix with
                  | Some s => main_runbin2c_constructmacro_upperizemacro s cursor
                  | None => cursor
                  end in
    Some cursor
  else None.

(** ** The streaming encoder

    The block of [main_runbin2c] that reads the input in chunks and prints
    one literal per byte, and its copy in [main_runbin2h].  The two differ in
    the element count, which only bin2c keeps ([counted] is its [LONG_MAX]),
    and in the conversion specification, [%hhX] in a C99 build of bin2c and
    [%hX] otherwise. *)

Definition first_format (c99 : bool) : text :=
  if c99 then str "0x%hhXu" else str "0x%hXu".

Definition next_format (c99 : bool) : text :=
  if c99 then str ", 0x%hhXu" else str ", 0x%hXu".

Definition byte_value (b : byte) : Z := Z.of_N (Byte.to_N b).

Section Encoder.

Variable c99 : bool.
Variable counted : option Z.
Variable chunk : nat.
Variable outfile : FILEp.

(** The inner loop, [while ( count > 0 )], over the bytes of the chunk that
    are still to be printed. *)
Fixpoint encode_chunk (data : list byte) (state : bool * Z * text)
  : M (bool * Z * text) :=
  match data with
  | [] => ret state
  | b :: data' =>
      let '(success, length, format) := state in
      error <- fprintf outfile format [Int (byte_value b)] ;;
      let success := success && (error >=? 0) in
      let '(success, length) :=
        match counted with
        | Some LONG_MAX =>
            (success && (length <? LONG_MAX), signed LONG_MAX (length + 1))
        | None => (success, length)
        end in
      let format := next_format c99 in
      encode_chunk data' (success, length, format)
  end.

(** The outer loop, [while ( success )]; [fuel] bounds its iterations. *)
Fixpoint encode_loop (fuel : nat) (state : bool * Z * text)
  : M (bool * Z * text) :=
  let '(success, length, format) := state in
  if success then
    match fuel with
    | O => fun w => Forever w
    | S fuel' =>
        data <- fread chunk ;;
        failed <- (if (List.length data <? 1)%nat then ferror else ret false) ;;
        let success := if failed then false else success in
        state <- (if success then encode_chunk data (success, length, format)
                  else ret (success, length, format)) ;;
        at_end <- feof ;;
        if at_end then ret state else encode_loop fuel' state
    end
  else ret state.

(** The whole block.  One iteration more than there are bytes to read is
    enough for the loop when chunks are not empty ([encode_ends] below). *)
Definition encode : M (bool * Z) :=
  let length := 0 in
  let format := first_format c99 in
  buffer <- malloc (Z.of_nat chunk) ;;
  let success := buffer in
  fuel <- (fun w => Ret (S (List.length (pending (source w)))) w) ;;
  '(success, length, _) <- encode_loop fuel (success, length, format) ;;
  ret (success, length).

End Encoder.

(** ** bin2c: [main_runbin2c] *)

Definition int_of_bool (b : bool) : Z := if b then 1 else 0.

(** The tier of the size macro's value, by the length modifier of its
    conversion specification. *)
Definition size_macro_width (c99 : bool) (length : Z) : modifier :=
  if c99 && (length <=? SCHAR_MAX) then mod_hh
  else if length <=? SHRT_MAX then mod_h
  else if length <=? INT_MAX then mod_none
  else mod_l.

Definition size_macro_format (m : modifier) : text :=
  match m with
  | mod_hh => str "  %hhd"
  | mod_h => str "  %hd"
  | mod_none => str "  %d"
  | mod_l => str "  %ldl"
  end.

(** The cast applied to [length] in each tier. *)
Definition size_macro_arg (m : modifier) (length : Z) : Z :=
  match m with
  | mod_hh => signed SCHAR_MAX length
  | mod_h => signed SHRT_MAX length
  | mod_none => signed INT_MAX length
  | mod_l => length
  end.

(** The characters printed after the name of the size macro. *)
Definition size_macro_value (c99 : bool) (length : Z) : text :=
  let m := size_macro_width c99 length in
  sprintf (size_macro_format m) [Int (size_macro_arg m length)].

Section Bin2c.

Variable c99 : bool.
Variable intel : bool.
Variable LONG_MAX : Z.

Definition main_runbin2c_outputsymbol (prefix : option text) (symbol : text)
  (suffix : option text) (outfile : FILEp) : M bool :=
  let success := true in
  success <- match prefix with
             | Some p => error <- fputs p outfile ;;
                         ret (success && (error >=? 0))
             | None => ret success
             end ;;
  error <- fputs symbol outfile ;;
  let success := success && (error >=? 0) in
  success <- match suffix with
             | Some s => error <- fputs s outfile ;;
                         ret (success && (error >=? 0))
             | None => ret success
             end ;;
  ret success.

(** The encoder block of [main_runbin2c]. *)
Definition bin2c_encode (outfile : FILEp) : M (bool * Z) :=
  encode c99 (Some LONG_MAX) (Z.to_nat (MAIN_CHUNKSIZE intel)) outfile.

Definition when {A} (c : bool) (a : A) (m : M A) : M A :=
  if c then m else ret a.

(** [main_runbin2c]; the input stream is the one of the world.  [length]
    has no value before the encoder block sets it. *)
Definition main_runbin2c (symbol : text) (prefix suffix global : option text)
  (outpath : text) : M bool :=
  let success := true in
  let offset := strlen outpath in
  let success := offset >=? 1 in
  let offset := offset - 1 in
  let is_global := match global with Some _ => true | None => false end in
  '(outpath, outfile, success) <-
    when success (outpath, None, success)
      (let outpath :=
         poke outpath (Z.to_nat offset)
              (if is_global then "c"%char else "h"%char) in
       outfile <- fopen outpath ;;
       ret (outpath, outfile,
            match outfile with Some _ => true | None => false end)) ;;
  success <-
    when success success
      (error <- (if is_global then
                   fprintf outfile
                     (str "#include " ++ [dquote] ++ str "%s.h" ++ [dquote]
                        ++ [newline; newline])
                     [Str symbol]
                 else fputs (str "static ") outfile) ;;
       let success := success && (error >=? 0) in
       error <- fputs (str "unsigned char const ") outfile ;;
       ret (success && (error >=? 0))) ;;
  success <-
    when success success
      (error <- main_runbin2c_outputsymbol prefix symbol suffix outfile ;;
       let success := success && (int_of_bool error >=? 0) in
       error <- fputs (str "[] = { ") outfile ;;
       ret (success && (error >=? 0))) ;;
  '(success, length) <- bin2c_encode outfile ;;
  success <-
    when success success
      (error <- fputs (str " };" ++ [newline]) outfile ;;
       ret (error >=? 0)) ;;
  success <-
    match outfile with
    | Some _ =>
        error <- fflush outfile ;;
        let success := success && (error >=? 0) in
        error <- fclose outfile ;;
        ret (success && (error >=? 0))
    | None => ret success
    end ;;
  success <-
    (if is_global then
       '(outpath, outfile, success) <-
         when success (outpath, None, success)
           (let outpath := poke outpath (Z.to_nat offset) "h"%char in
            outfile <- fopen outpath ;;
            ret (outpath, outfile,
                 match outfile with Some _ => true | None => false end)) ;;
       success <-
         when success success
           (macro <- (fun w =>
                        Ret (main_runbin2c_constructmacro (heap w) None symbol
                               None) w) ;;
            match macro with
            | Some macro =>
                error <- fprintf outfile
                           (str "#if !defined ( __%s_H__ )"
                              ++ [newline; newline]
                              ++ str "#define __%s_H__" ++ [newline; newline]
                              ++ str "extern unsigned char const ")
                           [Str macro; Str macro] ;;
                ret (error >=? 0)
            | None => ret false
            end) ;;
       success <-
         when success success
           (error <- main_runbin2c_outputsymbol prefix symbol suffix outfile ;;
            let success := success && (int_of_bool error >=? 0) in
            error <- fputs (str "[];" ++ [newline; newline] ++ str "#define ")
                           outfile ;;
            ret (success && (error >=? 0))) ;;
       success <-
         when success success
           (macro <- (fun w =>
                        Ret (main_runbin2c_constructmacro (heap w) prefix
                               symbol global) w) ;;
            success <- match macro with
                       | Some macro =>
                           error <- fputs macro outfile ;;
                           ret (error >=? 0)
                       | None => ret false
                       end ;;
            when success success
              (let m := size_macro_width c99 length in
               error <- fprintf outfile (size_macro_format m)
                          [Int (size_macro_arg m length)] ;;
               let success := success && (error >=? 0) in
               error <- fputs ([newline; newline] ++ str "#endif" ++ [newline])
                              outfile ;;
               ret (success && (error >=? 0)))) ;;
       match outfile with
       | Some _ =>
           error <- fflush outfile ;;
           let success := success && (error >=? 0) in
           error <- fclose outfile ;;
           ret (success && (error >=? 0))
       | None => ret success
       end
     else ret success) ;;
  _ <- (if success then ret tt
        else complain (str "ERROR: failed to create output C file(s) from the input binary file.")) ;;
  ret success.

End Bin2c.

(** ** bin2h: [main_runbin2h] *)

Section Bin2h.

Variable intel : bool.

(** The encoder block of [main_runbin2h]: no element count, [%hX]. *)
Definition bin2h_encode (outfile : FILEp) : M (bool * Z) :=
  encode false None (Z.to_nat (MAIN_CHUNKSIZE intel)) outfile.

(** [main_runbin2h]; the caller has opened [outfile]. *)
Definition main_runbin2h (outfile : FILEp) (symbol : text)
  (prefix suffix : option text) : M bool :=
  let success := true in
  error <- fputs (str "static unsigned char const ") outfile ;;
  let success := success && (error >=? 0) in
  success <- match prefix with
             | Some p => error <- fputs p outfile ;;
                         ret (success && (error >=? 0))
             | None => ret success
             end ;;
  error <- fputs symbol outfile ;;
  let success := success && (error >=? 0) in
  success <- match suffix with
             | Some s => error <- fputs s outfile ;;
                         ret (success && (error >=? 0))
             | None => ret success
             end ;;
  error <- fputs (str "[] = { ") outfile ;;
  let success := success && (error >=? 0) in
  '(success, _) <- bin2h_encode outfile ;;
  success <-
    when success success
      (error <- fputs (str " };" ++ [newline]) outfile ;;
       ret (error >=? 0)) ;;
  success <-
    when success success
      (error <- fflush outfile ;; ret (error >=? 0)) ;;
  _ <- (if success then ret tt
        else complain (str "ERROR: failed to create an output header file from the input binary file.")) ;;
  ret success.

End Bin2h.

(** ** Worlds for examples *)

(** A heap that grants every request. *)
Definition roomy (n : Z) : bool := true.

(** No operation on an output stream fails. *)
Definition sound (n : nat) : bool := false.

(** Only the [k]-th operation on an output stream fails. *)
Definition failing (k : nat) (n : nat) : bool := (n =? k)%nat.

(** A fresh world whose input stream holds [bytes] and ends as [e]. *)
Definition fresh (bytes : list byte) (e : ending) (f : nat -> bool) : world :=
  {| source := {| pending := bytes; finish := e;
                  eof_indicator := false; error_indicator := false |};
     fault := f; ops := 0; heap := roomy; log := [] |}.

Definition outcome {A} (r : result A) : option A :=
  match r with
  | Ret a _ => Some a
  | _ => None
  end.

Definition final {A} (r : result A) : world :=
  match r with
  | Ret _ w => w
  | Undefined w => w
  | Forever w => w
  end.

(** ** Vocabulary of the statements *)

(** The characters of an optional C string. *)
Definition opt_string (o : option text) : text :=
  match o with
  | Some s => cstring s
  | None => []
  end.

Definition lower_case : text := str "abcdefghijklmnopqrstuvwxyz".
Definition upper_case : text := str "ABCDEFGHIJKLMNOPQRSTUVWXYZ".

(** The tiers of the size macro: largest value, order, and whether the
    build has the tier (the 8-bit one needs C99). *)
Definition tier_max (LONG_MAX : Z) (m : modifier) : Z :=
  match m with
  | mod_hh => SCHAR_MAX
  | mod_h => SHRT_MAX
  | mod_none => INT_MAX
  | mod_l => LONG_MAX
  end.

Definition tier_rank (m : modifier) : Z :=
  match m with
  | mod_hh => 0
  | mod_h => 1
  | mod_none => 2
  | mod_l => 3
  end.

Definition tier_built (c99 : bool) (m : modifier) : bool :=
  match m with
  | mod_hh => c99
  | _ => true
  end.

(** The suffix of a literal of the tier. *)
Definition tier_suffix (m : modifier) : text :=
  match m with
  | mod_l => str "l"
  | _ => []
  end.

(** The measuring steps keep [length = USHRT_MAX - acc] as long as they
    succeed, where [acc] is the length measured so far. *)
Definition measured (acc : Z) (state : bool * Z) : Prop :=
  let '(success, length) := state in
  if success then length = USHRT_MAX - acc /\ acc < USHRT_MAX
  else USHRT_MAX <= acc.

(** The path [main_runbin2c] opens: [main] builds it with
    [main_constructoutpath], and [main_runbin2c] overwrites its last
    character with [ext]. *)
Definition output_path (windows : bool) (heap : Z -> bool) (inpath : text)
  (ext : ascii) : option text :=
  match main_constructoutpath windows heap inpath with
  | Some outpath => set_extension outpath ext
  | None => None
  end.

(** An input stream nothing has been read from, holding [bytes] and ending
    at the end of the file, and the same stream read to its end. *)
Definition unread (bytes : list byte) : infile :=
  {| pending := bytes; finish := EndOfFile;
     eof_indicator := false; error_indicator := false |}.

Definition drained : infile :=
  {| pending := []; finish := EndOfFile;
     eof_indicator := true; error_indicator := false |}.

(** The literal of a byte as the encoder prints it: one hexadecimal digit
    below 16, two from 16 on. *)
Definition literal (b : byte) : text :=
  let v := byte_value b in
  str "0x"
  ++ (if v <? 16 then [hex_digit v] else [hex_digit (v / 16); hex_digit (v mod 16)])
  ++ str "u".

(** The literal with two digits for every byte. *)
Definition padded_literal (b : byte) : text :=
  let v := byte_value b in
  str "0x" ++ [hex_digit (v / 16); hex_digit (v mod 16)] ++ str "u".

(** [join sep l]: the elements of [l] with [sep] between neighbours. *)
Fixpoint join (sep : text) (l : list text) : text :=
  match l with
  | [] => []
  | x :: rest =>
      match rest with
      | [] => x
      | _ => x ++ sep ++ join sep rest
      end
  end.

(** The write events of the inner loop for [data], the first one being the
    [n]-th operation on the output and using [format]. *)
Fixpoint chunk_events (c99 : bool) (file : text) (fault : nat -> bool)
  (n : nat) (format : text) (data : list byte) : list event :=
  match data with
  | [] => []
  | b :: data' =>
      Wrote file (sprintf format [Int (byte_value b)]) (negb (fault n))
      :: chunk_events c99 file fault (S n) (next_format c99) data'
  end.

(** [success] and [length] after the inner loop has run over [data]. *)
Fixpoint count_chunk (counted : option Z) (fault : nat -> bool) (n : nat)
  (data : list byte) (success : bool) (length : Z) : bool * Z :=
  match data with
  | [] => (success, length)
  | _ :: data' =>
      let success := success && negb (fault n) in
      let '(success, length) :=
        match counted with
        | Some LONG_MAX =>
            (success && (length <? LONG_MAX), signed LONG_MAX (length + 1))
        | None => (success, length)
        end in
      count_chunk counted fault (S n) data' success length
  end.

(** The format in use after [data] has been printed. *)
Definition format_after (c99 : bool) (format : text) (data : list byte)
  : text :=
  match data with
  | [] => format
  | _ => next_format c99
  end.

(** The world after the inner loop has printed [taken] with the input in
    state [src]. *)
Definition after_chunk (c99 : bool) (file : text) (w : world) (format : text)
  (taken : list byte) (src : infile) : world :=
  {| source := src; fault := fault w; ops := ops w + length taken;
     heap := heap w;
     log := rev (chunk_events c99 file (fault w) (ops w) format taken)
              ++ log w |}.

(** Byte [j] from here on makes the encoder fail: its write, the
    [n + j]-th operation, fails, or the count has reached [LONG_MAX] before
    it. *)
Definition bad_at (counted : option Z) (fault : nat -> bool) (n : nat)
  (length : Z) (j : nat) : bool :=
  fault (n + j)%nat
  || match counted with
     | Some LONG_MAX => LONG_MAX <=? length + Z.of_nat j
     | None => false
     end.

Definition bad (counted : option Z) (w : world) (length : Z) (j : nat)
  : bool :=
  bad_at counted (fault w) (ops w) length j.

(** The count the encoder returns after [n] bytes, if it keeps one. *)
Definition count_after (counted : option Z) (length : Z) (n : nat) : Z :=
  match counted with
  | Some _ => length + Z.of_nat n
  | None => length
  end.

(** How many bytes are printed when byte [i] is the first to fail: the
    chunk that holds it is finished. *)
Definition printed (chunk : nat) (total i : nat) : nat :=
  Nat.min total ((i / chunk + 1) * chunk).

(** What a run reports. *)
Definition succeeds {A} (r : result (bool * A)) : bool :=
  match r with
  | Ret (true, _) _ => true
  | _ => false
  end.

Definition fails {A} (r : result (bool * A)) : bool :=
  match r with
  | Ret (false, _) _ => true
  | _ => false
  end.

(** The number of successful writes to [file]. *)
Fixpoint writes (file : text) (h : list event) : nat :=
  match h with
  | [] => O
  | Wrote f _ true :: h' =>
      if list_eq_dec ascii_dec f file then S (writes file h')
      else writes file h'
  | _ :: h' => writes file h'
  end.

(** Has [path] been opened, successfully or not? *)
Definition opened (path : text) (h : list event) : bool :=
  existsb (fun e => match e with
                    | Opened p _ => if list_eq_dec ascii_dec p path
                                    then true else false
                    | _ => false
                    end) h.

(** The run does not go on for ever. *)
Definition ends {A} (r : result A) : Prop :=
  match r with
  | Forever _ => False
  | _ => True
  end.


(** ** More vocabulary: streams that break, decoding, command lines *)

(** An input stream nothing has been read from, holding [bytes] and then
    failing with a read error, and the same stream after the error. *)
Definition breaking (bytes : list byte) : infile :=
  {| pending := bytes; finish := ReadError;
     eof_indicator := false; error_indicator := false |}.

Definition broken : infile :=
  {| pending := []; finish := ReadError;
     eof_indicator := false; error_indicator := true |}.

(** The world after one more operation on an output stream, logged as [e]. *)
Definition logged (e : event) (w : world) : world :=
  {| source := source w; fault := fault w; ops := S (ops w);
     heap := heap w; log := e :: log w |}.

(** Reading an array payload back, as a C compiler reads the literals: the
    value of a hexadecimal digit, and the values of the [0x...u] literals of
    a text ([open] is the value read so far inside a literal). *)
Definition hex_value (c : ascii) : option Z :=
  let n := Z.of_N (N_of_ascii c) in
  if (48 <=? n) && (n <=? 57) then Some (n - 48)
  else if (65 <=? n) && (n <=? 70) then Some (n - 55)
  else if (97 <=? n) && (n <=? 102) then Some (n - 87)
  else None.

Fixpoint read_payload (t : text) (open : option Z) : list Z :=
  match t with
  | [] => []
  | c :: rest =>
      match open with
      | None =>
          if (c =? "x")%char then read_payload rest (Some 0)
          else read_payload rest None
      | Some v =>
          match hex_value c with
          | Some d => read_payload rest (Some (16 * v + d))
          | None =>
              if (c =? "u")%char then v :: read_payload rest None
              else read_payload rest None
          end
      end
  end.

(** The number of literals in a text. *)
Definition elements (t : text) : nat := length (read_payload t None).

(** The world after an event that is no operation on an output stream. *)
Definition noted (e : event) (w : world) : world :=
  {| source := source w; fault := fault w; ops := ops w;
     heap := heap w; log := e :: log w |}.

(** The name of the array, and the texts of the generated files. *)
Definition array_name (prefix : option text) (symbol : text)
  (suffix : option text) : text :=
  opt_string prefix ++ cstring symbol ++ opt_string suffix.

Definition array_text (name : text) (bytes : list byte) : text :=
  str "unsigned char const " ++ name ++ str "[] = { "
  ++ join (str ", ") (map literal bytes) ++ str " };" ++ [newline].

Definition static_text (name : text) (bytes : list byte) : text :=
  str "static " ++ array_text name bytes.

Definition definition_text (symbol name : text) (bytes : list byte) : text :=
  str "#include " ++ [dquote] ++ cstring symbol ++ str ".h"
  ++ [dquote; newline; newline] ++ array_text name bytes.

Definition header_text (guard name macro value : text) : text :=
  str "#if !defined ( __" ++ guard ++ str "_H__ )" ++ [newline; newline]
  ++ str "#define __" ++ guard ++ str "_H__" ++ [newline; newline]
  ++ str "extern unsigned char const " ++ name ++ str "[];"
  ++ [newline; newline] ++ str "#define " ++ macro ++ value
  ++ [newline; newline] ++ str "#endif" ++ [newline].

(** The parts [main_runbin2c_outputsymbol] writes, and the write events of
    a list of parts, the first one being the [n]-th operation. *)
Definition symbol_parts (prefix : option text) (symbol : text)
  (suffix : option text) : list text :=
  match prefix with Some p => [p] | None => [] end
  ++ [symbol]
  ++ match suffix with Some s => [s] | None => [] end.

Fixpoint part_events (file : text) (fault : nat -> bool) (n : nat)
  (parts : list text) : list event :=
  match parts with
  | [] => []
  | p :: rest =>
      Wrote file (cstring p) (negb (fault n))
      :: part_events file fault (S n) rest
  end.

Definition event_ok (e : event) : bool :=
  match e with
  | Opened _ ok | Wrote _ _ ok | Flushed _ ok | Closed _ ok => ok
  | Complained _ => true
  end.

(** What happens to the streams apart from the writes: the openings,
    flushes, closings and complaints of a history. *)
Definition lifecycle (h : list event) : list event :=
  filter (fun e => match e with Wrote _ _ _ => false | _ => true end) h.

(** ** Command lines: [main_parseargs]

    The argument vector is the list of its strings, the terminating null
    pointer sitting at the end of the list.  [argc] is what the caller says
    and need not be the length of the list. *)

(** Where [parameter] points: at one of the caller's variables. *)
Inductive slot := to_inpath | to_prefix | to_suffix | to_global.

(** The caller's variables.  [prefix], [suffix] and [global] start as
    [NULL]; [program] and [inpath] hold nothing before they are assigned. *)
Record arguments := {
  arg_program : option text;
  arg_inpath : option text;
  arg_prefix : option text;
  arg_suffix : option text;
  arg_global : option text
}.

Definition no_arguments : arguments :=
  {| arg_program := None; arg_inpath := None; arg_prefix := None;
     arg_suffix := None; arg_global := None |}.

(** [*parameter = value]. *)
Definition assign (s : slot) (value : text) (a : arguments) : arguments :=
  match s with
  | to_inpath =>
      {| arg_program := arg_program a; arg_inpath := Some value;
         arg_prefix := arg_prefix a; arg_suffix := arg_suffix a;
         arg_global := arg_global a |}
  | to_prefix =>
      {| arg_program := arg_program a; arg_inpath := arg_inpath a;
         arg_prefix := Some value; arg_suffix := arg_suffix a;
         arg_global := arg_global a |}
  | to_suffix =>
      {| arg_program := arg_program a; arg_inpath := arg_inpath a;
         arg_prefix := arg_prefix a; arg_suffix := Some value;
         arg_global := arg_global a |}
  | to_global =>
      {| arg_program := arg_program a; arg_inpath := arg_inpath a;
         arg_prefix := arg_prefix a; arg_suffix := arg_suffix a;
         arg_global := Some value |}
  end.

(** [*parameter]. *)
Definition slot_value (s : slot) (a : arguments) : option text :=
  match s with
  | to_inpath => arg_inpath a
  | to_prefix => arg_prefix a
  | to_suffix => arg_suffix a
  | to_global => arg_global a
  end.

(** How a call ends: it returns, it has read outside an argument or the
    vector, or (bin2h without [NDEBUG]) it has called [abort]. *)
Inductive parse :=
| Parsed (success : bool) (a : arguments)
| Stray
| Aborted.

(** The argument that is a hyphen and its terminator. *)
Definition lone_hyphen : text := ["-"%char].

Definition is_null {A} (p : option A) : bool :=
  match p with
  | None => true
  | Some _ => false
  end.

Section Arguments.

(** The program: bin2c has the [-g] option; bin2h calls [abort] on a
    negative [argc] unless [NDEBUG] is defined. *)
Variable bin2c : bool.
Variable ndebug : bool.

(** The [switch] on the character after the hyphen. *)
Definition main_parseargs_switch (c : ascii) (parameter : option slot)
  (success : bool) : option slot * bool :=
  if ((c =? "p") || (c =? "P"))%char then (Some to_prefix, success)
  else if ((c =? "s") || (c =? "S"))%char then (Some to_suffix, success)
  else if bin2c && ((c =? "g") || (c =? "G"))%char
       then (Some to_global, success)
  else (parameter, false).

(** The [while ( argc > 0 )] loop; [argv] is what the pointer faces.
    [None]: the loop has read through the null pointer at the end of the
    vector, or the character after the terminator of an argument that is a
    lone hyphen ([option += 1u; ... *option]). *)
Fixpoint main_parseargs_loop (argv : list text) (argc : Z) (success : bool)
  (parameter : option slot) (a : arguments)
  : option (list text * Z * bool * option slot * arguments) :=
  if argc >? 0 then
    match argv with
    | [] => None
    | arg :: argv' =>
        if (deref arg =? "-")%char then
          let success := success && is_null parameter in
          match skipn 1 arg with
          | [] => None
          | c :: option =>
              let '(parameter, success) :=
                main_parseargs_switch c parameter success in
              let success := success && (deref option =? NUL)%char in
              main_parseargs_loop argv' (argc - 1) success parameter a
          end
        else
          match parameter with
          | Some s =>
              let a := assign s arg a in
              let success := success && negb (is_null (Some arg)) in
              main_parseargs_loop argv' (argc - 1) success None a
          | None => main_parseargs_loop argv' (argc - 1) false None a
          end
    end
  else Some (argv, argc, success, parameter, a).

(** [main_parseargs].  With [argc > 0] and an empty vector, [argv += 1u]
    leaves the vector and the next read is outside it. *)
Definition main_parseargs (argc : Z) (argv : list text) : parse :=
  let success := true in
  let a := no_arguments in
  let after :=
    if argc >? 0 then
      match argv with
      | [] => None
      | first :: argv' =>
          let a := {| arg_program := Some first; arg_inpath := arg_inpath a;
                      arg_prefix := arg_prefix a; arg_suffix := arg_suffix a;
                      arg_global := arg_global a |} in
          main_parseargs_loop argv' (argc - 1) success (Some to_inpath) a
      end
    else main_parseargs_loop argv argc success None a in
  match after with
  | None => Stray
  | Some (argv, argc, success, parameter, a) =>
      let success := success && is_null parameter in
      if argc <? 0 then
        if bin2c || ndebug then Parsed false a else Aborted
      else Parsed (success && match argv with [] => true | _ => false end) a
  end.

(** *** The command lines the parser accepts *)

(** An argument that does not start with a hyphen. *)
Definition plain (arg : text) : bool := negb (deref arg =? "-")%char.

(** The variable an option names: a hyphen and one of the letters of the
    program, in either case, and nothing more. *)
Definition option_slot (arg : text) : option slot :=
  match cstring arg with
  | [d; c] =>
      if (d =? "-")%char then
        if ((c =? "p") || (c =? "P"))%char then Some to_prefix
        else if ((c =? "s") || (c =? "S"))%char then Some to_suffix
        else if bin2c && ((c =? "g") || (c =? "G"))%char then Some to_global
        else None
      else None
  | _ => None
  end.

(** Options and values in turn, no value missing at the end; [value]
    tells whether a value comes next. *)
Fixpoint options_ok (l : list text) (value : bool) : bool :=
  match l with
  | [] => negb value
  | x :: rest =>
      (if value then plain x else negb (is_null (option_slot x)))
      && options_ok rest (negb value)
  end.

(** What the options assign; [pending] is the variable the next value goes
    to. *)
Fixpoint options_set (l : list text) (pending : option slot) (a : arguments)
  : arguments :=
  match l with
  | [] => a
  | x :: rest =>
      match pending with
      | Some s => options_set rest None (assign s x a)
      | None => options_set rest (option_slot x) a
      end
  end.

(** The accepted command lines: nothing at all, or a program name, a plain
    input path, and options with their values. *)
Definition command_ok (argv : list text) : bool :=
  match argv with
  | [] => true
  | _ :: rest => options_ok rest true
  end.

Definition command_set (argv : list text) : arguments :=
  match argv with
  | [] => no_arguments
  | first :: rest =>
      options_set rest (Some to_inpath)
        {| arg_program := Some first; arg_inpath := None; arg_prefix := None;
           arg_suffix := None; arg_global := None |}
  end.

End Arguments.

(** ** The entry points: [main_outputusage] and [main] *)

(** The standard error stream.  Its name is a text that no path can be: a
    path ends before its first NUL. *)
Definition stderr : FILEp := Some [NUL].

(** Writes one after the other, each attempted whatever the earlier ones
    gave: [error = fputs (...); success &= error >= 0;]. *)
Fixpoint fputs_each (lines : list text) (f : FILEp) (success : bool)
  : M bool :=
  match lines with
  | [] => ret success
  | line :: rest =>
      error <- fputs line f ;;
      fputs_each rest f (success && (error >=? 0))
  end.

Definition bin2c_usage_prologue : list text :=
  [ [newline]
    ++ str "Binary file to C language file converter (bin2c), version 2.0."
    ++ [newline; newline];
    str "This program extracts data in unaltered binary form from the given input file and outputs that data as an array of"
    ++ [newline] ++ str "unsigned characters (" ++ [dquote]
    ++ str "unsigned char const" ++ [dquote]
    ++ str ", specifically) into C language file(s)." ++ [newline; newline] ].

Definition bin2c_usage_options : list text :=
  [ str "  input_file        Specifies the input file to use as the source of binary data.  The output file(s) will have the"
    ++ [newline]
    ++ str "                    input file's path and name, but with the "
    ++ [dquote] ++ str ".h" ++ [dquote] ++ str " extension and, when the "
    ++ [dquote] ++ str "-g" ++ [dquote] ++ str " option is present,"
    ++ [newline] ++ str "                    the " ++ [dquote] ++ str ".c"
    ++ [dquote]
    ++ str " extension.  The input file's name also serves as the core of the name of the array."
    ++ [newline];
    str "  -p array_prefix   Prepends " ++ [dquote] ++ str "array_prefix"
    ++ [dquote] ++ str " to the name of the array." ++ [newline];
    str "  -s array_suffix   Appends " ++ [dquote] ++ str "array_suffix"
    ++ [dquote] ++ str " to the name of the array." ++ [newline];
    str "  -g length_suffix  Gives the name global scope and creates both header and source files.  If this option is not present,"
    ++ [newline]
    ++ str "                    then the name has static scope and only a header file is created.  If this option is present, then"
    ++ [newline] ++ str "                    " ++ [dquote]
    ++ str "length_suffix" ++ [dquote]
    ++ str " is appended to the input file's name, " ++ [dquote]
    ++ str "array_prefix" ++ [dquote] ++ str ", when present, is prepended to"
    ++ [newline]
    ++ str "                    the input file's name, and are  capitalized to form a macro for the number of elements."
    ++ [newline] ].

Definition bin2c_usage_synopsis : text :=
  str "%s <input_file> [-p <array_prefix>] [-s <array_suffix>] [-g <length_suffix>]"
  ++ [newline; newline].

Definition bin2h_usage_prologue : list text :=
  [ [newline]
    ++ str "Binary file to C header file converter (bin2h), version 1.0."
    ++ [newline; newline];
    str "This program extracts data in unaltered binary form from the given input file"
    ++ [newline]
    ++ str "and outputs that data as an array of unsigned characters ("
    ++ [dquote] ++ str "unsigned char" ++ [newline] ++ str "const" ++ [dquote]
    ++ str ", specifically) into a C language header file."
    ++ [newline; newline] ].

Definition bin2h_usage_options : list text :=
  [ str "  input      Specifies the input file to use as the source of binary data.  The"
    ++ [newline]
    ++ str "             output header file will have the input file's path and name, but"
    ++ [newline] ++ str "             with the " ++ [dquote] ++ str ".h"
    ++ [dquote] ++ str " extension.  The input file's name also serves as the"
    ++ [newline]
    ++ str "             name of the array, with any given prefix and suffix."
    ++ [newline];
    str "  -p prefix  Prepends " ++ [dquote] ++ str "prefix" ++ [dquote]
    ++ str " to the name of the array." ++ [newline];
    str "  -s suffix  Appends " ++ [dquote] ++ str "suffix" ++ [dquote]
    ++ str " to the name of the array." ++ [newline; newline] ].

Definition bin2h_usage_synopsis : text :=
  str "%s <input> [-p <prefix>] [-s <suffix>]" ++ [newline; newline].

(** What [main] returns. *)
Inductive exit_status := EXIT_SUCCESS | EXIT_FAILURE.

(** What follows has no defined behaviour. *)
Definition undefined {A} : M A := fun w => Undefined w.

Section Main.

Variable c99 : bool.
Variable intel : bool.
Variable windows : bool.
Variable ndebug : bool.
Variable LONG_MAX : Z.

(** The input side of the file system: whether [fopen (path, "rb")] gives
    a stream, which is then the input stream of the world, and whether
    [fclose (infile)] returns zero. *)
Variable readable : text -> bool.
Variable closes : bool.

(** [fopen (inpath, "rb")] and [fclose (infile)].  The opening and the
    closing of the input are logged like those of an output file, under the
    path the stream was opened on; they are no operations on an output
    stream: they do not count in [ops] and [fault] does not decide them. *)
Definition fopen_input (path : text) : M FILEp :=
  fun w =>
    let name := cstring path in
    let ok := readable name in
    Ret (if ok then Some name else None) (noted (Opened name ok) w).

Definition fclose_input (infile : FILEp) : M Z :=
  on_stream infile (fun name w =>
    Ret (if closes then 0 else EOF) (noted (Closed name closes) w)).

(** [main_outputusage] of the two programs. *)
Definition main_outputusage (bin2c : bool) (program : text) : M bool :=
  let success := true in
  success <- fputs_each
               (if bin2c then bin2c_usage_prologue else bin2h_usage_prologue)
               stderr success ;;
  error <- fprintf stderr
             (if bin2c then bin2c_usage_synopsis else bin2h_usage_synopsis)
             [Str program] ;;
  let success := success && (error >=? 0) in
  fputs_each (if bin2c then bin2c_usage_options else bin2h_usage_options)
    stderr success.

(** [if ( success ) { infile = fopen (inpath, "rb"); success = infile !=
    NULL; }]: the stream and [success].  [inpath] has no value on an empty
    command line. *)
Definition main_openinput (success : bool) (a : arguments)
  : M (FILEp * bool) :=
  if success then
    match arg_inpath a with
    | Some inpath =>
        infile <- fopen_input inpath ;;
        ret (infile, negb (is_null infile))
    | None => undefined
    end
  else ret (None, success).

(** [if ( infile != NULL ) { error = fclose (infile); clean &= error == 0; }] *)
Definition main_closeinput (infile : FILEp) (clean : bool) : M bool :=
  match infile with
  | Some _ =>
      error <- fclose_input infile ;;
      ret (clean && (error =? 0))
  | None => ret clean
  end.

(** [if ( !success ) { if ( program != NULL ) ... }]: [program] has a value
    only when [argc > 0], and is then not [NULL]. *)
Definition main_usage (bin2c : bool) (a : arguments) : M unit :=
  match arg_program a with
  | Some program =>
      let name := skipn (Z.to_nat (main_findname windows program)) program in
      _ <- main_outputusage bin2c name ;;
      ret tt
  | None => undefined
  end.

(** [main_shortenname (inpath)] as the argument of the converter: the
    buffer from the returned pointer on. *)
Definition main_symbol (inpath : text) : text :=
  let '(buffer, name) := main_shortenname windows inpath in
  skipn (Z.to_nat name) buffer.

(** [main] of bin2c. *)
Definition bin2c_main (argc : Z) (argv : list text) : M exit_status :=
  match main_parseargs true ndebug argc argv with
  | Parsed success a =>
      '(infile, success) <- main_openinput success a ;;
      '(outpath, success) <-
        (if success then
           match arg_inpath a with
           | Some inpath =>
               fun w =>
                 let outpath := main_constructoutpath windows (heap w) inpath in
                 Ret (outpath, success && negb (is_null outpath)) w
           | None => undefined
           end
         else ret (None, success)) ;;
      success <-
        (if negb success then
           _ <- main_usage true a ;;
           ret success
         else
           match arg_inpath a, outpath with
           | Some inpath, Some outpath =>
               main_runbin2c c99 intel LONG_MAX (main_symbol inpath)
                 (arg_prefix a) (arg_suffix a) (arg_global a) outpath
           | _, _ => undefined
           end) ;;
      let clean := true in
      clean <- main_closeinput infile clean ;;
      _ <- (if negb clean
            then complain (str "ERROR: failed to properly close the input file.")
            else ret tt) ;;
      let success := success && clean in
      ret (if success then EXIT_SUCCESS else EXIT_FAILURE)
  | _ => undefined
  end.

(** [main] of bin2h; [None] when [main_parseargs] has called [abort]. *)
Definition bin2h_main (argc : Z) (argv : list text)
  : M (option exit_status) :=
  match main_parseargs false ndebug argc argv with
  | Parsed success a =>
      '(infile, success) <- main_openinput success a ;;
      '(outfile, success) <-
        (if success then
           match arg_inpath a with
           | Some inpath =>
               outpath <- (fun w =>
                             Ret (main_constructoutname windows (heap w)
                                    inpath) w) ;;
               match outpath with
               | Some outpath =>
                   outfile <- fopen outpath ;;
                   ret (outfile, negb (is_null outfile))
               | None => ret (None, false)
               end
           | None => undefined
           end
         else ret (None, success)) ;;
      success <-
        (if negb success then
           _ <- main_usage false a ;;
           ret success
         else
           match arg_inpath a with
           | Some inpath =>
               main_runbin2h intel outfile (main_symbol inpath)
                 (arg_prefix a) (arg_suffix a)
           | None => undefined
           end) ;;
      let clean := true in
      clean <- match outfile with
               | Some _ =>
                   error <- fclose outfile ;;
                   ret (clean && (error =? 0))
               | None => ret clean
               end ;;
      clean <- main_closeinput infile clean ;;
      _ <- (if negb clean
            then complain (str "ERROR: failed to properly close files.")
            else ret tt) ;;
      let success := success && clean in
      ret (Some (if success then EXIT_SUCCESS else EXIT_FAILURE))
  | Stray => undefined
  | Aborted => ret None
  end.

End Main.

(** *** What a run of [main] leaves in the history *)

(** The texts [main_outputusage] writes, and the events of writes to
    [file], the first one being the [n]-th operation. *)
Definition usage_texts (bin2c : bool) (program : text) : list text :=
  map cstring (if bin2c then bin2c_usage_prologue else bin2h_usage_prologue)
  ++ [sprintf (if bin2c then bin2c_usage_synopsis else bin2h_usage_synopsis)
        [Str program]]
  ++ map cstring (if bin2c then bin2c_usage_options else bin2h_usage_options).

Fixpoint write_events (file : text) (fault : nat -> bool) (n : nat)
  (texts : list text) : list event :=
  match texts with
  | [] => []
  | t :: rest =>
      Wrote file t (negb (fault n)) :: write_events file fault (S n) rest
  end.

(** The name [main] hands to [main_outputusage]: the program name from
    where [main_findname] points. *)
Definition usage_name (windows : bool) (program : text) : text :=
  skipn (Z.to_nat (main_findname windows program)) program.

(** The closing of the input on [path], with the complaint when it
    fails. *)
Definition input_closed (closes : bool) (path complaint : text)
  : list event :=
  Closed path closes :: (if closes then [] else [Complained complaint]).

(** ** Cutting any path

    [last_cut c s] cuts [s] after its last [c]: the part up to and
    including it (empty when there is none) and the rest.  [split_path]
    cuts a path into directories, stem and last extension. *)
Fixpoint last_cut (c : ascii) (s : text) : text * text :=
  match s with
  | [] => ([], [])
  | x :: s' =>
      let '(a, b) := last_cut c s' in
      match a with
      | [] => if (x =? c)%char then ([x], b) else ([], x :: b)
      | _ => (x :: a, b)
      end
  end.

Definition split_path (windows : bool) (path : text) : text * text * text :=
  let '(dir, name) := last_cut (MAIN_PATHDELIMITER windows) path in
  let '(a, ext) := last_cut "."%char name in
  match a with
  | [] => (dir, name, [])
  | _ => (dir, removelast a, "."%char :: ext)
  end.

(** * Proofs *)

(** ** Buffers *)

Arguments USHRT_MAX : simpl never.
Arguments ushort : simpl never.
Arguments Z.of_nat : simpl never.
Arguments Z.sub : simpl never.
Arguments Z.add : simpl never.

Lemma ushort_small z : 0 <= z <= USHRT_MAX -> ushort z = z.
Proof. intros H. unfold ushort, USHRT_MAX in *. apply Z.mod_small. lia. Qed.

Lemma delimiter_not_dot windows : MAIN_PATHDELIMITER windows <> "."%char.
Proof. destruct windows; discriminate. Qed.

Lemma delimiter_not_nul windows : MAIN_PATHDELIMITER windows <> NUL.
Proof. destruct windows; discriminate. Qed.

Lemma has_false c s : has c s = false <-> ~ In c s.
Proof.
  unfold has. induction s as [|x s IH]; simpl.
  - tauto.
  - rewrite orb_false_iff, IH.
    destruct (Ascii.eqb_spec c x); intuition congruence.
Qed.

Lemma cstring_clean s : ~ In NUL s -> cstring s = s.
Proof.
  induction s as [|x s IH]; simpl; intros H; [reflexivity|].
  destruct (Ascii.eqb_spec x NUL) as [->|_]; [tauto|].
  f_equal. apply IH. tauto.
Qed.

Lemma cstring_cut s r : ~ In NUL s -> cstring (s ++ NUL :: r) = s.
Proof.
  induction s as [|x s IH]; simpl; intros H; [reflexivity|].
  destruct (Ascii.eqb_spec x NUL) as [->|_]; [tauto|].
  f_equal. apply IH. tauto.
Qed.

Lemma strlen_clean s : ~ In NUL s -> strlen s = Z.of_nat (length s).
Proof. intros H. unfold strlen. now rewrite cstring_clean. Qed.

Lemma strlen_le s : strlen s <= Z.of_nat (length s).
Proof.
  unfold strlen. induction s as [|x s IH]; simpl; [lia|].
  destruct (x =? NUL)%char; simpl length; lia.
Qed.

Lemma skipn_length_app {A} (a b : list A) : skipn (length a) (a ++ b) = b.
Proof. induction a; simpl; auto. Qed.

Lemma firstn_length_app {A} (a b : list A) : firstn (length a) (a ++ b) = a.
Proof. induction a; simpl; f_equal; auto. Qed.

Lemma poke_app a x b c : poke (a ++ x :: b) (length a) c = a ++ c :: b.
Proof. induction a; simpl; f_equal; auto. Qed.

Lemma string_at_app a b : ~ In NUL b ->
  string_at (a ++ b) (Z.of_nat (length a)) = b.
Proof.
  intros H. unfold string_at. rewrite Nat2Z.id, skipn_length_app.
  now apply cstring_clean.
Qed.

Lemma constructout_copy_firstn s n : 0 <= n <= USHRT_MAX ->
  constructout_copy s n = firstn (Z.to_nat n) s.
Proof.
  revert n. induction s as [|x s IH]; intros n Hn; simpl.
  - destruct (n >? 0); now rewrite firstn_nil.
  - destruct (Z.gtb_spec n 0) as [Hp|Hp].
    + rewrite ushort_small by lia. rewrite IH by lia.
      replace (Z.to_nat n) with (S (Z.to_nat (n - 1))) by lia. reflexivity.
    + replace n with 0 by lia. reflexivity.
Qed.

(** ** The three scans of a path *)

Section PathScans.

Variable windows : bool.

Local Abbreviation d := (MAIN_PATHDELIMITER windows).

Ltac pair_eq :=
  repeat match goal with |- (_, _) = (_, _) => f_equal end;
  try reflexivity; try lia.

Ltac scan_tests :=
  repeat match goal with
  | |- context [Ascii.eqb ?x ?y] =>
      destruct (Ascii.eqb_spec x y); subst; try tauto; try congruence
  end.

(** Characters that are neither delimiter, full stop nor NUL only move the
    pointer. *)
Lemma constructout_scan_plain s : forall L o,
  ~ In NUL s -> ~ In d s -> ~ In "."%char s ->
  Z.of_nat (length s) <= L <= USHRT_MAX ->
  constructout_scan windows s L o = ([], L - Z.of_nat (length s), o).
Proof.
  induction s as [|x s IH]; intros L o Hn Hd Hp HL; simpl.
  - destruct (L >? 0); pair_eq.
  - simpl in HL, Hn, Hd, Hp.
    destruct (Z.gtb_spec L 0); [|lia].
    scan_tests.
    rewrite ushort_small by lia. rewrite IH by (try tauto; lia).
    pair_eq.
Qed.

Lemma constructout_scan_dir pre s : forall L o,
  ~ In NUL pre -> Z.of_nat (length pre) + 1 <= L <= USHRT_MAX ->
  constructout_scan windows (pre ++ d :: s) L o
  = constructout_scan windows s (L - Z.of_nat (length pre) - 1) USHRT_MAX.
Proof.
  pose proof (delimiter_not_dot windows) as Hdd.
  induction pre as [|x pre IH]; intros L o Hn HL; simpl in *.
  - destruct (Z.gtb_spec L 0); [|lia]. scan_tests.
    rewrite ushort_small by lia. f_equal. lia.
  - destruct (Z.gtb_spec L 0); [|lia].
    scan_tests; rewrite ushort_small by lia;
      (rewrite IH by (try tauto; lia)); f_equal; lia.
Qed.

Lemma constructout_scan_stem stem ext : forall L o,
  ~ In NUL stem -> ~ In d stem ->
  Z.of_nat (length stem) + 1 <= L <= USHRT_MAX ->
  constructout_scan windows (stem ++ "."%char :: ext) L o
  = constructout_scan windows ext (L - Z.of_nat (length stem) - 1)
      (L - Z.of_nat (length stem)).
Proof.
  induction stem as [|x stem IH]; intros L o Hn Hd HL; simpl in *.
  - destruct (Z.gtb_spec L 0); [|lia]. scan_tests.
    rewrite ushort_small by lia. f_equal; lia.
  - destruct (Z.gtb_spec L 0); [|lia].
    scan_tests; rewrite ushort_small by lia;
      (rewrite IH by (try tauto; lia)); f_equal; lia.
Qed.


Lemma main_findname_loop_plain s : forall L dl,
  ~ In NUL s -> ~ In d s ->
  Z.of_nat (length s) <= L <= USHRT_MAX ->
  main_findname_loop windows s L dl = ([], L - Z.of_nat (length s), dl).
Proof.
  induction s as [|x s IH]; intros L dl Hn Hd HL; simpl.
  - destruct (L >? 0); pair_eq.
  - simpl in HL, Hn, Hd.
    destruct (Z.gtb_spec L 0); [|lia].
    scan_tests.
    rewrite ushort_small by lia. rewrite IH by (try tauto; lia).
    pair_eq.
Qed.

Lemma main_findname_loop_dir pre s : forall L dl,
  ~ In NUL pre -> Z.of_nat (length pre) + 1 <= L <= USHRT_MAX ->
  main_findname_loop windows (pre ++ d :: s) L dl
  = main_findname_loop windows s (L - Z.of_nat (length pre) - 1)
      (USHRT_MAX - L + Z.of_nat (length pre) + 1).
Proof.
  induction pre as [|x pre IH]; intros L dl Hn HL; simpl in *.
  - destruct (Z.gtb_spec L 0); [|lia]. scan_tests.
    rewrite !ushort_small by lia. f_equal; lia.
  - destruct (Z.gtb_spec L 0); [|lia].
    scan_tests; rewrite !ushort_small by lia;
      (rewrite IH by (try tauto; lia)); f_equal; lia.
Qed.

Lemma main_shortenname_loop_plain s : forall L t dl,
  ~ In NUL s -> ~ In d s -> ~ In "."%char s ->
  Z.of_nat (length s) <= L <= USHRT_MAX ->
  main_shortenname_loop windows s L t dl
  = ([], L - Z.of_nat (length s), t, dl).
Proof.
  induction s as [|x s IH]; intros L t dl Hn Hd Hp HL; simpl.
  - destruct (L >? 0); pair_eq.
  - simpl in HL, Hn, Hd, Hp.
    destruct (Z.gtb_spec L 0); [|lia].
    scan_tests.
    rewrite ushort_small by lia. rewrite IH by (try tauto; lia).
    pair_eq.
Qed.

Lemma main_shortenname_loop_dir pre s : forall L t dl,
  ~ In NUL pre -> Z.of_nat (length pre) + 1 <= L <= USHRT_MAX ->
  main_shortenname_loop windows (pre ++ d :: s) L t dl
  = main_shortenname_loop windows s (L - Z.of_nat (length pre) - 1) 0
      (USHRT_MAX - L + Z.of_nat (length pre) + 1).
Proof.
  pose proof (delimiter_not_dot windows) as Hdd.
  induction pre as [|x pre IH]; intros L t dl Hn HL; simpl in *.
  - destruct (Z.gtb_spec L 0); [|lia]. scan_tests.
    rewrite !ushort_small by lia. f_equal; lia.
  - destruct (Z.gtb_spec L 0); [|lia].
    scan_tests; rewrite !ushort_small by lia;
      (rewrite IH by (try tauto; lia)); f_equal; lia.
Qed.

Lemma main_shortenname_loop_stem stem ext : forall L t dl,
  ~ In NUL stem -> ~ In d stem ->
  Z.of_nat (length stem) + 1 <= L <= USHRT_MAX ->
  main_shortenname_loop windows (stem ++ "."%char :: ext) L t dl
  = main_shortenname_loop windows ext (L - Z.of_nat (length stem) - 1)
      (L - Z.of_nat (length stem)) dl.
Proof.
  induction stem as [|x stem IH]; intros L t dl Hn Hd HL; simpl in *.
  - destruct (Z.gtb_spec L 0); [|lia]. scan_tests.
    rewrite ushort_small by lia. f_equal; lia.
  - destruct (Z.gtb_spec L 0); [|lia].
    scan_tests; rewrite ushort_small by lia;
      (rewrite IH by (try tauto; lia)); f_equal; lia.
Qed.

(** What [well_split] says, as propositions. *)
Lemma well_split_facts dir stem tail :
  well_split windows dir stem tail = true ->
  (~ In NUL dir /\ ~ In NUL stem /\ ~ In NUL tail)
  /\ (dir = [] \/ exists pre, dir = pre ++ [d])
  /\ (~ In d stem /\ ~ In d tail)
  /\ (tail = [] /\ ~ In "."%char stem
      \/ exists ext, tail = "."%char :: ext /\ ~ In "."%char ext).
Proof.
  unfold well_split.
  rewrite !andb_true_iff, !negb_true_iff, !has_false.
  intros [[[Hn Hl] Hd] Ht].
  repeat rewrite in_app_iff in Hn. rewrite in_app_iff in Hd.
  split; [tauto|]. split; [|split; [tauto|]].
  - destruct dir as [|x dir' _] using rev_ind; [now left|right].
    rewrite last_last in Hl.
    apply Ascii.eqb_eq in Hl. subst x. now exists dir'.
  - destruct tail as [|c ext].
    + left. split; [reflexivity|]. now apply has_false, negb_true_iff.
    + right. apply andb_true_iff in Ht as [Hc He].
      apply Ascii.eqb_eq in Hc. subst c.
      exists ext. split; [reflexivity|]. now apply has_false, negb_true_iff.
Qed.

(** The scans of a file name: a stem and a tail. *)
Lemma constructout_scan_name stem tail L o :
  ~ In NUL (stem ++ tail) -> ~ In d (stem ++ tail) ->
  (tail = [] /\ ~ In "."%char stem
   \/ exists ext, tail = "."%char :: ext /\ ~ In "."%char ext) ->
  Z.of_nat (length (stem ++ tail)) <= L <= USHRT_MAX ->
  constructout_scan windows (stem ++ tail) L o
  = ([], L - Z.of_nat (length (stem ++ tail)),
     match tail with [] => o | _ => L - Z.of_nat (length stem) end).
Proof.
  intros Hn Hd [[-> Hp]|[ext [-> Hp]]] HL.
  - rewrite app_nil_r in *. now apply constructout_scan_plain.
  - rewrite in_app_iff in Hn, Hd. rewrite length_app in *. simpl in *.
    rewrite constructout_scan_stem by (try tauto; lia).
    rewrite constructout_scan_plain by (try tauto; lia).
    pair_eq.
Qed.

Lemma main_shortenname_loop_name stem tail L t dl :
  ~ In NUL (stem ++ tail) -> ~ In d (stem ++ tail) ->
  (tail = [] /\ ~ In "."%char stem
   \/ exists ext, tail = "."%char :: ext /\ ~ In "."%char ext) ->
  Z.of_nat (length (stem ++ tail)) <= L <= USHRT_MAX ->
  main_shortenname_loop windows (stem ++ tail) L t dl
  = ([], L - Z.of_nat (length (stem ++ tail)),
     match tail with [] => t | _ => L - Z.of_nat (length stem) end, dl).
Proof.
  intros Hn Hd [[-> Hp]|[ext [-> Hp]]] HL.
  - rewrite app_nil_r in *. now apply main_shortenname_loop_plain.
  - rewrite in_app_iff in Hn, Hd. rewrite length_app in *. simpl in *.
    rewrite main_shortenname_loop_stem by (try tauto; lia).
    rewrite main_shortenname_loop_plain by (try tauto; lia).
    pair_eq.
Qed.

(** The scans of a whole path. *)
Lemma constructout_scan_split dir stem tail :
  well_split windows dir stem tail = true ->
  Z.of_nat (length (dir ++ stem ++ tail)) <= USHRT_MAX ->
  constructout_scan windows (dir ++ stem ++ tail) USHRT_MAX USHRT_MAX
  = ([], USHRT_MAX - Z.of_nat (length (dir ++ stem ++ tail)),
     match tail with
     | [] => USHRT_MAX
     | _ => USHRT_MAX - Z.of_nat (length (dir ++ stem))
     end).
Proof.
  intros Hs HL. apply well_split_facts in Hs.
  destruct Hs as [[Hn1 [Hn2 Hn3]] [Hdir [[Hd1 Hd2] Ht]]].
  assert (Hn : ~ In NUL (stem ++ tail)) by (rewrite in_app_iff; tauto).
  assert (Hd : ~ In d (stem ++ tail)) by (rewrite in_app_iff; tauto).
  rewrite !length_app in *.
  destruct Hdir as [->|[pre ->]].
  - simpl in *. rewrite constructout_scan_name by (auto; rewrite length_app; lia).
    rewrite length_app. destruct tail; pair_eq.
  - rewrite <- app_assoc. simpl app. rewrite length_app in *. simpl in *.
    rewrite in_app_iff in Hn1.
    rewrite constructout_scan_dir by (try tauto; lia).
    rewrite constructout_scan_name by (auto; rewrite length_app; lia).
    rewrite length_app. destruct tail; pair_eq.
Qed.

Lemma main_shortenname_loop_split dir stem tail :
  well_split windows dir stem tail = true ->
  Z.of_nat (length (dir ++ stem ++ tail)) <= USHRT_MAX ->
  main_shortenname_loop windows (dir ++ stem ++ tail) USHRT_MAX 0 0
  = ([], USHRT_MAX - Z.of_nat (length (dir ++ stem ++ tail)),
     match tail with
     | [] => 0
     | _ => USHRT_MAX - Z.of_nat (length (dir ++ stem))
     end,
     Z.of_nat (length dir)).
Proof.
  intros Hs HL. apply well_split_facts in Hs.
  destruct Hs as [[Hn1 [Hn2 Hn3]] [Hdir [[Hd1 Hd2] Ht]]].
  assert (Hn : ~ In NUL (stem ++ tail)) by (rewrite in_app_iff; tauto).
  assert (Hd : ~ In d (stem ++ tail)) by (rewrite in_app_iff; tauto).
  rewrite !length_app in *.
  destruct Hdir as [->|[pre ->]].
  - simpl in *.
    rewrite main_shortenname_loop_name by (auto; rewrite length_app; lia).
    rewrite length_app. destruct tail; pair_eq.
  - rewrite <- app_assoc. simpl app. rewrite length_app in *. simpl in *.
    rewrite in_app_iff in Hn1.
    rewrite main_shortenname_loop_dir by (try tauto; lia).
    rewrite main_shortenname_loop_name by (auto; rewrite length_app; lia).
    rewrite length_app. destruct tail; pair_eq.
Qed.

Lemma main_findname_loop_split dir stem tail :
  well_split windows dir stem tail = true ->
  Z.of_nat (length (dir ++ stem ++ tail)) <= USHRT_MAX ->
  main_findname_loop windows (dir ++ stem ++ tail) USHRT_MAX 0
  = ([], USHRT_MAX - Z.of_nat (length (dir ++ stem ++ tail)),
     Z.of_nat (length dir)).
Proof.
  intros Hs HL. apply well_split_facts in Hs.
  destruct Hs as [[Hn1 [Hn2 Hn3]] [Hdir [[Hd1 Hd2] Ht]]].
  assert (Hn : ~ In NUL (stem ++ tail)) by (rewrite in_app_iff; tauto).
  assert (Hd : ~ In d (stem ++ tail)) by (rewrite in_app_iff; tauto).
  rewrite !length_app in *.
  destruct Hdir as [->|[pre ->]].
  - simpl in *.
    rewrite main_findname_loop_plain by (auto; rewrite length_app; lia).
    rewrite length_app. pair_eq.
  - rewrite <- app_assoc. simpl app. rewrite length_app in *. simpl in *.
    rewrite in_app_iff in Hn1.
    rewrite main_findname_loop_dir by (try tauto; lia).
    rewrite main_findname_loop_plain by (auto; rewrite length_app; lia).
    rewrite length_app. pair_eq.
Qed.

End PathScans.

(** ** What the three functions return *)

Section PathResults.

Variable windows : bool.

Lemma main_findname_split dir stem tail :
  well_split windows dir stem tail = true ->
  Z.of_nat (length (dir ++ stem ++ tail)) <= USHRT_MAX ->
  main_findname windows (dir ++ stem ++ tail) = Z.of_nat (length dir).
Proof.
  intros Hs HL. unfold main_findname.
  rewrite main_findname_loop_split by assumption.
  unfold ptr_diff. simpl length. lia.
Qed.

Lemma main_shortenname_split dir stem tail :
  well_split windows dir stem tail = true ->
  Z.of_nat (length (dir ++ stem ++ tail)) + 1 <= USHRT_MAX ->
  main_shortenname windows (dir ++ stem ++ tail)
  = (match tail with
     | [] => dir ++ stem
     | _ :: ext => dir ++ stem ++ NUL :: ext
     end, Z.of_nat (length dir)).
Proof.
  intros Hs HL. unfold main_shortenname.
  rewrite main_shortenname_loop_split by (auto; lia).
  unfold ptr_diff. simpl length.
  destruct tail as [|c ext].
  - simpl. rewrite app_nil_r. f_equal. lia.
  - rewrite !length_app in *. simpl length in *.
    destruct (Z.gtb_spec (USHRT_MAX - Z.of_nat (length dir + length stem)) 0);
      [|lia].
    rewrite ushort_small by lia. f_equal; [|lia].
    replace (Z.to_nat _) with (length (dir ++ stem))
      by (rewrite length_app; lia).
    rewrite app_assoc. rewrite poke_app. now rewrite <- app_assoc.
Qed.

Lemma constructout_split mark heap dir stem tail :
  well_split windows dir stem tail = true ->
  Z.of_nat (length (dir ++ stem ++ tail)) <= USHRT_MAX ->
  (tail <> [] -> dir ++ stem <> []) ->
  constructout windows mark heap (dir ++ stem ++ tail)
  = if (Z.of_nat (length (dir ++ stem)) + 2 + 1 <=? USHRT_MAX)
       && heap (Z.of_nat (length (dir ++ stem)) + 2 + 1)
    then Some (dir ++ stem ++ ["."%char; mark]) else None.
Proof.
  intros Hs HL Hdot. unfold constructout.
  rewrite constructout_scan_split by assumption.
  simpl deref. rewrite Ascii.eqb_refl.
  unfold ptr_diff. simpl length.
  set (keep := Z.of_nat (length (dir ++ stem))).
  set (len := Z.of_nat (length (dir ++ stem ++ tail))) in *.
  assert (Hkeep : 0 <= keep <= len).
  { subst keep len. rewrite app_assoc, (length_app (dir ++ stem)). lia. }
  assert (Hlen : (if match tail with
                     | [] => USHRT_MAX
                     | _ => USHRT_MAX - keep
                     end =? USHRT_MAX
                  then USHRT_MAX - len
                  else match tail with
                       | [] => USHRT_MAX
                       | _ => USHRT_MAX - keep
                       end) = USHRT_MAX - keep).
  { destruct tail as [|c ext].
    - rewrite Z.eqb_refl. subst keep len. now rewrite app_nil_r.
    - destruct (Z.eqb_spec (USHRT_MAX - keep) USHRT_MAX) as [E|E]; [|easy].
      assert (keep = 0) by lia. subst keep.
      destruct (dir ++ stem); [now destruct Hdot|discriminate]. }
  rewrite Hlen.
  destruct (Z.leb_spec (keep + 2 + 1) USHRT_MAX) as [Hfit|Hfit].
  - destruct (Z.geb_spec (USHRT_MAX - keep) (2 + 1)); [|lia].
    rewrite ushort_small by lia.
    replace (USHRT_MAX - (USHRT_MAX - keep)) with keep by lia.
    simpl andb. destruct (heap (keep + 2 + 1)); [|reflexivity].
    match goal with
    | |- context [skipn (Z.to_nat ?e) _] => replace (Z.to_nat e) with O by lia
    end.
    simpl skipn. rewrite constructout_copy_firstn by lia.
    subst keep. rewrite Nat2Z.id.
    rewrite (app_assoc dir stem tail), firstn_length_app.
    now rewrite <- app_assoc.
  - destruct (Z.geb_spec (USHRT_MAX - keep) (2 + 1)); [lia|reflexivity].
Qed.

(** A string longer than the bound is refused: the scan stops in front of a
    character that is not the terminator. *)
Lemma constructout_scan_long s : forall L o,
  0 <= L <= USHRT_MAX -> L < strlen s ->
  exists rest o', constructout_scan windows s L o = (rest, 0, o')
                  /\ deref rest <> NUL.
Proof.
  unfold strlen.
  induction s as [|x s IH]; intros L o HL Hlong; simpl in Hlong.
  - simpl length in Hlong. lia.
  - destruct (Ascii.eqb_spec x NUL) as [->|Hx]; [simpl length in Hlong; lia|].
    simpl length in Hlong. simpl.
    destruct (Z.gtb_spec L 0) as [Hp|Hp].
    + assert (HL' : 0 <= L - 1 <= USHRT_MAX) by lia.
      assert (Hlong' : L - 1 < Z.of_nat (length (cstring s))) by lia.
      rewrite ushort_small by lia.
      destruct (Ascii.eqb_spec x "."%char); [now apply IH|].
      destruct (Ascii.eqb_spec x (MAIN_PATHDELIMITER windows));
        [now apply IH|].
      destruct (Ascii.eqb_spec x NUL); [contradiction|now apply IH].
    + exists (x :: s), o. split; [f_equal; f_equal; lia|exact Hx].
Qed.

Lemma constructout_long mark heap path :
  USHRT_MAX < strlen path -> constructout windows mark heap path = None.
Proof.
  intros Hlong. unfold constructout.
  destruct (constructout_scan_long path USHRT_MAX USHRT_MAX)
    as [rest [o' [-> Hrest]]]; [unfold USHRT_MAX; lia|assumption|].
  destruct (Ascii.eqb_spec (deref rest) NUL); [contradiction|reflexivity].
Qed.

(** The scan never moves past the terminator, nor past the bound. *)
Lemma constructout_scan_reads s : forall L o,
  0 <= L ->
  ptr_diff s (fst (fst (constructout_scan windows s L o)))
  <= Z.min (strlen s) L.
Proof.
  unfold ptr_diff, strlen.
  induction s as [|x s IH]; intros L o HL; simpl.
  - destruct (L >? 0); simpl; lia.
  - destruct (Z.gtb_spec L 0) as [Hp|Hp]; [|simpl; lia].
    assert (Hu : ushort (L - 1) <= L - 1).
    { unfold ushort. apply Z.mod_le; unfold USHRT_MAX; lia. }
    assert (Hu0 : 0 <= ushort (L - 1)).
    { unfold ushort. apply Z.mod_pos_bound. unfold USHRT_MAX. lia. }
    destruct (Ascii.eqb_spec x "."%char) as [->|_].
    { simpl. specialize (IH (ushort (L - 1)) L Hu0). simpl length. lia. }
    destruct (Ascii.eqb_spec x (MAIN_PATHDELIMITER windows)) as [->|_].
    { pose proof (delimiter_not_nul windows) as Hd.
      destruct (Ascii.eqb_spec (MAIN_PATHDELIMITER windows) NUL);
        [contradiction|].
      specialize (IH (ushort (L - 1)) USHRT_MAX Hu0). simpl length. lia. }
    destruct (Ascii.eqb_spec x NUL) as [->|_]; [simpl; lia|].
    specialize (IH (ushort (L - 1)) o Hu0). simpl length. lia.
Qed.

Lemma constructout_reads_bound path :
  constructout_reads windows path <= Z.min (strlen path) USHRT_MAX + 1.
Proof.
  unfold constructout_reads.
  pose proof (constructout_scan_reads path USHRT_MAX USHRT_MAX) as H.
  destruct (constructout_scan windows path USHRT_MAX USHRT_MAX)
    as [[rest L] o]. simpl in H.
  assert (0 <= USHRT_MAX) by (unfold USHRT_MAX; lia). lia.
Qed.

End PathResults.

Lemma set_extension_last s mark c : ~ In NUL s -> mark <> NUL ->
  set_extension (s ++ ["."%char; mark]) c = Some (s ++ ["."%char; c]).
Proof.
  intros Hs Hm. unfold set_extension.
  assert (Hclean : ~ In NUL (s ++ ["."%char; mark])).
  { rewrite in_app_iff. simpl. intros [H|[H|[H|[]]]];
      [tauto|discriminate|congruence]. }
  rewrite strlen_clean by assumption.
  rewrite length_app. simpl length.
  destruct (Z.geb_spec (Z.of_nat (length s + 2)) 1); [|lia].
  f_equal.
  replace (Z.to_nat _) with (length (s ++ ["."%char]))
    by (rewrite length_app; simpl; lia).
  replace (s ++ ["."%char; mark]) with ((s ++ ["."%char]) ++ [mark])
    by now rewrite <- app_assoc.
  rewrite poke_app. now rewrite <- app_assoc.
Qed.

(** ** Macro names *)

Lemma upperizemacro_spec part : forall macro,
  main_runbin2c_constructmacro_upperizemacro part macro
  = macro ++ map toupper (cstring part).
Proof.
  induction part as [|c part IH]; intros macro; simpl.
  - now rewrite app_nil_r.
  - destruct (c =? NUL)%char; simpl.
    + now rewrite app_nil_r.
    + rewrite IH, <- app_assoc. reflexivity.
Qed.

Lemma ushort_range z : 0 <= ushort z <= USHRT_MAX.
Proof.
  unfold ushort.
  pose proof (Z.mod_pos_bound z (USHRT_MAX + 1)) as H.
  unfold USHRT_MAX in *. lia.
Qed.

Lemma strlen_nonneg s : 0 <= strlen s.
Proof. unfold strlen. lia. Qed.

Lemma cstring_idem s : cstring (cstring s) = cstring s.
Proof.
  induction s as [|x s IH]; simpl; [reflexivity|].
  destruct (x =? NUL)%char eqn:E; simpl; [reflexivity|].
  now rewrite E, IH.
Qed.

Lemma strlen_cstring s : strlen (cstring s) = strlen s.
Proof. unfold strlen. now rewrite cstring_idem. Qed.

Lemma measure_fragment_measured part acc state :
  0 <= acc -> measured acc state ->
  measured (acc + strlen part) (measure_fragment part state).
Proof.
  intros Hacc. destruct state as [success length]. unfold measured.
  pose proof (strlen_nonneg part) as Hp. simpl.
  destruct success; simpl.
  - intros [-> Hlt].
    destruct (Z.ltb_spec (strlen part) (USHRT_MAX - acc)).
    + rewrite (ushort_small (strlen part)) by lia.
      rewrite ushort_small by lia. lia.
    + lia.
  - lia.
Qed.

Lemma constructmacro_characterised heap prefix core suffix :
  let parts := opt_string prefix ++ cstring core ++ opt_string suffix in
  let total := Z.of_nat (length parts) in
  main_runbin2c_constructmacro heap prefix core suffix
  = if (total + 1 <=? USHRT_MAX) && heap (total + 1)
    then Some (map toupper parts) else None.
Proof.
  intros parts total.
  assert (Htotal : total = strlen (opt_string prefix) + strlen core
                           + strlen (opt_string suffix)).
  { subst total parts. rewrite !length_app. unfold strlen.
    destruct prefix, suffix; simpl opt_string; rewrite ?cstring_idem;
      simpl length; lia. }
  unfold main_runbin2c_constructmacro.
  set (s1 := match prefix with
             | Some p => measure_fragment p (true, USHRT_MAX)
             | None => (true, USHRT_MAX)
             end).
  assert (H1 : measured (strlen (opt_string prefix)) s1).
  { subst s1. destruct prefix as [p|]; simpl opt_string.
    - rewrite strlen_cstring.
      replace (strlen p) with (0 + strlen p) by lia.
      apply measure_fragment_measured; [lia|]. simpl. unfold USHRT_MAX. lia.
    - simpl. unfold USHRT_MAX, strlen. simpl. lia. }
  set (s2 := measure_fragment core s1).
  assert (H2 : measured (strlen (opt_string prefix) + strlen core) s2).
  { apply measure_fragment_measured; [apply strlen_nonneg|assumption]. }
  set (s3 := match suffix with
             | Some s => measure_fragment s s2
             | None => s2
             end).
  assert (H3 : measured total s3).
  { rewrite Htotal. subst s3. destruct suffix as [s|]; simpl opt_string.
    - rewrite strlen_cstring.
      apply measure_fragment_measured; [|assumption].
      pose proof (strlen_nonneg (opt_string prefix)).
      pose proof (strlen_nonneg core). lia.
    - replace (strlen []) with 0 by reflexivity. now rewrite Z.add_0_r. }
  destruct s3 as [success length]. simpl in H3.
  destruct success.
  - destruct H3 as [-> Hlt].
    destruct (Z.geb_spec (USHRT_MAX - total) 1); [|lia].
    destruct (Z.leb_spec (total + 1) USHRT_MAX); [|lia].
    assert (0 <= total) by (subst total; lia).
    rewrite ushort_small by lia.
    replace (USHRT_MAX - (USHRT_MAX - total)) with total by lia.
    simpl andb. destruct (heap (total + 1)); [|reflexivity].
    f_equal. subst parts.
    destruct prefix, suffix; simpl opt_string;
      rewrite !upperizemacro_spec, ?map_app; simpl;
      rewrite <- ?app_assoc, ?app_nil_r; reflexivity.
  - destruct (Z.leb_spec (total + 1) USHRT_MAX); [lia|reflexivity].
Qed.

Lemma toupper_letters i : (i < 26)%nat ->
  toupper (nth i lower_case NUL) = nth i upper_case NUL.
Proof.
  intros H.
  do 26 (destruct i as [|i]; [reflexivity|]). lia.
Qed.

Lemma toupper_others c : ~ In c lower_case -> toupper c = c.
Proof.
  destruct c as [[] [] [] [] [] [] [] []]; intros H;
    try reflexivity; exfalso; apply H; vm_compute; tauto.
Qed.

(** ** The value of the size macro *)

Lemma signed_small max z : 0 <= z <= max -> signed max z = z.
Proof.
  intros H. unfold signed. rewrite Z.mod_small; lia.
Qed.

Lemma read_decimal_decimal z : read_decimal (decimal z) = Some z.
Proof.
  unfold read_decimal, decimal.
  rewrite string_of_list_ascii_of_string.
  rewrite NilZero.isi.
  - simpl. now rewrite DecimalZ.of_to.
  - destruct z; simpl; try discriminate.
    intros [= H]. now apply DecimalPos.Unsigned.to_uint_nonnil in H.
  - destruct z; simpl; try discriminate.
    intros [= H]. now apply DecimalPos.Unsigned.to_uint_nonnil in H.
Qed.

Lemma size_macro_value_text c99 length : 0 <= length ->
  size_macro_value c99 length
  = str "  " ++ decimal length
    ++ tier_suffix (size_macro_width c99 length).
Proof.
  intros H0. unfold size_macro_value, size_macro_width.
  destruct c99; simpl andb;
    repeat match goal with
    | |- context [?a <=? ?b] => destruct (Z.leb_spec a b)
    end;
    cbn -[decimal signed SCHAR_MAX SHRT_MAX INT_MAX];
    rewrite ?(signed_small _ length) by lia;
    rewrite ?(signed_small _ length) by lia;
    rewrite ?app_nil_r; reflexivity.
Qed.

Lemma size_macro_width_least c99 LONG_MAX length :
  0 <= length <= LONG_MAX ->
  let m := size_macro_width c99 length in
  tier_built c99 m = true
  /\ length <= tier_max LONG_MAX m
  /\ forall m', tier_built c99 m' = true -> length <= tier_max LONG_MAX m' ->
       tier_rank m <= tier_rank m'.
Proof.
  intros H. unfold size_macro_width.
  destruct c99; simpl andb;
    repeat match goal with
    | |- context [?a <=? ?b] => destruct (Z.leb_spec a b)
    end; simpl; (split; [reflexivity|]); (split; [lia|]);
    intros [] Hb Hm; simpl in *; try lia; try discriminate.
Qed.

(** ** The streaming encoder *)

Lemma printf_result_sign (ok : bool) (n : nat) :
  ((if ok then Z.of_nat n else -1) >=? 0) = ok.
Proof. destruct ok; [apply Z.geb_le; lia|reflexivity]. Qed.

Lemma world_eq s f o h l s' f' o' h' l' :
  s = s' -> f = f' -> o = o' -> h = h' -> l = l' ->
  {| source := s; fault := f; ops := o; heap := h; log := l |}
  = {| source := s'; fault := f'; ops := o'; heap := h'; log := l' |}.
Proof. now intros -> -> -> -> ->. Qed.

Lemma chunk_events_app c99 file fault a : forall n format b,
  chunk_events c99 file fault n format (a ++ b)
  = chunk_events c99 file fault n format a
    ++ chunk_events c99 file fault (n + length a) (format_after c99 format a) b.
Proof.
  induction a as [|x a IH]; intros n format b; simpl.
  - now rewrite Nat.add_0_r.
  - rewrite IH.
    replace (S n + length a)%nat with (n + S (length a))%nat by lia.
    now destruct a.
Qed.

Lemma count_chunk_app counted fault a : forall n b success length,
  count_chunk counted fault n (a ++ b) success length
  = let '(s, l) := count_chunk counted fault n a success length in
    count_chunk counted fault (n + List.length a) b s l.
Proof.
  induction a as [|x a IH]; intros n b success length; simpl.
  - now rewrite Nat.add_0_r.
  - destruct counted as [LONG_MAX|]; rewrite IH;
      replace (S n + List.length a)%nat with (n + S (List.length a))%nat by lia;
      reflexivity.
Qed.

Lemma count_chunk_failed counted fault data : forall n length,
  fst (count_chunk counted fault n data false length) = false.
Proof.
  induction data as [|x data IH]; intros n length; simpl; [reflexivity|].
  destruct counted; apply IH.
Qed.

Lemma count_chunk_clean counted fault data : forall n length,
  0 <= length ->
  (forall j, (j < List.length data)%nat ->
             bad_at counted fault n length j = false) ->
  count_chunk counted fault n data true length
  = (true, count_after counted length (List.length data)).
Proof.
  unfold bad_at, count_after.
  induction data as [|b data IH]; intros n length H0 Hclean.
  - simpl. destruct counted; f_equal. lia.
  - pose proof (Hclean O ltac:(simpl; lia)) as Hhead.
    apply orb_false_iff in Hhead as [Hf Hc].
    rewrite Nat.add_0_r in Hf.
    cbn [count_chunk]. rewrite Hf. cbn [negb andb].
    assert (Htail : forall j, (j < List.length data)%nat ->
              fault (S n + j)%nat
              || match counted with
                 | Some LONG_MAX => LONG_MAX <=? (length + 1) + Z.of_nat j
                 | None => false
                 end = false).
    { intros j Hj. specialize (Hclean (S j) ltac:(simpl; lia)).
      replace (S n + j)%nat with (n + S j)%nat by lia.
      replace (length + 1 + Z.of_nat j) with (length + Z.of_nat (S j)) by lia.
      exact Hclean. }
    destruct counted as [LONG_MAX|].
    + apply Z.leb_gt in Hc.
      destruct (Z.ltb_spec length LONG_MAX); [|lia].
      rewrite signed_small by lia.
      rewrite IH by (auto; lia). f_equal. simpl List.length. lia.
    + now rewrite IH.
Qed.

Lemma count_chunk_bad counted fault data : forall n length success i,
  0 <= length -> (i < List.length data)%nat ->
  bad_at counted fault n length i = true ->
  (forall j, (j < i)%nat -> bad_at counted fault n length j = false) ->
  fst (count_chunk counted fault n data success length) = false.
Proof.
  unfold bad_at.
  induction data as [|b data IH]; intros n length success i H0 Hi Hbad Hfirst;
    [simpl in Hi; lia|].
  cbn [count_chunk].
  destruct i as [|i].
  - rewrite Nat.add_0_r, Z.add_0_r in Hbad.
    apply orb_true_iff in Hbad as [Hf|Hc].
    + rewrite Hf. cbn [negb]. rewrite andb_false_r.
      destruct counted; apply count_chunk_failed.
    + destruct counted as [LONG_MAX|]; [|discriminate].
      apply Z.leb_le in Hc.
      destruct (Z.ltb_spec length LONG_MAX); [lia|].
      rewrite andb_false_r. apply count_chunk_failed.
  - pose proof (Hfirst O ltac:(lia)) as Hhead.
    apply orb_false_iff in Hhead as [Hf Hc].
    rewrite Nat.add_0_r, Z.add_0_r in *.
    simpl in Hi.
    destruct counted as [LONG_MAX|].
    + apply Z.leb_gt in Hc. rewrite signed_small by lia.
      apply (IH (S n) (length + 1) _ i); [lia|lia| |].
      * replace (S n + i)%nat with (n + S i)%nat by lia.
        replace (length + 1 + Z.of_nat i) with (length + Z.of_nat (S i))
          by lia.
        exact Hbad.
      * intros j Hj. specialize (Hfirst (S j) ltac:(lia)).
        replace (S n + j)%nat with (n + S j)%nat by lia.
        replace (length + 1 + Z.of_nat j) with (length + Z.of_nat (S j))
          by lia.
        exact Hfirst.
    + apply (IH (S n) length _ i); [lia|lia| |].
      * replace (S n + i)%nat with (n + S i)%nat by lia. exact Hbad.
      * intros j Hj. specialize (Hfirst (S j) ltac:(lia)).
        replace (S n + j)%nat with (n + S j)%nat by lia. exact Hfirst.
Qed.

Lemma first_bad (P : nat -> bool) n :
  (forall j, (j < n)%nat -> P j = false)
  \/ exists i, (i < n)%nat /\ P i = true
               /\ forall j, (j < i)%nat -> P j = false.
Proof.
  induction n as [|n [IH|[i [Hi [Hp Hf]]]]].
  - left. intros j Hj. lia.
  - destruct (P n) eqn:E.
    + right. exists n. repeat split; auto.
    + left. intros j Hj.
      destruct (Nat.eq_dec j n) as [->|]; [assumption|apply IH; lia].
  - right. exists i. repeat split; auto.
Qed.

Lemma firstn_plus {A} (n m : nat) : forall l : list A,
  firstn (n + m) l = firstn n l ++ firstn m (skipn n l).
Proof.
  induction n as [|n IH]; intros [|x l]; simpl;
    rewrite ?firstn_nil; try reflexivity.
  now rewrite IH.
Qed.

Lemma after_chunk_app c99 file w format a b src1 src2 :
  after_chunk c99 file (after_chunk c99 file w format a src1)
    (format_after c99 format a) b src2
  = after_chunk c99 file w format (a ++ b) src2.
Proof.
  unfold after_chunk. cbn [fault ops heap log source].
  apply world_eq; auto.
  - rewrite length_app. lia.
  - rewrite chunk_events_app, rev_app_distr, app_assoc. reflexivity.
Qed.

Lemma printed_step chunk total i :
  (0 < chunk)%nat -> (chunk <= i)%nat -> (chunk <= total)%nat ->
  printed chunk total i = (chunk + printed chunk (total - chunk) (i - chunk))%nat.
Proof.
  intros Hc Hi Ht. unfold printed.
  assert (Hq : (i / chunk = (i - chunk) / chunk + 1)%nat).
  { replace i with ((i - chunk) + 1 * chunk)%nat at 1 by lia.
    rewrite Nat.div_add by lia. reflexivity. }
  rewrite Hq.
  set (X := (((i - chunk) / chunk + 1) * chunk)%nat).
  replace (((i - chunk) / chunk + 1 + 1) * chunk)%nat with (X + chunk)%nat
    by (subst X; lia).
  lia.
Qed.

Lemma printed_first chunk total i :
  (0 < chunk)%nat -> (i < chunk)%nat ->
  printed chunk total i = Nat.min total chunk.
Proof.
  intros Hc Hi. unfold printed. rewrite Nat.div_small by lia. simpl.
  now rewrite Nat.add_0_r.
Qed.

Lemma bad_shift counted c99 file w format data src length j :
  bad counted (after_chunk c99 file w format data src)
      (count_after counted length (List.length data)) j
  = bad counted w length (List.length data + j).
Proof.
  unfold bad, bad_at, after_chunk, count_after. cbn [fault ops].
  rewrite Nat.add_assoc. destruct counted as [LONG_MAX|]; [|reflexivity].
  f_equal. f_equal. lia.
Qed.

Section EncoderProofs.

Variable c99 : bool.
Variable counted : option Z.
Variable chunk : nat.
Variable file : text.

Hypothesis chunk_positive : (0 < chunk)%nat.

Lemma encode_chunk_run data : forall success length format w,
  encode_chunk c99 counted (Some file) data (success, length, format) w
  = Ret (count_chunk counted (fault w) (ops w) data success length,
         format_after c99 format data)
        (after_chunk c99 file w format data (source w)).
Proof.
  induction data as [|b data IH]; intros success length format w.
  - simpl. unfold ret, after_chunk. simpl. destruct w; simpl.
    f_equal. apply world_eq; auto.
  - simpl. unfold bind at 1. unfold fprintf, on_stream.
    unfold bind at 1. unfold output_op at 1. unfold ret at 1.
    rewrite printf_result_sign.
    destruct counted as [LONG_MAX|]; rewrite IH; simpl;
      (f_equal; [now destruct data|]);
      unfold after_chunk; simpl; apply world_eq; auto; try lia;
      now rewrite <- app_assoc.
Qed.

(** One iteration of the outer loop over a full chunk. *)
Lemma encode_loop_full fuel w bytes length format :
  source w = unread bytes -> (chunk <= List.length bytes)%nat ->
  encode_loop c99 counted chunk (Some file) (S fuel) (true, length, format) w
  = encode_loop c99 counted chunk (Some file) fuel
      (count_chunk counted (fault w) (ops w) (firstn chunk bytes) true length,
       next_format c99)
      (after_chunk c99 file w format (firstn chunk bytes)
         (unread (skipn chunk bytes))).
Proof.
  intros Hsrc Hfull.
  assert (Hlen : List.length (firstn chunk bytes) = chunk)
    by (rewrite length_firstn; lia).
  cbn [encode_loop]. unfold bind at 1. unfold fread at 1.
  rewrite Hsrc. cbn [pending finish eof_indicator error_indicator unread].
  rewrite Hlen, Nat.ltb_irrefl. cbn [andb orb].
  destruct (Nat.ltb_spec chunk 1) as [H1|H1]; [lia|].
  unfold bind at 1. unfold ret at 1. unfold bind at 1.
  rewrite encode_chunk_run. unfold bind at 1. unfold feof at 1.
  cbn [source after_chunk eof_indicator].
  destruct (firstn chunk bytes) as [|b data] eqn:E; [simpl in Hlen; lia|].
  cbn [format_after].
  destruct (count_chunk counted (fault w) (ops w) (b :: data) true length)
    eqn:Ec.
  unfold after_chunk. cbn [fault ops heap log]. rewrite ?Ec. reflexivity.
Qed.

(** The iteration that meets the end of the file. *)
Lemma encode_loop_short fuel w bytes length format :
  source w = unread bytes -> (List.length bytes < chunk)%nat ->
  encode_loop c99 counted chunk (Some file) (S fuel) (true, length, format) w
  = Ret (count_chunk counted (fault w) (ops w) bytes true length,
         format_after c99 format bytes)
        (after_chunk c99 file w format bytes drained).
Proof.
  intros Hsrc Hshort.
  assert (Hall : firstn chunk bytes = bytes) by (apply firstn_all2; lia).
  assert (Hnone : skipn chunk bytes = []) by (apply skipn_all2; lia).
  cbn [encode_loop]. unfold bind at 1. unfold fread at 1.
  rewrite Hsrc. cbn [pending finish eof_indicator error_indicator unread].
  rewrite Hall, Hnone.
  destruct (Nat.ltb_spec (List.length bytes) chunk) as [_|H]; [|lia].
  cbn [andb orb].
  unfold bind at 1.
  assert (Hferr : forall w0 : world,
             error_indicator (source w0) = false ->
             (if (List.length bytes <? 1)%nat then ferror else ret false) w0
             = Ret false w0).
  { intros w0 H0. destruct (List.length bytes <? 1)%nat; [|reflexivity].
    unfold ferror. now rewrite H0. }
  rewrite Hferr by reflexivity.
  unfold bind at 1. rewrite encode_chunk_run.
  unfold bind at 1. unfold feof at 1.
  cbn [source after_chunk eof_indicator]. unfold ret.
  unfold after_chunk. cbn [fault ops heap log source]. reflexivity.
Qed.

(** The loop on a stream none of whose bytes fails. *)
Lemma encode_loop_clean fuel : forall bytes w length format,
  source w = unread bytes -> (List.length bytes < fuel)%nat -> 0 <= length ->
  (forall j, (j < List.length bytes)%nat -> bad counted w length j = false) ->
  encode_loop c99 counted chunk (Some file) fuel (true, length, format) w
  = Ret (true, count_after counted length (List.length bytes),
         format_after c99 format bytes)
        (after_chunk c99 file w format bytes drained).
Proof.
  induction fuel as [|fuel IH]; intros bytes w length format Hsrc Hfuel H0 Hclean;
    [lia|].
  destruct (Nat.lt_ge_cases (List.length bytes) chunk) as [Hshort|Hfull].
  - rewrite (encode_loop_short _ _ bytes) by assumption.
    rewrite count_chunk_clean by assumption. reflexivity.
  - rewrite (encode_loop_full _ _ bytes) by assumption.
    assert (Hlen : List.length (firstn chunk bytes) = chunk)
      by (rewrite length_firstn; lia).
    rewrite count_chunk_clean; [|assumption|].
    2:{ intros j Hj. apply Hclean. lia. }
    rewrite (IH (skipn chunk bytes)).
    + assert (Hfmt : next_format c99
                     = format_after c99 format (firstn chunk bytes)).
      { destruct (firstn chunk bytes); [simpl in Hlen; lia|reflexivity]. }
      assert (Hcount : count_after counted
                         (count_after counted length
                            (List.length (firstn chunk bytes)))
                         (List.length (skipn chunk bytes))
                       = count_after counted length (List.length bytes)).
      { unfold count_after. rewrite length_skipn, Hlen.
        destruct counted; lia. }
      assert (Hafter : format_after c99 (next_format c99) (skipn chunk bytes)
                       = format_after c99 format bytes).
      { destruct bytes; [simpl in Hfull; lia|].
        now destruct (skipn chunk (b :: bytes)). }
      rewrite Hcount, Hafter. f_equal.
      rewrite Hfmt, after_chunk_app, firstn_skipn. reflexivity.
    + reflexivity.
    + rewrite length_skipn. lia.
    + unfold count_after. destruct counted; lia.
    + intros j Hj. rewrite length_skipn in Hj.
      rewrite bad_shift. apply Hclean. rewrite Hlen. lia.
Qed.

(** The loop on a stream whose byte [i] is the first to fail: the chunk
    that holds byte [i] is finished and nothing more is read. *)
Lemma encode_loop_bad fuel : forall bytes w length format i,
  source w = unread bytes -> (List.length bytes < fuel)%nat -> 0 <= length ->
  (i < List.length bytes)%nat ->
  bad counted w length i = true ->
  (forall j, (j < i)%nat -> bad counted w length j = false) ->
  exists l f src,
    encode_loop c99 counted chunk (Some file) fuel (true, length, format) w
    = Ret (false, l, f)
          (after_chunk c99 file w format
             (firstn (printed chunk (List.length bytes) i) bytes) src).
Proof.
  induction fuel as [|fuel IH];
    intros bytes w length format i Hsrc Hfuel H0 Hi Hbad Hfirst; [lia|].
  destruct (Nat.lt_ge_cases (List.length bytes) chunk) as [Hshort|Hfull].
  - rewrite (encode_loop_short _ _ bytes) by assumption.
    rewrite printed_first by lia.
    rewrite Nat.min_l by lia. rewrite firstn_all.
    pose proof (count_chunk_bad counted (fault w) bytes (ops w) length true i
                  H0 Hi Hbad Hfirst) as Hc.
    destruct (count_chunk counted (fault w) (ops w) bytes true length)
      as [s l]. simpl in Hc. subst s. eauto.
  - rewrite (encode_loop_full _ _ bytes) by assumption.
    assert (Hlen : List.length (firstn chunk bytes) = chunk)
      by (rewrite length_firstn; lia).
    destruct (Nat.lt_ge_cases i chunk) as [Hin|Hout].
    + rewrite printed_first by lia. rewrite Nat.min_r by lia.
      pose proof (count_chunk_bad counted (fault w) (firstn chunk bytes)
                    (ops w) length true i H0 ltac:(lia) Hbad Hfirst) as Hc.
      destruct (count_chunk counted (fault w) (ops w) (firstn chunk bytes)
                  true length) as [s l]. simpl in Hc. subst s.
      exists l, (next_format c99), (unread (skipn chunk bytes)).
      destruct fuel; reflexivity.
    + rewrite count_chunk_clean; [|assumption|].
      2:{ intros j Hj. apply Hfirst. lia. }
      destruct (IH (skipn chunk bytes)
                  (after_chunk c99 file w format (firstn chunk bytes)
                     (unread (skipn chunk bytes)))
                  (count_after counted length
                     (List.length (firstn chunk bytes)))
                  (next_format c99)
                  (i - chunk)%nat) as [l [f [src Hrun]]].
      * reflexivity.
      * rewrite length_skipn. lia.
      * unfold count_after. destruct counted; lia.
      * rewrite length_skipn. lia.
      * rewrite bad_shift, Hlen.
        replace (chunk + (i - chunk))%nat with i by lia. exact Hbad.
      * intros j Hj. rewrite bad_shift, Hlen. apply Hfirst. lia.
      * exists l, f, src. rewrite Hrun.
        assert (Hfmt : next_format c99
                       = format_after c99 format (firstn chunk bytes)).
        { destruct (firstn chunk bytes); [simpl in Hlen; lia|reflexivity]. }
        rewrite Hfmt. rewrite after_chunk_app.
        rewrite length_skipn, <- firstn_plus.
        rewrite <- printed_step by lia. reflexivity.
Qed.

(** The whole block, in the three cases. *)
Lemma encode_no_buffer w :
  heap w (Z.of_nat chunk) = false ->
  encode c99 counted chunk (Some file) w = Ret (false, 0) w.
Proof.
  intros Hheap. unfold encode, bind, malloc. rewrite Hheap. reflexivity.
Qed.

Lemma encode_clean w bytes :
  source w = unread bytes -> heap w (Z.of_nat chunk) = true ->
  (forall j, (j < List.length bytes)%nat -> bad counted w 0 j = false) ->
  encode c99 counted chunk (Some file) w
  = Ret (true, count_after counted 0 (List.length bytes))
        (after_chunk c99 file w (first_format c99) bytes drained).
Proof.
  intros Hsrc Hheap Hclean. unfold encode, bind, malloc. rewrite Hheap.
  rewrite (encode_loop_clean _ bytes); auto; try lia.
  rewrite Hsrc. simpl. lia.
Qed.

Lemma encode_bad w bytes i :
  source w = unread bytes -> heap w (Z.of_nat chunk) = true ->
  (i < List.length bytes)%nat ->
  bad counted w 0 i = true ->
  (forall j, (j < i)%nat -> bad counted w 0 j = false) ->
  exists l src,
    encode c99 counted chunk (Some file) w
    = Ret (false, l)
          (after_chunk c99 file w (first_format c99)
             (firstn (printed chunk (List.length bytes) i) bytes) src).
Proof.
  intros Hsrc Hheap Hi Hbad Hfirst. unfold encode, bind, malloc.
  rewrite Hheap.
  destruct (encode_loop_bad (S (List.length (pending (source w)))) bytes w 0
              (first_format c99) i) as [l [f [src Hrun]]]; auto; try lia.
  { rewrite Hsrc. simpl. lia. }
  rewrite Hrun. eauto.
Qed.

(** The same runs, with what is left of the input: the bytes after the
    chunk that holds byte [i] have not been read. *)
Lemma encode_loop_bad_unread fuel : forall bytes w length format i,
  source w = unread bytes -> (List.length bytes < fuel)%nat -> 0 <= length ->
  (i < List.length bytes)%nat ->
  bad counted w length i = true ->
  (forall j, (j < i)%nat -> bad counted w length j = false) ->
  exists l f src,
    encode_loop c99 counted chunk (Some file) fuel (true, length, format) w
    = Ret (false, l, f)
          (after_chunk c99 file w format
             (firstn (printed chunk (List.length bytes) i) bytes) src)
    /\ pending src = skipn (printed chunk (List.length bytes) i) bytes.
Proof.
  induction fuel as [|fuel IH];
    intros bytes w length format i Hsrc Hfuel H0 Hi Hbad Hfirst; [lia|].
  destruct (Nat.lt_ge_cases (List.length bytes) chunk) as [Hshort|Hfull].
  - rewrite (encode_loop_short _ _ bytes) by assumption.
    rewrite printed_first by lia.
    rewrite Nat.min_l by lia. rewrite firstn_all, skipn_all.
    pose proof (count_chunk_bad counted (fault w) bytes (ops w) length true i
                  H0 Hi Hbad Hfirst) as Hc.
    destruct (count_chunk counted (fault w) (ops w) bytes true length)
      as [s l]. simpl in Hc. subst s. eauto.
  - rewrite (encode_loop_full _ _ bytes) by assumption.
    assert (Hlen : List.length (firstn chunk bytes) = chunk)
      by (rewrite length_firstn; lia).
    destruct (Nat.lt_ge_cases i chunk) as [Hin|Hout].
    + rewrite printed_first by lia. rewrite Nat.min_r by lia.
      pose proof (count_chunk_bad counted (fault w) (firstn chunk bytes)
                    (ops w) length true i H0 ltac:(lia) Hbad Hfirst) as Hc.
      destruct (count_chunk counted (fault w) (ops w) (firstn chunk bytes)
                  true length) as [s l]. simpl in Hc. subst s.
      exists l, (next_format c99), (unread (skipn chunk bytes)).
      split; [destruct fuel; reflexivity|reflexivity].
    + rewrite count_chunk_clean; [|assumption|].
      2:{ intros j Hj. apply Hfirst. lia. }
      destruct (IH (skipn chunk bytes)
                  (after_chunk c99 file w format (firstn chunk bytes)
                     (unread (skipn chunk bytes)))
                  (count_after counted length
                     (List.length (firstn chunk bytes)))
                  (next_format c99)
                  (i - chunk)%nat) as [l [f [src [Hrun Hleft]]]].
      * reflexivity.
      * rewrite length_skipn. lia.
      * unfold count_after. destruct counted; lia.
      * rewrite length_skipn. lia.
      * rewrite bad_shift, Hlen.
        replace (chunk + (i - chunk))%nat with i by lia. exact Hbad.
      * intros j Hj. rewrite bad_shift, Hlen. apply Hfirst. lia.
      * exists l, f, src. rewrite Hrun.
        assert (Hfmt : next_format c99
                       = format_after c99 format (firstn chunk bytes)).
        { destruct (firstn chunk bytes); [simpl in Hlen; lia|reflexivity]. }
        rewrite Hfmt. rewrite after_chunk_app.
        rewrite length_skipn in *. rewrite <- firstn_plus.
        rewrite <- printed_step by lia. split; [reflexivity|].
        rewrite Hleft, skipn_skipn. f_equal.
        rewrite (printed_step chunk (List.length bytes) i) by lia. lia.
Qed.

Lemma encode_bad_unread w bytes i :
  source w = unread bytes -> heap w (Z.of_nat chunk) = true ->
  (i < List.length bytes)%nat ->
  bad counted w 0 i = true ->
  (forall j, (j < i)%nat -> bad counted w 0 j = false) ->
  exists l src,
    encode c99 counted chunk (Some file) w
    = Ret (false, l)
          (after_chunk c99 file w (first_format c99)
             (firstn (printed chunk (List.length bytes) i) bytes) src)
    /\ pending src = skipn (printed chunk (List.length bytes) i) bytes.
Proof.
  intros Hsrc Hheap Hi Hbad Hfirst. unfold encode, bind, malloc.
  rewrite Hheap.
  destruct (encode_loop_bad_unread (S (List.length (pending (source w))))
              bytes w 0 (first_format c99) i)
    as [l [f [src [Hrun Hleft]]]]; auto; try lia.
  { rewrite Hsrc. simpl. lia. }
  rewrite Hrun. eauto.
Qed.

(** A run that reports success has met no failing byte. *)
Lemma encode_success w bytes n w' :
  source w = unread bytes ->
  encode c99 counted chunk (Some file) w = Ret (true, n) w' ->
  heap w (Z.of_nat chunk) = true
  /\ (forall j, (j < List.length bytes)%nat -> bad counted w 0 j = false)
  /\ n = count_after counted 0 (List.length bytes)
  /\ w' = after_chunk c99 file w (first_format c99) bytes drained.
Proof.
  intros Hsrc Hrun.
  destruct (heap w (Z.of_nat chunk)) eqn:Hheap.
  2:{ rewrite encode_no_buffer in Hrun by assumption. discriminate. }
  destruct (first_bad (bad counted w 0) (List.length bytes))
    as [Hclean|[i [Hi [Hbad Hfirst]]]].
  - rewrite (encode_clean w bytes) in Hrun by assumption.
    injection Hrun as <- <-. auto.
  - destruct (encode_bad w bytes i) as [l [src Hfail]]; auto.
    rewrite Hfail in Hrun. discriminate.
Qed.

End EncoderProofs.

(** ** The loop ends *)

Lemma encode_chunk_ends c99 counted outfile data : forall state w,
  match encode_chunk c99 counted outfile data state w with
  | Ret _ w' => source w' = source w
  | Undefined _ => True
  | Forever _ => False
  end.
Proof.
  induction data as [|b data IH]; intros [[success length] format] w.
  - reflexivity.
  - cbn [encode_chunk]. unfold bind at 1.
    destruct outfile as [name|]; [|exact I].
    unfold fprintf, on_stream, bind at 1, output_op at 1, ret at 1.
    destruct counted as [LONG_MAX|];
      match goal with
      | |- context [encode_chunk _ _ _ data ?s ?w1] =>
          specialize (IH s w1);
          destruct (encode_chunk c99 _ (Some name) data s w1)
      end; auto.
Qed.

Lemma encode_loop_ends c99 counted chunk outfile fuel : forall state w,
  (0 < chunk)%nat -> (length (pending (source w)) < fuel)%nat ->
  ends (encode_loop c99 counted chunk outfile fuel state w).
Proof.
  induction fuel as [|fuel IH]; intros [[success count] format] w Hchunk Hfuel;
    [lia|].
  cbn [encode_loop]. destruct success; [|exact I].
  unfold bind at 1, fread at 1.
  set (f := source w) in *.
  set (got := firstn chunk (pending f)).
  set (w1 := {| source := _; fault := fault w; ops := ops w;
                heap := heap w; log := log w |}).
  unfold bind at 1.
  assert (Hrest : (length (pending (source w1)) <= length (pending f))%nat).
  { subst w1. cbn [source pending]. rewrite length_skipn. lia. }
  destruct (Nat.ltb_spec (length got) 1) as [Hnone|Hsome].
  - (* nothing was read: the stream is at its end, one way or the other *)
    assert (Hshort : (length got <? chunk)%nat = true)
      by (apply Nat.ltb_lt; lia).
    unfold ferror at 1.
    destruct (error_indicator (source w1)) eqn:Herr.
    + unfold bind at 1, ret at 1, bind at 1, feof at 1.
      destruct (eof_indicator (source w1)); [exact I|].
      destruct fuel; exact I.
    + unfold bind at 1.
      pose proof (encode_chunk_ends c99 counted outfile got
                    (true, count, format) w1) as Hc.
      destruct (encode_chunk c99 counted outfile got (true, count, format) w1)
        as [state2 w2| |]; [|exact I|contradiction].
      unfold bind at 1, feof at 1. rewrite Hc.
      subst w1. cbn [source eof_indicator error_indicator] in *.
      rewrite Hshort in *. cbn [andb] in *.
      destruct (finish f).
      * rewrite orb_true_r. exact I.
      * rewrite orb_true_r in Herr. discriminate.
  - unfold ret at 1, bind at 1.
    pose proof (encode_chunk_ends c99 counted outfile got
                  (true, count, format) w1) as Hc.
    destruct (encode_chunk c99 counted outfile got (true, count, format) w1)
      as [state2 w2| |]; [|exact I|contradiction].
    unfold bind at 1, feof at 1.
    destruct (eof_indicator (source w2)); [exact I|].
    apply IH; [assumption|]. rewrite Hc.
    subst w1 got. cbn [source pending]. rewrite length_skipn.
    rewrite length_firstn in Hsome. lia.
Qed.

(** Both encoders return, or stop at a [NULL] stream. *)
Lemma encode_ends c99 counted chunk outfile w :
  (0 < chunk)%nat -> ends (encode c99 counted chunk outfile w).
Proof.
  intros Hchunk. unfold encode, bind at 1, malloc at 1, bind at 1.
  pose proof (encode_loop_ends c99 counted chunk outfile
                (S (length (pending (source w))))
                (heap w (Z.of_nat chunk), 0, first_format c99) w Hchunk
                ltac:(lia)) as H.
  unfold bind at 1.
  destruct (encode_loop c99 counted chunk outfile _ _ w) as [[[s l] f] w'| |];
    [exact I|exact I|contradiction].
Qed.

(** ** What the encoder leaves in the output *)

Lemma history_after_chunk c99 file w format data src :
  history (after_chunk c99 file w format data src)
  = history w ++ chunk_events c99 file (fault w) (ops w) format data.
Proof.
  unfold history, after_chunk. cbn [log].
  now rewrite rev_app_distr, rev_involutive.
Qed.

Lemma written_app file h1 h2 :
  written file (h1 ++ h2) = written file h1 ++ written file h2.
Proof.
  induction h1 as [|e h1 IH]; simpl; [reflexivity|].
  destruct e as [| f chars [] | | |]; auto.
  destruct (list_eq_dec ascii_dec f file); auto.
  now rewrite IH, app_assoc.
Qed.

Lemma writes_app file h1 h2 :
  writes file (h1 ++ h2) = (writes file h1 + writes file h2)%nat.
Proof.
  induction h1 as [|e h1 IH]; simpl; [reflexivity|].
  destruct e as [| f chars [] | | |]; auto.
  destruct (list_eq_dec ascii_dec f file); auto.
  now rewrite IH.
Qed.

Lemma sprintf_first c99 b :
  sprintf (first_format c99) [Int (byte_value b)] = literal b.
Proof. destruct c99, b; vm_compute; reflexivity. Qed.

Lemma sprintf_next c99 b :
  sprintf (next_format c99) [Int (byte_value b)] = str ", " ++ literal b.
Proof. destruct c99, b; vm_compute; reflexivity. Qed.

Lemma join_cons sep x rest :
  join sep (x :: rest) = x ++ concat (map (app sep) rest).
Proof.
  revert x. induction rest as [|y rest IH]; intros x.
  - simpl. now rewrite app_nil_r.
  - change (join sep (x :: y :: rest)) with (x ++ sep ++ join sep (y :: rest)).
    rewrite IH. cbn [map concat]. f_equal. apply app_assoc.
Qed.

Lemma written_next_events c99 file fault data : forall n,
  (forall j, (j < length data)%nat -> fault (n + j)%nat = false) ->
  written file (chunk_events c99 file fault n (next_format c99) data)
  = concat (map (app (str ", ")) (map literal data)).
Proof.
  induction data as [|b data IH]; intros n Hok; [reflexivity|].
  cbn [chunk_events written map concat].
  pose proof (Hok O ltac:(simpl; lia)) as H0. rewrite Nat.add_0_r in H0.
  rewrite H0. cbn [negb].
  destruct (list_eq_dec ascii_dec file file); [|contradiction].
  rewrite sprintf_next, IH; [reflexivity|].
  intros j Hj. replace (S n + j)%nat with (n + S j)%nat by lia.
  apply Hok. simpl. lia.
Qed.

Lemma written_first_events c99 file fault data n :
  (forall j, (j < length data)%nat -> fault (n + j)%nat = false) ->
  written file (chunk_events c99 file fault n (first_format c99) data)
  = join (str ", ") (map literal data).
Proof.
  destruct data as [|b data]; intros Hok; [reflexivity|].
  cbn [map]. rewrite join_cons.
  cbn [chunk_events written].
  pose proof (Hok O ltac:(simpl; lia)) as H0. rewrite Nat.add_0_r in H0.
  rewrite H0. cbn [negb].
  destruct (list_eq_dec ascii_dec file file); [|contradiction].
  rewrite sprintf_first, written_next_events; [reflexivity|].
  intros j Hj. replace (S n + j)%nat with (n + S j)%nat by lia.
  apply Hok. simpl. lia.
Qed.

Lemma writes_events c99 file fault data : forall n format,
  (forall j, (j < length data)%nat -> fault (n + j)%nat = false) ->
  writes file (chunk_events c99 file fault n format data) = length data.
Proof.
  induction data as [|b data IH]; intros n format Hok; [reflexivity|].
  cbn [chunk_events writes].
  pose proof (Hok O ltac:(simpl; lia)) as H0. rewrite Nat.add_0_r in H0.
  rewrite H0. cbn [negb].
  destruct (list_eq_dec ascii_dec file file); [|contradiction].
  rewrite IH; [reflexivity|].
  intros j Hj. replace (S n + j)%nat with (n + S j)%nat by lia.
  apply Hok. simpl. lia.
Qed.

Lemma chunk_size_positive intel : (0 < Z.to_nat (MAIN_CHUNKSIZE intel))%nat.
Proof. destruct intel; unfold MAIN_CHUNKSIZE; lia. Qed.

Lemma chunk_size_request intel :
  Z.of_nat (Z.to_nat (MAIN_CHUNKSIZE intel)) = MAIN_CHUNKSIZE intel.
Proof. destruct intel; unfold MAIN_CHUNKSIZE; lia. Qed.

Lemma encoders_end c99 intel LONG_MAX outfile w :
  ends (bin2c_encode c99 intel LONG_MAX outfile w)
  /\ ends (bin2h_encode intel outfile w).
Proof.
  split; apply encode_ends, chunk_size_positive.
Qed.

Lemma bad_faults counted w length j :
  bad counted w length j = false -> fault w (ops w + j) = false.
Proof. unfold bad, bad_at. now intros [H _]%orb_false_iff. Qed.

(** A successful run of either encoder, described. *)
Lemma encode_succeeds_inv c99 counted chunk file w bytes :
  (0 < chunk)%nat -> source w = unread bytes ->
  succeeds (encode c99 counted chunk (Some file) w) = true ->
  encode c99 counted chunk (Some file) w
  = Ret (true, count_after counted 0 (length bytes))
        (after_chunk c99 file w (first_format c99) bytes drained)
  /\ (forall j, (j < length bytes)%nat -> bad counted w 0 j = false).
Proof.
  intros Hchunk Hsrc Hok.
  destruct (encode c99 counted chunk (Some file) w) as [[[] n] w'| |] eqn:E;
    try discriminate.
  destruct (encode_success c99 counted chunk file Hchunk w bytes n w' Hsrc E)
    as [_ [Hclean [-> ->]]].
  auto.
Qed.


(** ** Reading the payload back *)

Lemma read_payload_literal b rest :
  read_payload (literal b ++ rest) None = byte_value b :: read_payload rest None.
Proof. destruct b; reflexivity. Qed.

Lemma read_payload_separator rest :
  read_payload (str ", " ++ rest) None = read_payload rest None.
Proof. reflexivity. Qed.

Lemma read_payload_join bytes :
  read_payload (join (str ", ") (map literal bytes)) None
  = map byte_value bytes.
Proof.
  destruct bytes as [|b bytes]; [reflexivity|].
  cbn [map]. rewrite join_cons, read_payload_literal. f_equal.
  induction bytes as [|b' bytes IH]; [reflexivity|].
  cbn [map concat]. rewrite <- app_assoc, read_payload_separator.
  rewrite read_payload_literal. now rewrite IH.
Qed.

(** * The claims *)

(** ** Paths *)

(** C7, amended.  For a path that ends within the bound, cut into its
    directories, the stem of its file name and its last extension:
    [main_findname] points at the file name, just after the last delimiter
    (at the whole path when there is none); [main_shortenname] leaves the
    stem; and, when the full stop of the extension is not the first
    character of the path and the kept part with a two-character extension
    and the terminator fits the bound, the output path is the kept part with
    the new extension. *)
Theorem path_derivation windows heap dir stem tail :
  well_split windows dir stem tail = true ->
  strlen (dir ++ stem ++ tail) + 1 <= USHRT_MAX ->
  let path := dir ++ stem ++ tail in
  let keep := Z.of_nat (length (dir ++ stem)) in
  string_at path (main_findname windows path) = stem ++ tail
  /\ string_at (fst (main_shortenname windows path))
               (snd (main_shortenname windows path)) = stem
  /\ ((tail <> [] -> dir ++ stem <> []) ->
      keep + 2 + 1 <= USHRT_MAX ->
      heap (keep + 2 + 1) = true ->
      main_constructoutname windows heap path = Some (dir ++ stem ++ str ".h")
      /\ output_path windows heap path "h" = Some (dir ++ stem ++ str ".h")
      /\ output_path windows heap path "c" = Some (dir ++ stem ++ str ".c")).
Proof.
  intros Hs Hlen path keep.
  pose proof (well_split_facts windows dir stem tail Hs)
    as [[Hn1 [Hn2 Hn3]] [_ [_ Ht]]].
  assert (Hclean : ~ In NUL path)
    by (subst path; rewrite !in_app_iff; tauto).
  rewrite strlen_clean in Hlen by assumption.
  split; [|split].
  - subst path. rewrite main_findname_split by (auto; lia).
    apply string_at_app. rewrite in_app_iff. tauto.
  - subst path. rewrite main_shortenname_split by assumption.
    cbn [fst snd]. destruct tail as [|c ext].
    + now apply string_at_app.
    + unfold string_at. rewrite Nat2Z.id, skipn_length_app.
      now apply cstring_cut.
  - intros Hdot Hfit Hheap.
    assert (Hkeep : ~ In NUL (dir ++ stem)) by (rewrite in_app_iff; tauto).
    unfold output_path, main_constructoutname, main_constructoutpath.
    subst path keep. rewrite !constructout_split by (auto; lia).
    rewrite Hheap.
    destruct (Z.leb_spec (Z.of_nat (length (dir ++ stem)) + 2 + 1) USHRT_MAX);
      [|lia].
    cbn [andb]. rewrite !app_assoc.
    rewrite !set_extension_last by (auto; discriminate).
    rewrite <- !app_assoc. auto.
Qed.

Lemma path_derivation_witness :
  (string_at (str "a/b/c.bin") (main_findname false (str "a/b/c.bin"))
   = str "c.bin"
   /\ string_at (fst (main_shortenname false (str "a/b/c.bin")))
                (snd (main_shortenname false (str "a/b/c.bin"))) = str "c"
   /\ main_constructoutname false roomy (str "a/b/c.bin")
      = Some (str "a/b/c.h")
   /\ output_path false roomy (str "a/b/c.bin") "h" = Some (str "a/b/c.h"))
  /\ (string_at (str "c") (main_findname false (str "c")) = str "c"
      /\ main_constructoutname false roomy (str "c") = Some (str "c.h")
      /\ output_path false roomy (str "c") "h" = Some (str "c.h")).
Proof.
  split.
  - destruct (path_derivation false roomy (str "a/b/") (str "c") (str ".bin")
                eq_refl ltac:(vm_compute; discriminate)) as [H1 [H2 H3]].
    destruct H3 as [H3 [H4 _]];
      [discriminate|vm_compute; discriminate|reflexivity|].
    repeat split; assumption.
  - destruct (path_derivation false roomy [] (str "c") []
                eq_refl ltac:(vm_compute; discriminate)) as [H1 [_ H3]].
    destruct H3 as [H3 [H4 _]];
      [congruence|vm_compute; discriminate|reflexivity|].
    repeat split; assumption.
Defined.

(** C7 as claimed fails: a path of 65533 characters without extension ends
    within the bound, and no output path is derived from it. *)
Lemma path_derivation_counterexample :
  ~ (forall windows heap path,
       (forall n, heap n = true) ->
       well_split windows [] path [] = true ->
       strlen path + 1 <= USHRT_MAX ->
       main_constructoutname windows heap path = Some (path ++ str ".h")).
Proof.
  intros H.
  specialize (H false roomy (repeat "a"%char (Z.to_nat 65533))
                (fun _ => eq_refl)).
  assert (Hnone : main_constructoutname false roomy
                    (repeat "a"%char (Z.to_nat 65533)) = None)
    by (vm_compute; reflexivity).
  rewrite Hnone in H.
  assert (Some (repeat "a"%char (Z.to_nat 65533) ++ str ".h") = None)
    by (symmetry; apply H; vm_compute; [reflexivity|discriminate]).
  discriminate.
Qed.

(** C8, amended.  For a path cut as above whose extension, if it has one,
    does not start the path: when the path ends within the bound,
    construction succeeds exactly when the kept part, the two-character
    extension and the terminator fit the 65535 characters; a path of more
    than 65536 characters, terminator included, is refused; and the scan
    reads no character past the terminator or past the bound. *)
Theorem constructoutpath_boundary windows heap dir stem tail :
  well_split windows dir stem tail = true ->
  (tail <> [] -> dir ++ stem <> []) ->
  heap (Z.of_nat (length (dir ++ stem)) + 2 + 1) = true ->
  let path := dir ++ stem ++ tail in
  let keep := Z.of_nat (length (dir ++ stem)) in
  (strlen path + 1 <= USHRT_MAX ->
   (main_constructoutpath windows heap path <> None
    <-> keep + 2 + 1 <= USHRT_MAX))
  /\ (USHRT_MAX + 1 < strlen path + 1 ->
      main_constructoutpath windows heap path = None)
  /\ constructout_reads windows path <= Z.min (strlen path) USHRT_MAX + 1.
Proof.
  intros Hs Hdot Hheap path keep.
  split; [|split].
  - intros Hlen.
    pose proof (well_split_facts windows dir stem tail Hs)
      as [[Hn1 [Hn2 Hn3]] _].
    rewrite strlen_clean in Hlen
      by (subst path; rewrite !in_app_iff; tauto).
    unfold main_constructoutpath. subst path keep.
    rewrite constructout_split by (auto; lia).
    rewrite Hheap.
    destruct (Z.leb_spec (Z.of_nat (length (dir ++ stem)) + 2 + 1) USHRT_MAX);
      cbn [andb]; split; intros; try lia; try congruence.
  - intros Hlong. apply constructout_long. lia.
  - apply constructout_reads_bound.
Qed.

Lemma constructoutpath_boundary_witness :
  let path := repeat "a"%char (Z.to_nat 65532) in
  main_constructoutpath false roomy path <> None
  /\ constructout_reads false path <= 65533.
Proof.
  destruct (constructoutpath_boundary false roomy []
              (repeat "a"%char (Z.to_nat 65532)) []
              ltac:(vm_compute; reflexivity)
              ltac:(intros H; now elim H) eq_refl)
    as [H1 [_ H3]].
  split.
  - apply H1; vm_compute; discriminate.
  - etransitivity; [exact H3|]. vm_compute. discriminate.
Defined.

(** C8 as claimed fails: a path of 65535 characters, terminator included,
    that has no extension is refused. *)
Lemma constructoutpath_boundary_counterexample :
  ~ (forall windows heap path,
       (forall n, heap n = true) ->
       ~ In NUL path ->
       strlen path + 1 = USHRT_MAX ->
       main_constructoutpath windows heap path <> None).
Proof.
  intros H.
  apply (H false roomy (repeat "a"%char (Z.to_nat 65534))
           (fun _ => eq_refl)).
  - intros Hin. apply repeat_spec in Hin. discriminate.
  - vm_compute. reflexivity.
  - vm_compute. reflexivity.
Qed.

(** ** Macro names *)

(** C6.  When the allocation is granted, the macro builder returns the
    three parts concatenated and passed through [toupper], and fails exactly
    when their length and the terminator exceed 65535 characters; [toupper]
    turns each lower-case letter into its capital and leaves every other
    character alone. *)
Theorem constructmacro_builds heap prefix core suffix :
  let parts := opt_string prefix ++ cstring core ++ opt_string suffix in
  let total := Z.of_nat (length parts) in
  heap (total + 1) = true ->
  main_runbin2c_constructmacro heap prefix core suffix
  = (if total + 1 <=? USHRT_MAX then Some (map toupper parts) else None)
  /\ (forall i, (i < 26)%nat ->
        toupper (nth i lower_case NUL) = nth i upper_case NUL)
  /\ (forall c, ~ In c lower_case -> toupper c = c).
Proof.
  intros parts total Hheap. split; [|split].
  - rewrite constructmacro_characterised. subst total parts.
    rewrite Hheap. now rewrite andb_true_r.
  - apply toupper_letters.
  - apply toupper_others.
Qed.

Lemma constructmacro_builds_witness :
  main_runbin2c_constructmacro roomy (Some (str "s_")) (str "data")
    (Some (str "_len")) = Some (str "S_DATA_LEN")
  /\ main_runbin2c_constructmacro roomy None (str "data") None
     = Some (str "DATA").
Proof.
  split.
  - exact (proj1 (constructmacro_builds roomy (Some (str "s_")) (str "data")
                    (Some (str "_len")) eq_refl)).
  - exact (proj1 (constructmacro_builds roomy None (str "data") None eq_refl)).
Defined.

(** ** The size macro *)

(** C3, amended.  The value of the size macro is the element count in
    decimal (followed by [l] in the widest tier), and its tier is the
    smallest one the build has whose range holds the count: 8-bit signed
    (C99 builds only), 16-bit signed, 32-bit signed, or [long]. *)
Theorem size_macro_tier c99 LONG_MAX count :
  0 <= count <= LONG_MAX ->
  let m := size_macro_width c99 count in
  size_macro_value c99 count = str "  " ++ decimal count ++ tier_suffix m
  /\ read_decimal (decimal count) = Some count
  /\ tier_built c99 m = true
  /\ count <= tier_max LONG_MAX m
  /\ (forall m', tier_built c99 m' = true -> count <= tier_max LONG_MAX m' ->
        tier_rank m <= tier_rank m').
Proof.
  intros H m. split; [|split].
  - apply size_macro_value_text. lia.
  - apply read_decimal_decimal.
  - apply size_macro_width_least. assumption.
Qed.

Lemma size_macro_tier_witness :
  (size_macro_value true 200 = str "  200"
   /\ size_macro_width true 200 = mod_h)
  /\ (size_macro_value true 5 = str "  5"
      /\ size_macro_width true 5 = mod_hh).
Proof.
  split.
  - destruct (size_macro_tier true 9223372036854775807 200 ltac:(lia))
      as [H1 _].
    split; [exact H1|reflexivity].
  - destruct (size_macro_tier true 9223372036854775807 5 ltac:(lia))
      as [H1 _].
    split; [exact H1|reflexivity].
Defined.

(** C3 as claimed fails: a build before C99 has no 8-bit tier, and prints a
    count of 5 in the 16-bit one. *)
Lemma size_macro_tier_counterexample :
  ~ (forall c99 LONG_MAX count,
       0 <= count <= LONG_MAX ->
       forall m', count <= tier_max LONG_MAX m' ->
                  tier_rank (size_macro_width c99 count) <= tier_rank m').
Proof.
  intros H.
  specialize (H false 2147483647 5 ltac:(lia) mod_hh
                ltac:(vm_compute; discriminate)).
  vm_compute in H. apply H. reflexivity.
Qed.

(** ** The encoder *)

(** C1, amended.  When the encoder reports success on a stream of bytes, the
    text it has added to the output is the literals of the bytes in input
    order, joined by [", "]; the literal of a byte is [0x], its value in
    upper-case hexadecimal without padding (one digit below 16, two from 16
    on), and [u]. *)
Theorem payload_joins_literals c99 intel LONG_MAX file bytes w :
  source w = unread bytes ->
  (succeeds (bin2c_encode c99 intel LONG_MAX (Some file) w) = true ->
   written file (history (final (bin2c_encode c99 intel LONG_MAX (Some file) w)))
   = written file (history w) ++ join (str ", ") (map literal bytes))
  /\ (succeeds (bin2h_encode intel (Some file) w) = true ->
      written file (history (final (bin2h_encode intel (Some file) w)))
      = written file (history w) ++ join (str ", ") (map literal bytes)).
Proof.
  intros Hsrc. unfold bin2c_encode, bin2h_encode.
  split; intros Hok;
    apply (encode_succeeds_inv _ _ _ _ _ bytes (chunk_size_positive intel) Hsrc)
      in Hok as [-> Hclean];
    cbn [final]; rewrite history_after_chunk, written_app; f_equal;
    (rewrite written_first_events; [reflexivity|]);
    intros j Hj; eapply bad_faults; apply Hclean; exact Hj.
Qed.

Lemma payload_joins_literals_witness :
  written (str "c.c")
    (history (final (bin2c_encode true true 2147483647 (Some (str "c.c"))
                       (fresh [x01; x0a; xff] EndOfFile sound))))
  = str "0x1u, 0xAu, 0xFFu"
  /\ written (str "c.h")
       (history (final (bin2h_encode false (Some (str "c.h"))
                          (fresh [x01; x0a; xff] EndOfFile sound))))
     = str "0x1u, 0xAu, 0xFFu".
Proof.
  split.
  - exact (proj1 (payload_joins_literals true true 2147483647 (str "c.c")
                    [x01; x0a; xff] (fresh [x01; x0a; xff] EndOfFile sound)
                    eq_refl) eq_refl).
  - exact (proj2 (payload_joins_literals false false 0 (str "c.h")
                    [x01; x0a; xff] (fresh [x01; x0a; xff] EndOfFile sound)
                    eq_refl) eq_refl).
Defined.

(** C1 as claimed fails: byte 5 is printed as [0x5u], not [0x05u]. *)
Lemma payload_joins_literals_counterexample :
  ~ (forall c99 intel LONG_MAX file bytes w,
       source w = unread bytes ->
       succeeds (bin2c_encode c99 intel LONG_MAX (Some file) w) = true ->
       written file
         (history (final (bin2c_encode c99 intel LONG_MAX (Some file) w)))
       = written file (history w)
         ++ join (str ", ") (map padded_literal bytes)).
Proof.
  intros H.
  specialize (H true true 2147483647 (str "c.c") [x05]
                (fresh [x05] EndOfFile sound) eq_refl eq_refl).
  vm_compute in H. discriminate.
Qed.

(** C2.  When the input is read to its end and the encoder reports success,
    the text it has added to the output holds as many literals as the input
    has bytes, each written by a call of its own, and, in bin2c, the element
    count is that number too; and the encoder does report success when no
    write fails, the buffer is granted and, in bin2c, the number of bytes is
    within [LONG_MAX]. *)
Theorem element_count_is_length c99 intel LONG_MAX file bytes w :
  source w = unread bytes ->
  (succeeds (bin2c_encode c99 intel LONG_MAX (Some file) w) = true ->
   outcome (bin2c_encode c99 intel LONG_MAX (Some file) w)
   = Some (true, Z.of_nat (length bytes))
   /\ writes file (history (final (bin2c_encode c99 intel LONG_MAX (Some file) w)))
      = (writes file (history w) + length bytes)%nat
   /\ elements
        (skipn (length (written file (history w)))
           (written file
              (history (final (bin2c_encode c99 intel LONG_MAX (Some file) w)))))
      = length bytes)
  /\ (succeeds (bin2h_encode intel (Some file) w) = true ->
      writes file (history (final (bin2h_encode intel (Some file) w)))
      = (writes file (history w) + length bytes)%nat
      /\ elements
           (skipn (length (written file (history w)))
              (written file
                 (history (final (bin2h_encode intel (Some file) w)))))
         = length bytes)
  /\ ((forall n, fault w n = false) ->
      heap w (MAIN_CHUNKSIZE intel) = true ->
      (Z.of_nat (length bytes) <= LONG_MAX ->
       succeeds (bin2c_encode c99 intel LONG_MAX (Some file) w) = true)
      /\ succeeds (bin2h_encode intel (Some file) w) = true).
Proof.
  intros Hsrc. unfold bin2c_encode, bin2h_encode.
  assert (Htext : forall c counted,
            (forall j, (j < length bytes)%nat -> bad counted w 0 j = false) ->
            elements
              (skipn (length (written file (history w)))
                 (written file
                    (history (after_chunk c file w (first_format c) bytes
                                drained))))
            = length bytes).
  { intros c counted Hclean.
    rewrite history_after_chunk, written_app, skipn_length_app.
    rewrite written_first_events.
    - unfold elements. rewrite read_payload_join. apply length_map.
    - intros j Hj. eapply bad_faults. apply Hclean. exact Hj. }
  split; [|split].
  1,2: intros Hok;
    apply (encode_succeeds_inv _ _ _ _ _ bytes (chunk_size_positive intel) Hsrc)
      in Hok as [-> Hclean];
    cbn [final outcome count_after]; rewrite ?Z.add_0_l;
    repeat split; try reflexivity; try (eapply Htext; exact Hclean);
    rewrite history_after_chunk, writes_app; f_equal;
    apply writes_events; intros j Hj; eapply bad_faults; apply Hclean;
    exact Hj.
  intros Hsound Hheap. rewrite <- chunk_size_request in Hheap.
  split; [intros Hlen|].
  - rewrite (encode_clean c99 (Some LONG_MAX) _ file
               (chunk_size_positive intel) w bytes); auto.
    intros j Hj. unfold bad, bad_at. rewrite Hsound. cbn [orb].
    apply Z.leb_gt. lia.
  - rewrite (encode_clean false None _ file
               (chunk_size_positive intel) w bytes); auto.
    intros j Hj. unfold bad, bad_at. now rewrite Hsound.
Qed.

Lemma element_count_is_length_witness :
  outcome (bin2c_encode true true 2147483647 (Some (str "c.c"))
             (fresh [x01; x0a; xff] EndOfFile sound)) = Some (true, 3)
  /\ writes (str "c.c")
       (history (final (bin2c_encode true true 2147483647 (Some (str "c.c"))
                          (fresh [x01; x0a; xff] EndOfFile sound)))) = 3%nat
  /\ elements
       (written (str "c.c")
          (history (final (bin2c_encode true true 2147483647 (Some (str "c.c"))
                             (fresh [x01; x0a; xff] EndOfFile sound)))))
     = 3%nat.
Proof.
  exact (proj1 (element_count_is_length true true 2147483647 (str "c.c")
                  [x01; x0a; xff] (fresh [x01; x0a; xff] EndOfFile sound)
                  eq_refl) eq_refl).
Defined.

(** C4, amended.  When the write for byte [i] is the first to fail (and, in
    bin2c, the count has not reached [LONG_MAX] before byte [i]), the
    encoder reports failure; it has still attempted the writes for the
    bytes left in the chunk that holds byte [i], and has attempted none for
    the bytes of later chunks, which it has not read: they are what is left
    in the input. *)
Theorem failed_write_ends_after_chunk c99 intel LONG_MAX file bytes w i :
  source w = unread bytes ->
  heap w (MAIN_CHUNKSIZE intel) = true ->
  (i < length bytes)%nat ->
  fault w (ops w + i) = true ->
  (forall j, (j < i)%nat -> fault w (ops w + j) = false) ->
  let stop := printed (Z.to_nat (MAIN_CHUNKSIZE intel)) (length bytes) i in
  (Z.of_nat i <= LONG_MAX ->
   fails (bin2c_encode c99 intel LONG_MAX (Some file) w) = true
   /\ history (final (bin2c_encode c99 intel LONG_MAX (Some file) w))
      = history w
        ++ chunk_events c99 file (fault w) (ops w) (first_format c99)
             (firstn stop bytes)
   /\ pending (source (final (bin2c_encode c99 intel LONG_MAX (Some file) w)))
      = skipn stop bytes)
  /\ (fails (bin2h_encode intel (Some file) w) = true
      /\ history (final (bin2h_encode intel (Some file) w))
         = history w
           ++ chunk_events false file (fault w) (ops w) (first_format false)
                (firstn stop bytes)
      /\ pending (source (final (bin2h_encode intel (Some file) w)))
         = skipn stop bytes).
Proof.
  intros Hsrc Hheap Hi Hfault Hfirst stop.
  rewrite <- chunk_size_request in Hheap.
  unfold bin2c_encode, bin2h_encode. split; [intros Hrange|].
  - destruct (encode_bad_unread c99 (Some LONG_MAX) _ file
                (chunk_size_positive intel) w bytes i)
      as [l [src [-> Hleft]]]; auto.
    + unfold bad, bad_at. now rewrite Hfault.
    + intros j Hj. unfold bad, bad_at. rewrite (Hfirst j Hj). cbn [orb].
      apply Z.leb_gt. lia.
    + cbn [fails final]. rewrite history_after_chunk. auto.
  - destruct (encode_bad_unread false None _ file
                (chunk_size_positive intel) w bytes i)
      as [l [src [-> Hleft]]]; auto.
    + unfold bad, bad_at. now rewrite Hfault.
    + intros j Hj. unfold bad, bad_at. now rewrite (Hfirst j Hj).
    + cbn [fails final]. rewrite history_after_chunk. auto.
Qed.

Lemma failed_write_ends_after_chunk_witness :
  let bytes := repeat x01 4097 in
  let w := fresh bytes EndOfFile (failing 0) in
  fails (bin2h_encode false (Some (str "c.h")) w) = true
  /\ history (final (bin2h_encode false (Some (str "c.h")) w))
     = chunk_events false (str "c.h") (failing 0) 0 (first_format false)
         (repeat x01 4096)
  /\ pending (source (final (bin2h_encode false (Some (str "c.h")) w)))
     = [x01].
Proof.
  exact (proj2 (failed_write_ends_after_chunk false false 0 (str "c.h")
                  (repeat x01 4097)
                  (fresh (repeat x01 4097) EndOfFile (failing 0)) 0
                  eq_refl eq_refl ltac:(vm_compute; lia) eq_refl
                  ltac:(intros j Hj; lia))).
Defined.

(** C4 as claimed fails: the literal of the second byte is written after
    the write for the first byte has failed. *)
Lemma failed_write_ends_after_chunk_counterexample :
  ~ (forall c99 intel LONG_MAX file bytes w i,
       source w = unread bytes ->
       heap w (MAIN_CHUNKSIZE intel) = true ->
       (i < length bytes)%nat ->
       fault w (ops w + i) = true ->
       (forall j, (j < i)%nat -> fault w (ops w + j) = false) ->
       history (final (bin2c_encode c99 intel LONG_MAX (Some file) w))
       = history w
         ++ chunk_events c99 file (fault w) (ops w) (first_format c99)
              (firstn (S i) bytes)).
Proof.
  intros H.
  specialize (H true true 2147483647 (str "c.c") [x01; x02]
                (fresh [x01; x02] EndOfFile (failing 0)) O
                eq_refl eq_refl ltac:(simpl; lia) eq_refl
                ltac:(intros j Hj; lia)).
  vm_compute in H. discriminate.
Qed.

(** C5.  On an input that is read to its end, with no failing write and a
    buffer granted: when the number of bytes is within [LONG_MAX] the
    encoder of bin2c succeeds and its count is that number, one per byte;
    when it is beyond [LONG_MAX] (which is not negative) the encoder reports
    failure. *)
Theorem count_overflow_fails c99 intel LONG_MAX file bytes w :
  source w = unread bytes ->
  (forall n, fault w n = false) ->
  heap w (MAIN_CHUNKSIZE intel) = true ->
  (Z.of_nat (length bytes) <= LONG_MAX ->
   outcome (bin2c_encode c99 intel LONG_MAX (Some file) w)
   = Some (true, Z.of_nat (length bytes)))
  /\ (0 <= LONG_MAX < Z.of_nat (length bytes) ->
      fails (bin2c_encode c99 intel LONG_MAX (Some file) w) = true).
Proof.
  intros Hsrc Hsound Hheap. rewrite <- chunk_size_request in Hheap.
  unfold bin2c_encode. split; intros Hlen.
  - rewrite (encode_clean c99 (Some LONG_MAX) _ file
               (chunk_size_positive intel) w bytes); auto.
    intros j Hj. unfold bad, bad_at. rewrite Hsound. cbn [orb].
    apply Z.leb_gt. lia.
  - destruct (encode_bad c99 (Some LONG_MAX) _ file
                (chunk_size_positive intel) w bytes (Z.to_nat LONG_MAX))
      as [l [src ->]]; auto.
    + lia.
    + unfold bad, bad_at. rewrite Hsound. cbn [orb]. apply Z.leb_le. lia.
    + intros j Hj. unfold bad, bad_at. rewrite Hsound. cbn [orb].
      apply Z.leb_gt. lia.
Qed.

Lemma count_overflow_fails_witness :
  outcome (bin2c_encode true true 2147483647 (Some (str "c.c"))
             (fresh [x01; x0a; xff] EndOfFile sound)) = Some (true, 3)
  /\ fails (bin2c_encode true true 2 (Some (str "c.c"))
              (fresh [x01; x0a; xff] EndOfFile sound)) = true.
Proof.
  split.
  - exact (proj1 (count_overflow_fails true true 2147483647 (str "c.c")
                    [x01; x0a; xff] (fresh [x01; x0a; xff] EndOfFile sound)
                    eq_refl (fun _ => eq_refl) eq_refl)
                 ltac:(simpl; lia)).
  - exact (proj2 (count_overflow_fails true true 2 (str "c.c")
                    [x01; x0a; xff] (fresh [x01; x0a; xff] EndOfFile sound)
                    eq_refl (fun _ => eq_refl) eq_refl)
                 ltac:(simpl; lia)).
Defined.

(** C10.  On an input that is read to its end, with no failing write and a
    buffer granted, the encoder of bin2h succeeds whatever the number of
    bytes, and keeps no count: the count it returns is still 0.  On the
    inputs longer than a [LONG_MAX], where the encoder of bin2c fails, it
    succeeds all the same. *)
Theorem bin2h_has_no_count intel file bytes w :
  source w = unread bytes ->
  (forall n, fault w n = false) ->
  heap w (MAIN_CHUNKSIZE intel) = true ->
  outcome (bin2h_encode intel (Some file) w) = Some (true, 0)
  /\ forall c99 LONG_MAX,
       0 <= LONG_MAX < Z.of_nat (length bytes) ->
       succeeds (bin2h_encode intel (Some file) w) = true
       /\ fails (bin2c_encode c99 intel LONG_MAX (Some file) w) = true.
Proof.
  intros Hsrc Hsound Hheap. rewrite <- chunk_size_request in Hheap.
  unfold bin2c_encode, bin2h_encode.
  assert (Hh : encode false None (Z.to_nat (MAIN_CHUNKSIZE intel))
                 (Some file) w
               = Ret (true, 0)
                     (after_chunk false file w (first_format false) bytes
                        drained)).
  { rewrite (encode_clean false None _ file (chunk_size_positive intel)
               w bytes); auto.
    intros j Hj. unfold bad, bad_at. now rewrite Hsound. }
  rewrite Hh. split; [reflexivity|].
  intros c99 LONG_MAX Hlen. split; [reflexivity|].
  destruct (encode_bad c99 (Some LONG_MAX) _ file
              (chunk_size_positive intel) w bytes (Z.to_nat LONG_MAX))
    as [l [src ->]]; auto.
  - lia.
  - unfold bad, bad_at. rewrite Hsound. cbn [orb]. apply Z.leb_le. lia.
  - intros j Hj. unfold bad, bad_at. rewrite Hsound. cbn [orb].
    apply Z.leb_gt. lia.
Qed.

Lemma bin2h_has_no_count_witness :
  outcome (bin2h_encode true (Some (str "c.h"))
             (fresh [x01; x0a; xff] EndOfFile sound)) = Some (true, 0)
  /\ fails (bin2c_encode true true 2 (Some (str "c.h"))
              (fresh [x01; x0a; xff] EndOfFile sound)) = true.
Proof.
  destruct (bin2h_has_no_count true (str "c.h") [x01; x0a; xff]
              (fresh [x01; x0a; xff] EndOfFile sound)
              eq_refl (fun _ => eq_refl) eq_refl) as [H1 H2].
  split; [exact H1|].
  exact (proj2 (H2 true 2 ltac:(simpl; lia))).
Defined.

(** ** The two files of the global shape *)

(** C9 fails on the code.  With [-g], when one write of what precedes the
    bytes in the definition file fails (here the [#include] line, or the
    symbol) and every other operation succeeds, [main_runbin2c] goes on to
    open the header file and reports success.  When the failure is in the
    bytes, in the closing brace, or in flushing or closing the file, the
    header file is not opened. *)
Theorem header_opened_after_failed_write :
  let run k :=
    main_runbin2c true true 2147483647 (str "c") (Some (str "s_")) None
      (Some (str "_len")) (str "a/b/c. ")
      (fresh [x01; x0a; xff] EndOfFile (failing k)) in
  (nth 1 (history (final (run 1%nat))) (Complained [])
   = Wrote (str "a/b/c.c")
       (str "#include " ++ [dquote] ++ str "c.h" ++ [dquote; newline; newline])
       false
   /\ opened (str "a/b/c.h") (history (final (run 1%nat))) = true
   /\ outcome (run 1%nat) = Some true)
  /\ (nth 4 (history (final (run 4%nat))) (Complained [])
      = Wrote (str "a/b/c.c") (str "c") false
      /\ opened (str "a/b/c.h") (history (final (run 4%nat))) = true
      /\ outcome (run 4%nat) = Some true)
  /\ forallb (fun k => negb (opened (str "a/b/c.h") (history (final (run k))))
                       && match outcome (run k) with
                          | Some false => true
                          | _ => false
                          end)
       (seq 6 6) = true.
Proof. vm_compute. repeat split; reflexivity. Qed.

(** * Further properties *)

(** ** The encoder on a stream that ends by a read error *)

Lemma encode_loop_read_error c99 counted chunk outfile fuel :
  forall state w st w',
  finish (source w) = ReadError -> eof_indicator (source w) = false ->
  encode_loop c99 counted chunk outfile fuel state w = Ret st w' ->
  fst (fst st) = false.
Proof.
  induction fuel as [|fuel IH]; intros [[success count] format] w st w' Hfin Heof;
    cbn [encode_loop]; destruct success;
    try (intros [= <- <-]; reflexivity); try discriminate.
  unfold bind at 1, fread at 1.
  set (w1 := {| source := _; fault := fault w; ops := ops w;
                heap := heap w; log := log w |}).
  assert (Hfin1 : finish (source w1) = ReadError) by exact Hfin.
  assert (Heof1 : eof_indicator (source w1) = false).
  { subst w1. cbn [source eof_indicator]. rewrite Heof, Hfin.
    now rewrite andb_false_r. }
  clearbody w1.
  unfold bind at 1.
  set (failed := (if (List.length (firstn chunk (pending (source w))) <? 1)%nat
                  then ferror else ret false) w1).
  assert (Hfailed : exists b, failed = Ret b w1).
  { subst failed. destruct (_ <? 1)%nat; unfold ferror, ret; eauto. }
  destruct Hfailed as [b ->].
  unfold bind at 1.
  set (run := (if (if b then false else true)
               then encode_chunk c99 counted outfile
                      (firstn chunk (pending (source w)))
                      (if b then false else true, count, format)
               else ret (if b then false else true, count, format)) w1).
  assert (Hrun : match run with
                 | Ret _ w2 => source w2 = source w1
                 | Undefined _ => True
                 | Forever _ => False
                 end).
  { subst run. destruct b; [reflexivity|]. apply encode_chunk_ends. }
  destruct run as [state2 w2| |]; try discriminate.
  unfold bind at 1, feof at 1. rewrite Hrun, Heof1.
  apply IH; congruence.
Qed.

(** X1.  On an input stream that ends by a read error, neither encoder
    reports success, whatever the output stream does and whether the buffer
    is granted or not. *)
Theorem read_error_never_succeeds c99 intel LONG_MAX outfile w :
  finish (source w) = ReadError ->
  eof_indicator (source w) = false ->
  succeeds (bin2c_encode c99 intel LONG_MAX outfile w) = false
  /\ succeeds (bin2h_encode intel outfile w) = false.
Proof.
  intros Hfin Heof.
  assert (H : forall c counted,
             succeeds (encode c counted (Z.to_nat (MAIN_CHUNKSIZE intel))
                         outfile w) = false).
  { intros c counted. unfold encode, bind, malloc.
    match goal with
    | |- context [encode_loop ?a ?b ?k ?o ?fu ?st ?w0] =>
        destruct (encode_loop a b k o fu st w0) as [[[s l] f] w'| |] eqn:E
    end; try reflexivity.
    apply encode_loop_read_error in E; auto.
    cbn in E. subst s. reflexivity. }
  split; apply H.
Qed.

Lemma read_error_never_succeeds_witness :
  succeeds (bin2c_encode true true 2147483647 (Some (str "c.c"))
              (fresh [x01; x02] ReadError sound)) = false
  /\ succeeds (bin2h_encode true (Some (str "c.h"))
                 (fresh [x01; x02] ReadError sound)) = false.
Proof.
  exact (read_error_never_succeeds true true 2147483647 (Some (str "c.c"))
           (fresh [x01; x02] ReadError sound) eq_refl eq_refl).
Defined.

Section BrokenStreams.

Variable c99 : bool.
Variable counted : option Z.
Variable chunk : nat.
Variable file : text.

Hypothesis chunk_positive : (0 < chunk)%nat.

Lemma encode_loop_breaking_full fuel w bytes count format :
  source w = breaking bytes -> (chunk <= List.length bytes)%nat ->
  encode_loop c99 counted chunk (Some file) (S fuel) (true, count, format) w
  = encode_loop c99 counted chunk (Some file) fuel
      (count_chunk counted (fault w) (ops w) (firstn chunk bytes) true count,
       next_format c99)
      (after_chunk c99 file w format (firstn chunk bytes)
         (breaking (skipn chunk bytes))).
Proof.
  intros Hsrc Hfull.
  assert (Hlen : List.length (firstn chunk bytes) = chunk)
    by (rewrite length_firstn; lia).
  cbn [encode_loop]. unfold bind at 1. unfold fread at 1.
  rewrite Hsrc. cbn [pending finish eof_indicator error_indicator breaking].
  rewrite Hlen, Nat.ltb_irrefl. cbn [andb orb].
  destruct (Nat.ltb_spec chunk 1) as [H1|H1]; [lia|].
  unfold bind at 1. unfold ret at 1. unfold bind at 1.
  rewrite encode_chunk_run. unfold bind at 1. unfold feof at 1.
  cbn [source after_chunk eof_indicator].
  destruct (firstn chunk bytes) as [|b data] eqn:E; [simpl in Hlen; lia|].
  cbn [format_after]. reflexivity.
Qed.

(** The last iterations: what is left is read, printed, and the next read
    finds the error. *)
Lemma encode_loop_breaking_short fuel w bytes count format :
  source w = breaking bytes -> (List.length bytes < chunk)%nat ->
  (List.length bytes < fuel)%nat ->
  fst (count_chunk counted (fault w) (ops w) bytes true count) = true ->
  exists f,
    encode_loop c99 counted chunk (Some file) fuel (true, count, format) w
    = Ret (false, snd (count_chunk counted (fault w) (ops w) bytes true count),
           f)
          (after_chunk c99 file w format bytes broken).
Proof.
  intros Hsrc Hshort Hfuel Hok.
  assert (Hall : firstn chunk bytes = bytes) by (apply firstn_all2; lia).
  assert (Hnone : skipn chunk bytes = []) by (apply skipn_all2; lia).
  destruct fuel as [|fuel]; [lia|].
  cbn [encode_loop]. unfold bind at 1. unfold fread at 1.
  rewrite Hsrc. cbn [pending finish eof_indicator error_indicator breaking].
  rewrite Hall, Hnone.
  destruct (Nat.ltb_spec (List.length bytes) chunk) as [_|H]; [|lia].
  cbn [andb orb].
  unfold bind at 1.
  destruct bytes as [|b bytes].
  - (* nothing left: the read fails at once *)
    cbn [List.length Nat.ltb Nat.leb]. unfold ferror at 1.
    cbn [source error_indicator]. unfold bind at 1, ret at 1.
    unfold bind at 1, feof at 1. cbn [source eof_indicator].
    exists format.
    destruct fuel; cbn [encode_loop count_chunk snd]; unfold ret, after_chunk;
      cbn [chunk_events rev app List.length source fault ops heap log];
      f_equal; apply world_eq; auto.
  - cbn [List.length] in Hfuel. destruct fuel as [|fuel]; [lia|].
    cbn [List.length Nat.ltb Nat.leb]. unfold ret at 1.
    unfold bind at 1. rewrite encode_chunk_run.
    destruct (count_chunk counted _ _ (b :: bytes) true count) as [s l] eqn:Ec.
    cbn [fst] in Hok. subst s.
    unfold bind at 1, feof at 1. cbn [source after_chunk eof_indicator].
    cbn [format_after].
    (* second iteration *)
    cbn [encode_loop]. unfold bind at 1, fread at 1.
    cbn [source pending finish eof_indicator error_indicator].
    rewrite firstn_nil, skipn_nil. cbn [List.length].
    destruct (Nat.ltb_spec 0 chunk) as [_|H]; [|lia].
    cbn [andb orb]. unfold bind at 1.
    cbn [Nat.ltb Nat.leb]. unfold ferror at 1.
    cbn [source error_indicator]. unfold bind at 1, ret at 1.
    unfold bind at 1, feof at 1. cbn [source eof_indicator].
    exists (next_format c99). cbn [snd].
    destruct fuel; cbn [encode_loop]; unfold ret, after_chunk;
      cbn [source fault ops heap log]; reflexivity.
Qed.

Lemma encode_loop_breaking_clean fuel : forall bytes w count format,
  source w = breaking bytes -> (List.length bytes < fuel)%nat -> 0 <= count ->
  (forall j, (j < List.length bytes)%nat -> bad counted w count j = false) ->
  exists f,
    encode_loop c99 counted chunk (Some file) fuel (true, count, format) w
    = Ret (false, count_after counted count (List.length bytes), f)
          (after_chunk c99 file w format bytes broken).
Proof.
  induction fuel as [|fuel IH]; intros bytes w count format Hsrc Hfuel H0 Hclean;
    [lia|].
  destruct (Nat.lt_ge_cases (List.length bytes) chunk) as [Hshort|Hfull].
  - destruct (encode_loop_breaking_short (S fuel) w bytes count format
                Hsrc Hshort Hfuel) as [f ->].
    + now rewrite count_chunk_clean.
    + rewrite count_chunk_clean by assumption. eauto.
  - rewrite (encode_loop_breaking_full _ _ bytes) by assumption.
    assert (Hlen : List.length (firstn chunk bytes) = chunk)
      by (rewrite length_firstn; lia).
    rewrite count_chunk_clean; [|assumption|].
    2:{ intros j Hj. apply Hclean. lia. }
    destruct (IH (skipn chunk bytes)
                (after_chunk c99 file w format (firstn chunk bytes)
                   (breaking (skipn chunk bytes)))
                (count_after counted count (List.length (firstn chunk bytes)))
                (next_format c99)) as [f Hrun].
    + reflexivity.
    + rewrite length_skipn. lia.
    + unfold count_after. destruct counted; lia.
    + intros j Hj. rewrite length_skipn in Hj.
      rewrite bad_shift. apply Hclean. rewrite Hlen. lia.
    + exists f. rewrite Hrun.
      assert (Hfmt : next_format c99
                     = format_after c99 format (firstn chunk bytes)).
      { destruct (firstn chunk bytes); [simpl in Hlen; lia|reflexivity]. }
      assert (Hcount : count_after counted
                         (count_after counted count
                            (List.length (firstn chunk bytes)))
                         (List.length (skipn chunk bytes))
                       = count_after counted count (List.length bytes)).
      { unfold count_after. rewrite length_skipn, Hlen.
        destruct counted; lia. }
      rewrite Hcount. f_equal.
      rewrite Hfmt, after_chunk_app, firstn_skipn. reflexivity.
Qed.

Lemma encode_breaking_clean w bytes :
  source w = breaking bytes -> heap w (Z.of_nat chunk) = true ->
  (forall j, (j < List.length bytes)%nat -> bad counted w 0 j = false) ->
  encode c99 counted chunk (Some file) w
  = Ret (false, count_after counted 0 (List.length bytes))
        (after_chunk c99 file w (first_format c99) bytes broken).
Proof.
  intros Hsrc Hheap Hclean. unfold encode, bind at 1, malloc at 1.
  rewrite Hheap. unfold bind at 1.
  destruct (encode_loop_breaking_clean (S (List.length (pending (source w))))
              bytes w 0 (first_format c99)) as [f Hrun]; auto; try lia.
  { rewrite Hsrc. cbn. lia. }
  unfold bind at 1. rewrite Hrun. reflexivity.
Qed.

End BrokenStreams.

(** X2.  On an input stream that ends by a read error after some bytes, when
    no write fails and the buffer is granted (and, in bin2c, the number of
    bytes is within [LONG_MAX]), the literals of all the bytes read before
    the error are in the output, and the encoder reports failure. *)
Theorem read_error_keeps_bytes c99 intel LONG_MAX file bytes w :
  source w = breaking bytes ->
  (forall n, fault w n = false) ->
  heap w (MAIN_CHUNKSIZE intel) = true ->
  (Z.of_nat (length bytes) <= LONG_MAX ->
   fails (bin2c_encode c99 intel LONG_MAX (Some file) w) = true
   /\ written file
        (history (final (bin2c_encode c99 intel LONG_MAX (Some file) w)))
      = written file (history w) ++ join (str ", ") (map literal bytes))
  /\ (fails (bin2h_encode intel (Some file) w) = true
      /\ written file (history (final (bin2h_encode intel (Some file) w)))
         = written file (history w) ++ join (str ", ") (map literal bytes)).
Proof.
  intros Hsrc Hsound Hheap. rewrite <- chunk_size_request in Hheap.
  unfold bin2c_encode, bin2h_encode. split; [intros Hlen|].
  - rewrite (encode_breaking_clean c99 (Some LONG_MAX) _ file
               (chunk_size_positive intel) w bytes); auto.
    + cbn [fails final]. split; [reflexivity|].
      rewrite history_after_chunk, written_app. f_equal.
      apply written_first_events. intros j Hj. apply Hsound.
    + intros j Hj. unfold bad, bad_at. rewrite Hsound. cbn [orb].
      apply Z.leb_gt. lia.
  - rewrite (encode_breaking_clean false None _ file
               (chunk_size_positive intel) w bytes); auto.
    + cbn [fails final]. split; [reflexivity|].
      rewrite history_after_chunk, written_app. f_equal.
      apply written_first_events. intros j Hj. apply Hsound.
    + intros j Hj. unfold bad, bad_at. now rewrite Hsound.
Qed.

Lemma read_error_keeps_bytes_witness :
  fails (bin2c_encode true true 2147483647 (Some (str "c.c"))
           (fresh [x01; x02] ReadError sound)) = true
  /\ written (str "c.c")
       (history (final (bin2c_encode true true 2147483647 (Some (str "c.c"))
                          (fresh [x01; x02] ReadError sound))))
     = str "0x1u, 0x2u".
Proof.
  exact (proj1 (read_error_keeps_bytes true true 2147483647 (str "c.c")
                  [x01; x02] (fresh [x01; x02] ReadError sound)
                  eq_refl (fun _ => eq_refl) eq_refl) ltac:(simpl; lia)).
Defined.

(** X3.  Round trip: when an encoder reports success, reading back the
    hexadecimal literals of the text it has added to the output gives the
    values of the bytes of the input, in order. *)
Theorem payload_round_trip c99 intel LONG_MAX file bytes w :
  source w = unread bytes ->
  (succeeds (bin2c_encode c99 intel LONG_MAX (Some file) w) = true ->
   read_payload
     (skipn (length (written file (history w)))
        (written file
           (history (final (bin2c_encode c99 intel LONG_MAX (Some file) w)))))
     None
   = map byte_value bytes)
  /\ (succeeds (bin2h_encode intel (Some file) w) = true ->
      read_payload
        (skipn (length (written file (history w)))
           (written file (history (final (bin2h_encode intel (Some file) w)))))
        None
      = map byte_value bytes).
Proof.
  intros Hsrc. unfold bin2c_encode, bin2h_encode.
  split; intros Hok;
    apply (encode_succeeds_inv _ _ _ _ _ bytes (chunk_size_positive intel) Hsrc)
      in Hok as [-> Hclean];
    cbn [final]; rewrite history_after_chunk, written_app;
    rewrite skipn_length_app;
    (rewrite written_first_events; [apply read_payload_join|]);
    intros j Hj; eapply bad_faults; apply Hclean; exact Hj.
Qed.

Lemma payload_round_trip_witness :
  read_payload
    (skipn (length (written (str "c.c")
                      (history (fresh [x00; x0a; xff] EndOfFile sound))))
       (written (str "c.c")
          (history (final (bin2c_encode true true 2147483647
                             (Some (str "c.c"))
                             (fresh [x00; x0a; xff] EndOfFile sound))))))
    None
  = [0; 10; 255].
Proof.
  exact (proj1 (payload_round_trip true true 2147483647 (str "c.c")
                  [x00; x0a; xff] (fresh [x00; x0a; xff] EndOfFile sound)
                  eq_refl) eq_refl).
Defined.

(** ** Writing the name of the array *)

Lemma history_logged e w : history (logged e w) = history w ++ [e].
Proof. reflexivity. Qed.

(** X4.  [main_runbin2c_outputsymbol] attempts the write of every part of
    the name, prefix, symbol and suffix in this order, whether earlier
    writes fail or not, and returns true exactly when all of them
    succeed. *)
Theorem outputsymbol_writes_all prefix symbol suffix file w :
  let events :=
    part_events file (fault w) (ops w) (symbol_parts prefix symbol suffix) in
  outcome (main_runbin2c_outputsymbol prefix symbol suffix (Some file) w)
  = Some (forallb event_ok events)
  /\ history (final (main_runbin2c_outputsymbol prefix symbol suffix
                       (Some file) w))
     = history w ++ events.
Proof.
  destruct prefix as [p|], suffix as [s|]; cbn;
    unfold history; cbn; rewrite ?andb_true_r, <- ?app_assoc;
    split; try reflexivity;
    repeat match goal with
    | |- context [if ?b then _ else _] => destruct b
    end; reflexivity.
Qed.

(** ** The files of a run without failure *)

Lemma bind_ret {A B} (m : M A) (k : A -> M B) w a w' :
  m w = Ret a w' -> bind m k w = k a w'.
Proof. intros H. unfold bind. now rewrite H. Qed.

Lemma bind_bind {A B C} (m : M A) (f : A -> M B) (k : B -> M C) w :
  bind (bind m f) k w = bind m (fun a => bind (f a) k) w.
Proof. unfold bind. now destruct (m w). Qed.

Lemma fputs_ok s file w : fault w (ops w) = false ->
  fputs s (Some file) w = Ret 1 (logged (Wrote file (cstring s) true) w).
Proof.
  intros H. unfold fputs, on_stream, bind, output_op, ret. now rewrite H.
Qed.

Lemma fprintf_ok file format args w : fault w (ops w) = false ->
  fprintf (Some file) format args w
  = Ret (Z.of_nat (length (sprintf format args)))
        (logged (Wrote file (sprintf format args) true) w).
Proof.
  intros H. unfold fprintf, on_stream, bind, output_op, ret. now rewrite H.
Qed.

Lemma fflush_ok file w : fault w (ops w) = false ->
  fflush (Some file) w = Ret 0 (logged (Flushed file true) w).
Proof.
  intros H. unfold fflush, on_stream, bind, output_op, ret. now rewrite H.
Qed.

Lemma fclose_ok file w : fault w (ops w) = false ->
  fclose (Some file) w = Ret 0 (logged (Closed file true) w).
Proof.
  intros H. unfold fclose, on_stream, bind, output_op, ret. now rewrite H.
Qed.

Lemma fopen_ok path w : fault w (ops w) = false ->
  fopen path w
  = Ret (Some (cstring path)) (logged (Opened (cstring path) true) w).
Proof.
  intros H. unfold fopen, bind, output_op, ret. now rewrite H.
Qed.

Lemma written_logged_wrote file chars w :
  written file (history (logged (Wrote file chars true) w))
  = written file (history w) ++ chars.
Proof.
  rewrite history_logged, written_app. cbn [written].
  destruct (list_eq_dec ascii_dec file file); [|contradiction].
  now rewrite app_nil_r.
Qed.

Lemma written_logged_other file e w :
  match e with Wrote f _ true => f <> file | _ => True end ->
  written file (history (logged e w)) = written file (history w).
Proof.
  intros H. rewrite history_logged, written_app.
  destruct e as [| f chars [] | | |]; cbn [written]; rewrite ?app_nil_r; auto.
  destruct (list_eq_dec ascii_dec f file); [contradiction|].
  now rewrite app_nil_r.
Qed.

Lemma written_after_chunk c99 file w bytes src :
  (forall n, fault w n = false) ->
  written file (history (after_chunk c99 file w (first_format c99) bytes src))
  = written file (history w) ++ join (str ", ") (map literal bytes).
Proof.
  intros H. rewrite history_after_chunk, written_app. f_equal.
  apply written_first_events. intros j Hj. apply H.
Qed.

Lemma written_after_chunk_other c99 f file w format bytes src :
  f <> file ->
  written file (history (after_chunk c99 f w format bytes src))
  = written file (history w).
Proof.
  intros Hne. rewrite history_after_chunk, written_app.
  rewrite <- (app_nil_r (written file (history w))) at 2. f_equal.
  generalize (ops w). revert format.
  induction bytes as [|b bytes IH]; intros format n; [reflexivity|].
  cbn [chunk_events written].
  destruct (negb (fault w n)); [|apply IH].
  destruct (list_eq_dec ascii_dec f file); [contradiction|apply IH].
Qed.

Lemma of_nat_geb n : (Z.of_nat n >=? 0) = true.
Proof. apply Z.geb_le. lia. Qed.

(** One step of a run in which no output operation fails. *)
Ltac run Hf :=
  rewrite ?bind_bind;
  erewrite bind_ret;
  [| lazymatch goal with
     | |- fputs _ _ _ = _ => apply fputs_ok; apply Hf
     | |- fprintf _ _ _ _ = _ => apply fprintf_ok; apply Hf
     | |- fflush _ _ = _ => apply fflush_ok; apply Hf
     | |- fclose _ _ = _ => apply fclose_ok; apply Hf
     | |- fopen _ _ = _ => apply fopen_ok; apply Hf
     | |- ret _ _ = _ => reflexivity
     | |- (fun _ => Ret _ _) _ = _ => reflexivity
     | |- Ret _ _ = _ => reflexivity
     end];
  cbn [int_of_bool];
  change (1 >=? 0) with true; change (0 >=? 0) with true;
  rewrite ?of_nat_geb; cbn [andb].

Lemma lifecycle_logged e w :
  lifecycle (history (logged e w))
  = lifecycle (history w)
    ++ match e with Wrote _ _ _ => [] | _ => [e] end.
Proof.
  rewrite history_logged. unfold lifecycle. rewrite filter_app.
  now destruct e.
Qed.

Lemma lifecycle_after_chunk c99 file w format bytes src :
  lifecycle (history (after_chunk c99 file w format bytes src))
  = lifecycle (history w).
Proof.
  rewrite history_after_chunk. unfold lifecycle. rewrite filter_app.
  rewrite <- (app_nil_r (filter _ (history w))) at 2. f_equal.
  generalize (ops w). revert format.
  induction bytes as [|b bytes IH]; intros format n; [reflexivity|].
  cbn [chunk_events filter]. apply IH.
Qed.

Lemma complain_run s w : complain s w = Ret tt (final (complain s w)).
Proof. reflexivity. Qed.

Lemma written_complained file s w :
  written file (history (final (complain s w))) = written file (history w).
Proof.
  cbn [complain final]. unfold history. cbn [log rev].
  rewrite written_app. cbn. now rewrite app_nil_r.
Qed.

Lemma lifecycle_complained s w :
  lifecycle (history (final (complain s w)))
  = lifecycle (history w) ++ [Complained s].
Proof.
  cbn [complain final]. unfold history. cbn [log rev].
  unfold lifecycle. now rewrite filter_app.
Qed.

(** Reading the text of [file] and the stream events off the world a run
    without failure ends in. *)
Ltac read_off Hsound :=
  repeat first
    [ rewrite written_logged_wrote
    | rewrite written_logged_other by (first [exact I | assumption])
    | rewrite written_after_chunk by exact Hsound
    | rewrite written_after_chunk_other by assumption ];
  repeat first [ rewrite lifecycle_logged | rewrite lifecycle_after_chunk ].

Ltac tidy :=
  unfold static_text, definition_text, header_text, array_text, array_name;
  cbn [opt_string]; rewrite ?app_nil_r, <- ?app_assoc; try reflexivity.

(** [main_runbin2h] when nothing fails. *)
Lemma main_runbin2h_clean intel file symbol prefix suffix bytes w :
  source w = unread bytes ->
  (forall n, fault w n = false) ->
  heap w (MAIN_CHUNKSIZE intel) = true ->
  let r := main_runbin2h intel (Some file) symbol prefix suffix w in
  outcome r = Some true
  /\ written file (history (final r))
     = written file (history w)
       ++ static_text (array_name prefix symbol suffix) bytes
  /\ fault (final r) = fault w
  /\ lifecycle (history (final r))
     = lifecycle (history w) ++ [Flushed file true].
Proof.
  intros Hsrc Hsound Hheap r. subst r.
  rewrite <- chunk_size_request in Hheap.
  unfold main_runbin2h, bin2h_encode.
  run Hsound.
  destruct prefix as [p|], suffix as [s|];
    repeat run Hsound.
  all: erewrite bind_ret;
    [| apply (encode_clean false None _ file (chunk_size_positive intel)
                _ bytes);
       [exact Hsrc | exact Hheap
       | intros j Hj; unfold bad, bad_at; cbn; now rewrite Hsound]].
  all: unfold when; cbn [andb]; repeat run Hsound.
  all: unfold ret; cbn [outcome final]; split; [reflexivity|].
  all: split; [|split; [reflexivity|]]; read_off Hsound; tidy.
Qed.

(** X5.  [main_runbin2h], when no operation on the output fails, the buffer
    is granted and the input is read to its end: it returns true, and the
    text it has added to the output is
    [static unsigned char const <prefix><symbol><suffix>[] = { <literals> };]
    and a newline, the literals being joined by [", "] (for an empty input
    the two blanks between the braces are all there is). *)
Theorem bin2h_writes_static_array intel file symbol prefix suffix bytes w :
  source w = unread bytes ->
  (forall n, fault w n = false) ->
  heap w (MAIN_CHUNKSIZE intel) = true ->
  outcome (main_runbin2h intel (Some file) symbol prefix suffix w) = Some true
  /\ written file
       (history (final (main_runbin2h intel (Some file) symbol prefix suffix w)))
     = written file (history w)
       ++ static_text (array_name prefix symbol suffix) bytes.
Proof.
  intros Hsrc Hsound Hheap.
  destruct (main_runbin2h_clean intel file symbol prefix suffix bytes w
              Hsrc Hsound Hheap) as [Hout [Hwritten _]].
  split; assumption.
Qed.

Lemma bin2h_writes_static_array_witness :
  outcome (main_runbin2h true (Some (str "a.h")) (str "a") (Some (str "p_"))
             None (fresh [x00; xff] EndOfFile sound)) = Some true
  /\ written (str "a.h")
       (history (final (main_runbin2h true (Some (str "a.h")) (str "a")
                          (Some (str "p_")) None
                          (fresh [x00; xff] EndOfFile sound))))
     = str "static unsigned char const p_a[] = { 0x0u, 0xFFu };" ++ [newline].
Proof.
  exact (bin2h_writes_static_array true (str "a.h") (str "a") (Some (str "p_"))
           None [x00; xff] (fresh [x00; xff] EndOfFile sound)
           eq_refl (fun _ => eq_refl) eq_refl).
Defined.

Lemma cstring_poke_last c : c <> NUL -> forall outpath base mark,
  cstring outpath = base ++ [mark] ->
  cstring (poke outpath (length base) c) = base ++ [c].
Proof.
  intros Hc. induction outpath as [|x rest IH]; intros base mark H.
  - destruct base; discriminate.
  - cbn [cstring] in H. destruct (x =? NUL)%char eqn:Ex.
    + destruct base; discriminate.
    + destruct base as [|b base]; cbn [length poke cstring app] in *.
      * injection H as _ Hrest. rewrite Hrest.
        destruct (c =? NUL)%char eqn:Ec; [|reflexivity].
        apply Ascii.eqb_eq in Ec. contradiction.
      * injection H as Hx Hrest. rewrite Ex. f_equal; [assumption|].
        now apply (IH base mark).
Qed.

Lemma sprintf_include symbol :
  sprintf (str "#include " ++ [dquote] ++ str "%s.h" ++ [dquote]
             ++ [newline; newline]) [Str symbol]
  = str "#include " ++ [dquote] ++ cstring symbol ++ str ".h"
    ++ [dquote; newline; newline].
Proof. reflexivity. Qed.

Lemma sprintf_guard macro :
  sprintf (str "#if !defined ( __%s_H__ )" ++ [newline; newline]
             ++ str "#define __%s_H__" ++ [newline; newline]
             ++ str "extern unsigned char const ") [Str macro; Str macro]
  = str "#if !defined ( __" ++ cstring macro ++ str "_H__ )"
    ++ [newline; newline] ++ str "#define __" ++ cstring macro ++ str "_H__"
    ++ [newline; newline] ++ str "extern unsigned char const ".
Proof. cbn. rewrite <- ?app_assoc. reflexivity. Qed.

(** [main_runbin2c] without [-g] when nothing fails. *)
Lemma main_runbin2c_static c99 intel LONG_MAX symbol prefix suffix outpath
  base mark bytes w :
  cstring outpath = base ++ [mark] ->
  source w = unread bytes ->
  (forall n, fault w n = false) ->
  heap w (MAIN_CHUNKSIZE intel) = true ->
  Z.of_nat (length bytes) <= LONG_MAX ->
  let file := base ++ ["h"%char] in
  let r := main_runbin2c c99 intel LONG_MAX symbol prefix suffix None outpath w in
  outcome r = Some true
  /\ written file (history (final r))
     = written file (history w)
       ++ static_text (array_name prefix symbol suffix) bytes
  /\ lifecycle (history (final r))
     = lifecycle (history w)
       ++ [Opened file true; Flushed file true; Closed file true].
Proof.
  intros Hpath Hsrc Hsound Hheap Hlen file r. subst r.
  rewrite <- chunk_size_request in Hheap.
  assert (Hoff : strlen outpath - 1 = Z.of_nat (length base)).
  { unfold strlen. rewrite Hpath, length_app. simpl length. lia. }
  assert (Hfile : cstring (poke outpath (length base) "h"%char) = file).
  { apply (cstring_poke_last "h"%char ltac:(discriminate) _ _ mark Hpath). }
  unfold main_runbin2c, main_runbin2c_outputsymbol, bin2c_encode.
  rewrite Hoff, Nat2Z.id.
  replace (strlen outpath >=? 1) with true
    by (symmetry; apply Z.geb_le; lia).
  unfold when.
  run Hsound. rewrite Hfile.
  destruct prefix as [p|], suffix as [s|]; repeat run Hsound.
  all: erewrite bind_ret;
    [| apply (encode_clean c99 (Some LONG_MAX) _ file
                (chunk_size_positive intel) _ bytes);
       [exact Hsrc | exact Hheap
       | intros j Hj; unfold bad, bad_at; cbn; rewrite Hsound;
         apply Z.leb_gt; lia]].
  all: cbn [andb]; repeat run Hsound.
  all: unfold ret; cbn [outcome final]; split; [reflexivity|].
  all: split; read_off Hsound; tidy.
Qed.

(** X6.  [main_runbin2c] without [-g], when [outpath] holds a string of at
    least one character, no operation on the output fails, the buffer is
    granted, the input is read to its end and has at most [LONG_MAX] bytes:
    it returns true; the one file it opens is [outpath] with its last
    character replaced by [h], which it flushes and closes; and the text of
    that file is the [static] definition of the array. *)
Theorem bin2c_static_run c99 intel LONG_MAX symbol prefix suffix outpath
  base mark bytes w :
  cstring outpath = base ++ [mark] ->
  source w = unread bytes ->
  (forall n, fault w n = false) ->
  heap w (MAIN_CHUNKSIZE intel) = true ->
  Z.of_nat (length bytes) <= LONG_MAX ->
  let file := base ++ ["h"%char] in
  let r := main_runbin2c c99 intel LONG_MAX symbol prefix suffix None outpath w in
  outcome r = Some true
  /\ written file (history (final r))
     = written file (history w)
       ++ static_text (array_name prefix symbol suffix) bytes
  /\ lifecycle (history (final r))
     = lifecycle (history w)
       ++ [Opened file true; Flushed file true; Closed file true].
Proof.
  exact (main_runbin2c_static c99 intel LONG_MAX symbol prefix suffix outpath
           base mark bytes w).
Qed.

Lemma bin2c_static_run_witness :
  let r := main_runbin2c true true 2147483647 (str "a") None (Some (str "_v"))
             None (str "out/a. ") (fresh [x41; x0a] EndOfFile sound) in
  outcome r = Some true
  /\ written (str "out/a.h") (history (final r))
     = str "static unsigned char const a_v[] = { 0x41u, 0xAu };" ++ [newline]
  /\ lifecycle (history (final r))
     = [Opened (str "out/a.h") true; Flushed (str "out/a.h") true;
        Closed (str "out/a.h") true].
Proof.
  exact (bin2c_static_run true true 2147483647 (str "a") None (Some (str "_v"))
           (str "out/a. ") (str "out/a.") " "%char [x41; x0a]
           (fresh [x41; x0a] EndOfFile sound)
           eq_refl eq_refl (fun _ => eq_refl) eq_refl
           ltac:(vm_compute; discriminate)).
Defined.

Lemma cstring_no_nul s : ~ In NUL (cstring s).
Proof.
  induction s as [|x s IH]; simpl; [tauto|].
  destruct (Ascii.eqb_spec x NUL) as [->|Hx]; simpl; [tauto|].
  intros [H|H]; [congruence|tauto].
Qed.

Lemma toupper_nul c : toupper c = NUL -> c = NUL.
Proof.
  destruct c as [[] [] [] [] [] [] [] []]; vm_compute; congruence.
Qed.

Lemma constructmacro_clean heap prefix core suffix macro :
  main_runbin2c_constructmacro heap prefix core suffix = Some macro ->
  cstring macro = macro.
Proof.
  rewrite constructmacro_characterised. cbv zeta.
  destruct (_ && _); [|discriminate]. intros [= <-].
  apply cstring_clean. rewrite in_map_iff. intros [c [Hc Hin]].
  apply toupper_nul in Hc. subst c.
  rewrite !in_app_iff in Hin.
  destruct Hin as [H|[H|H]];
    [destruct prefix| |destruct suffix]; cbn [opt_string] in H;
    try (now apply cstring_no_nul in H); contradiction.
Qed.

Lemma poke_differs c d : c <> NUL -> d <> NUL -> c <> d ->
  forall outpath base mark,
  cstring outpath = base ++ [mark] ->
  cstring (poke outpath (length base) c)
  <> cstring (poke outpath (length base) d).
Proof.
  intros Hc Hd Hcd outpath base mark H.
  rewrite (cstring_poke_last c Hc _ _ _ H), (cstring_poke_last d Hd _ _ _ H).
  intros E. apply app_inv_head in E. congruence.
Qed.

Lemma poke_poke c d : forall m i, poke (poke m i c) i d = poke m i d.
Proof.
  induction m as [|x m IH]; intros [|i]; simpl; try reflexivity.
  now rewrite IH.
Qed.

Lemma heap_logged e w : heap (logged e w) = heap w.
Proof. reflexivity. Qed.

Lemma heap_after_chunk c99 file w format bytes src :
  heap (after_chunk c99 file w format bytes src) = heap w.
Proof. reflexivity. Qed.

(** [main_runbin2c] with [-g] when nothing fails. *)
Lemma main_runbin2c_global c99 intel LONG_MAX symbol prefix suffix g outpath
  base mark bytes guard macro w :
  cstring outpath = base ++ [mark] ->
  source w = unread bytes ->
  (forall n, fault w n = false) ->
  heap w (MAIN_CHUNKSIZE intel) = true ->
  Z.of_nat (length bytes) <= LONG_MAX ->
  main_runbin2c_constructmacro (heap w) None symbol None = Some guard ->
  main_runbin2c_constructmacro (heap w) prefix symbol (Some g) = Some macro ->
  let cfile := base ++ ["c"%char] in
  let hfile := base ++ ["h"%char] in
  let name := array_name prefix symbol suffix in
  let r := main_runbin2c c99 intel LONG_MAX symbol prefix suffix (Some g)
             outpath w in
  outcome r = Some true
  /\ written cfile (history (final r))
     = written cfile (history w) ++ definition_text symbol name bytes
  /\ written hfile (history (final r))
     = written hfile (history w)
       ++ header_text guard name macro
            (size_macro_value c99 (Z.of_nat (length bytes)))
  /\ lifecycle (history (final r))
     = lifecycle (history w)
       ++ [Opened cfile true; Flushed cfile true; Closed cfile true;
           Opened hfile true; Flushed hfile true; Closed hfile true].
Proof.
  intros Hpath Hsrc Hsound Hheap Hlen Hguard Hmacro cfile hfile name r.
  subst r name.
  rewrite <- chunk_size_request in Hheap.
  assert (Hoff : strlen outpath - 1 = Z.of_nat (length base)).
  { unfold strlen. rewrite Hpath, length_app. simpl length. lia. }
  assert (Hc : cstring (poke outpath (length base) "c"%char) = cfile).
  { apply (cstring_poke_last "c"%char ltac:(discriminate) _ _ mark Hpath). }
  assert (Hh : cstring (poke outpath (length base) "h"%char) = hfile).
  { apply (cstring_poke_last "h"%char ltac:(discriminate) _ _ mark Hpath). }
  assert (Hch : cfile <> hfile).
  { intros E. apply app_inv_head in E. discriminate. }
  assert (Hhc : hfile <> cfile) by congruence.
  pose proof (constructmacro_clean _ _ _ _ _ Hguard) as Hgc.
  pose proof (constructmacro_clean _ _ _ _ _ Hmacro) as Hmc.
  unfold main_runbin2c, main_runbin2c_outputsymbol, bin2c_encode.
  rewrite Hoff, Nat2Z.id.
  replace (strlen outpath >=? 1) with true
    by (symmetry; apply Z.geb_le; lia).
  unfold when.
  run Hsound. rewrite Hc.
  destruct prefix as [p|], suffix as [s|]; repeat run Hsound.
  all: erewrite bind_ret;
    [| apply (encode_clean c99 (Some LONG_MAX) _ cfile
                (chunk_size_positive intel) _ bytes);
       [exact Hsrc | exact Hheap
       | intros j Hj; unfold bad, bad_at; cbn; rewrite Hsound;
         apply Z.leb_gt; lia]].
  all: cbn [andb]; rewrite ?poke_poke, ?Hh; repeat run Hsound.
  all: rewrite ?Hh.
  all: repeat first [rewrite heap_logged | rewrite heap_after_chunk].
  all: rewrite Hguard; repeat run Hsound.
  all: repeat first [rewrite heap_logged | rewrite heap_after_chunk].
  all: rewrite Hmacro; repeat run Hsound.
  all: unfold ret; cbn [outcome final]; split; [reflexivity|].
  all: rewrite sprintf_include, sprintf_guard, Hgc, Hmc.
  all: fold (size_macro_value c99
               (count_after (Some LONG_MAX) 0 (length bytes))).
  all: cbn [count_after]; rewrite Z.add_0_l.
  all: repeat split; read_off Hsound; tidy.
Qed.

(** X7.  [main_runbin2c] with [-g], under the conditions of the run without
    it and when the two macro names can be built: it returns true; it opens,
    flushes and closes first [outpath] with its last character replaced by
    [c], then the same with [h]; the text of the first is the inclusion of
    [<symbol>.h] and the definition of the array; the text of the second is
    the include guard named after the symbol in capitals, the [extern]
    declaration of the array, and the size macro, named after prefix, symbol
    and the [-g] suffix in capitals, with the number of bytes as its
    value. *)
Theorem bin2c_global_run c99 intel LONG_MAX symbol prefix suffix g outpath
  base mark bytes guard macro w :
  cstring outpath = base ++ [mark] ->
  source w = unread bytes ->
  (forall n, fault w n = false) ->
  heap w (MAIN_CHUNKSIZE intel) = true ->
  Z.of_nat (length bytes) <= LONG_MAX ->
  main_runbin2c_constructmacro (heap w) None symbol None = Some guard ->
  main_runbin2c_constructmacro (heap w) prefix symbol (Some g) = Some macro ->
  let cfile := base ++ ["c"%char] in
  let hfile := base ++ ["h"%char] in
  let name := array_name prefix symbol suffix in
  let r := main_runbin2c c99 intel LONG_MAX symbol prefix suffix (Some g)
             outpath w in
  outcome r = Some true
  /\ written cfile (history (final r))
     = written cfile (history w) ++ definition_text symbol name bytes
  /\ written hfile (history (final r))
     = written hfile (history w)
       ++ header_text guard name macro
            (size_macro_value c99 (Z.of_nat (length bytes)))
  /\ lifecycle (history (final r))
     = lifecycle (history w)
       ++ [Opened cfile true; Flushed cfile true; Closed cfile true;
           Opened hfile true; Flushed hfile true; Closed hfile true].
Proof.
  exact (main_runbin2c_global c99 intel LONG_MAX symbol prefix suffix g outpath
           base mark bytes guard macro w).
Qed.

Lemma bin2c_global_run_witness :
  let r := main_runbin2c true true 2147483647 (str "a") None None
             (Some (str "_size")) (str "a. ")
             (fresh [x41] EndOfFile sound) in
  outcome r = Some true
  /\ written (str "a.c") (history (final r))
     = str "#include " ++ [dquote] ++ str "a.h" ++ [dquote; newline; newline]
       ++ str "unsigned char const a[] = { 0x41u };" ++ [newline]
  /\ written (str "a.h") (history (final r))
     = str "#if !defined ( __A_H__ )" ++ [newline; newline]
       ++ str "#define __A_H__" ++ [newline; newline]
       ++ str "extern unsigned char const a[];" ++ [newline; newline]
       ++ str "#define A_SIZE  1" ++ [newline; newline]
       ++ str "#endif" ++ [newline]
  /\ lifecycle (history (final r))
     = [Opened (str "a.c") true; Flushed (str "a.c") true;
        Closed (str "a.c") true; Opened (str "a.h") true;
        Flushed (str "a.h") true; Closed (str "a.h") true].
Proof.
  exact (bin2c_global_run true true 2147483647 (str "a") None None
           (str "_size") (str "a. ") (str "a.") " "%char [x41]
           (str "A") (str "A_SIZE") (fresh [x41] EndOfFile sound)
           eq_refl eq_refl (fun _ => eq_refl) eq_refl
           ltac:(vm_compute; discriminate)
           ltac:(vm_compute; reflexivity) ltac:(vm_compute; reflexivity)).
Defined.

(** ** The stream that was not opened *)

Lemma encode_null_stream c99 counted chunk bytes w :
  (0 < chunk)%nat ->
  source w = unread bytes -> heap w (Z.of_nat chunk) = true ->
  match bytes with
  | [] => exists w', encode c99 counted chunk None w = Ret (true, 0) w'
                     /\ log w' = log w
  | _ :: _ => exists w', encode c99 counted chunk None w = Undefined w'
                          /\ log w' = log w
  end.
Proof.
  intros Hchunk Hsrc Hheap. destruct chunk as [|k]; [lia|].
  destruct w as [src f n h l]. cbn [source heap] in *. subst src.
  destruct bytes as [|b bytes].
  - eexists. unfold encode, bind, malloc. cbn [heap]. rewrite Hheap.
    cbn. split; reflexivity.
  - eexists. unfold encode, bind, malloc. cbn [heap]. rewrite Hheap.
    cbn. split; reflexivity.
Qed.

Lemma bind_undefined {A B} (m : M A) (k : A -> M B) w w' :
  m w = Undefined w' -> bind m k w = Undefined w'.
Proof. intros H. unfold bind. now rewrite H. Qed.

Lemma fopen_fails path w : fault w (ops w) = true ->
  fopen path w = Ret None (logged (Opened (cstring path) false) w).
Proof.
  intros H. unfold fopen, bind, output_op, ret. now rewrite H.
Qed.

(** X8.  [main_runbin2c] when the opening of its first output file fails
    while the chunk buffer is granted: the encoder block runs all the same
    and the [NULL] stream reaches the library, in [fprintf] for the first
    byte or, on an empty input, in the [fputs] of the closing brace.  The
    behaviour is undefined from there; the failed opening is all that has
    happened to the output. *)
Theorem failed_open_reaches_library c99 intel LONG_MAX symbol prefix suffix
  global outpath base mark bytes w :
  cstring outpath = base ++ [mark] ->
  source w = unread bytes ->
  fault w (ops w) = true ->
  heap w (MAIN_CHUNKSIZE intel) = true ->
  let file := base ++ [match global with Some _ => "c" | None => "h" end]%char in
  exists w',
    main_runbin2c c99 intel LONG_MAX symbol prefix suffix global outpath w
    = Undefined w'
    /\ history w' = history w ++ [Opened file false].
Proof.
  intros Hpath Hsrc Hfault Hheap file.
  rewrite <- chunk_size_request in Hheap.
  assert (Hoff : strlen outpath - 1 = Z.of_nat (length base)).
  { unfold strlen. rewrite Hpath, length_app. simpl length. lia. }
  set (ext := match global with Some _ => "c" | None => "h" end%char).
  assert (Hfile : cstring (poke outpath (length base) ext) = file).
  { apply (cstring_poke_last ext ltac:(subst ext; destruct global; discriminate)
             _ _ mark Hpath). }
  unfold main_runbin2c, bin2c_encode.
  rewrite Hoff, Nat2Z.id.
  replace (strlen outpath >=? 1) with true
    by (symmetry; apply Z.geb_le; lia).
  unfold when at 1. rewrite bind_bind.
  erewrite bind_ret by (apply fopen_fails; exact Hfault).
  erewrite bind_ret by reflexivity.
  replace (if match global with Some _ => true | None => false end
           then "c"%char else "h"%char) with ext
    by (subst ext; now destruct global).
  rewrite Hfile.
  set (w1 := logged (Opened file false) w).
  unfold when at 1. erewrite bind_ret by reflexivity.
  unfold when at 1. erewrite bind_ret by reflexivity.
  pose proof (encode_null_stream c99 (Some LONG_MAX) _ bytes w1
                (chunk_size_positive intel) Hsrc Hheap) as Henc.
  destruct bytes as [|b bytes]; destruct Henc as [w' [Henc Hlog]];
    exists w'; (split; [|unfold history; rewrite Hlog; reflexivity]).
  - erewrite bind_ret by exact Henc. reflexivity.
  - apply bind_undefined. exact Henc.
Qed.

Lemma failed_open_reaches_library_witness :
  exists w',
    main_runbin2c true true 2147483647 (str "a") None None None (str "a. ")
      (fresh [] EndOfFile (failing 0))
    = Undefined w'
    /\ history w' = [Opened (str "a.h") false].
Proof.
  exact (failed_open_reaches_library true true 2147483647 (str "a") None None
           None (str "a. ") (str "a.") " "%char []
           (fresh [] EndOfFile (failing 0)) eq_refl eq_refl eq_refl eq_refl).
Defined.

(** ** Command lines *)

Section ArgumentFacts.

Variable bin2c : bool.
Variable ndebug : bool.

Lemma option_slot_switch c option :
  option_slot bin2c ("-"%char :: c :: option)
  = (let '(p, s) := main_parseargs_switch bin2c c None true in
     if s && (deref option =? NUL)%char then p else None).
Proof.
  unfold option_slot, main_parseargs_switch. cbn [cstring].
  change ("-" =? NUL)%char with false. cbv iota.
  destruct (c =? NUL)%char eqn:Ec.
  - apply Ascii.eqb_eq in Ec. subst c. cbn. now destruct bin2c.
  - assert (Hopt : cstring option
                   = if (deref option =? NUL)%char then [] else cstring option).
    { destruct option as [|e option]; [reflexivity|]. cbn [deref cstring].
      now destruct (e =? NUL)%char. }
    rewrite Hopt.
    destruct (deref option =? NUL)%char eqn:Eo.
    + change ("-" =? "-")%char with true. cbv iota.
      destruct ((c =? "p") || (c =? "P"))%char; [reflexivity|].
      destruct ((c =? "s") || (c =? "S"))%char; [reflexivity|].
      destruct (bin2c && ((c =? "g") || (c =? "G"))%char); reflexivity.
    + destruct option as [|e option]; [discriminate|].
      cbn [deref] in Eo. cbn [cstring]. rewrite Eo.
      destruct ((c =? "p") || (c =? "P"))%char; [reflexivity|].
      destruct ((c =? "s") || (c =? "S"))%char; [reflexivity|].
      destruct (bin2c && ((c =? "g") || (c =? "G"))%char); reflexivity.
Qed.

Lemma option_slot_hyphen x :
  (deref x =? "-")%char = false -> option_slot bin2c x = None.
Proof.
  intros H. unfold option_slot. destruct x as [|d x]; [reflexivity|].
  cbn [deref] in H. cbn [cstring]. destruct (d =? NUL)%char; [reflexivity|].
  destruct (cstring x) as [|c [|e rest]]; try reflexivity. now rewrite H.
Qed.

Lemma option_slot_lone x :
  (deref x =? "-")%char = true -> skipn 1 x = [] ->
  option_slot bin2c x = None.
Proof.
  intros H Hs. destruct x as [|d [|c x]]; try discriminate.
  cbn [deref] in H. apply Ascii.eqb_eq in H. subst d. reflexivity.
Qed.

Lemma switch_failed c parameter :
  snd (main_parseargs_switch bin2c c parameter false) = false.
Proof.
  unfold main_parseargs_switch.
  destruct ((c =? "p") || (c =? "P"))%char; [reflexivity|].
  destruct ((c =? "s") || (c =? "S"))%char; [reflexivity|].
  destruct (bin2c && ((c =? "g") || (c =? "G"))%char); reflexivity.
Qed.

Lemma switch_fresh c parameter :
  snd (main_parseargs_switch bin2c c parameter true) = true ->
  main_parseargs_switch bin2c c parameter true
  = main_parseargs_switch bin2c c None true.
Proof.
  unfold main_parseargs_switch.
  destruct ((c =? "p") || (c =? "P"))%char; [reflexivity|].
  destruct ((c =? "s") || (c =? "S"))%char; [reflexivity|].
  destruct (bin2c && ((c =? "g") || (c =? "G"))%char);
    [reflexivity|discriminate].
Qed.

Lemma switch_points c parameter p :
  main_parseargs_switch bin2c c parameter true = (p, true) ->
  is_null p = false.
Proof.
  unfold main_parseargs_switch.
  destruct ((c =? "p") || (c =? "P"))%char;
    [intros H; now inversion H|].
  destruct ((c =? "s") || (c =? "S"))%char;
    [intros H; now inversion H|].
  destruct (bin2c && ((c =? "g") || (c =? "G"))%char);
    [intros H; now inversion H|discriminate].
Qed.

(** The loop leaves the vector only at a lone hyphen, which is neither an
    option nor a value. *)
Lemma main_parseargs_loop_stray l : forall success parameter a,
  main_parseargs_loop bin2c l (Z.of_nat (length l)) success parameter a
  = None ->
  forall value, options_ok bin2c l value = false.
Proof.
  induction l as [|x l IH]; intros success parameter a.
  - change (Z.of_nat (length (@nil text))) with 0. cbn. discriminate.
  - cbn [main_parseargs_loop length].
    replace (Z.of_nat (S (length l)) >? 0) with true
      by (symmetry; apply Z.gtb_lt; lia).
    replace (Z.of_nat (S (length l)) - 1) with (Z.of_nat (length l)) by lia.
    intros H value. cbn [options_ok].
    destruct (deref x =? "-")%char eqn:Ex.
    + destruct (skipn 1 x) as [|c option] eqn:Es.
      * rewrite (option_slot_lone x Ex Es). unfold plain. rewrite Ex.
        now destruct value.
      * destruct (main_parseargs_switch bin2c c parameter
                    (success && is_null parameter)) as [p2 s2].
        rewrite (IH _ _ _ H). apply andb_false_r.
    + destruct parameter as [s|]; rewrite (IH _ _ _ H); apply andb_false_r.
Qed.

(** The loop over a whole vector that it does not leave: it ends at the
    null pointer, with [success] and [parameter] telling whether the
    arguments are options and values in turn. *)
Lemma main_parseargs_loop_spec l : forall success parameter a rest argc
  success' parameter' a',
  main_parseargs_loop bin2c l (Z.of_nat (length l)) success parameter a
  = Some (rest, argc, success', parameter', a') ->
  rest = [] /\ argc = 0
  /\ success' && is_null parameter'
     = success && options_ok bin2c l (negb (is_null parameter))
  /\ (success' && is_null parameter' = true ->
      a' = options_set bin2c l parameter a).
Proof.
  induction l as [|x l IH]; intros success parameter a rest argc s' p' a'.
  - change (Z.of_nat (length (@nil text))) with 0. cbn.
    intros [= <- <- <- <- <-]. rewrite negb_involutive. auto.
  - cbn [main_parseargs_loop length].
    replace (Z.of_nat (S (length l)) >? 0) with true
      by (symmetry; apply Z.gtb_lt; lia).
    replace (Z.of_nat (S (length l)) - 1) with (Z.of_nat (length l)) by lia.
    cbn [options_ok options_set].
    destruct (deref x =? "-")%char eqn:Ex.
    + assert (Hplain : plain x = false) by (unfold plain; now rewrite Ex).
      destruct (skipn 1 x) as [|c option] eqn:Es; [discriminate|].
      assert (Hx : x = "-"%char :: c :: option).
      { destruct x as [|d x]; [discriminate|]. cbn [deref] in Ex.
        apply Ascii.eqb_eq in Ex. subst d. cbn in Es. now subst x. }
      destruct (success && is_null parameter) eqn:Eok.
      * apply andb_prop in Eok. destruct Eok as [-> Hnull].
        destruct parameter; [discriminate|]. cbn [is_null negb andb].
        replace (option_slot bin2c x)
          with (option_slot bin2c ("-"%char :: c :: option))
          by (now rewrite Hx).
        rewrite option_slot_switch.
        destruct (main_parseargs_switch bin2c c None true)
          as [p2 [|]] eqn:Esw; cbn [andb]; intros H;
          apply IH in H; destruct H as [Hr [Hn [Hs Ha]]].
        -- pose proof (switch_points _ _ _ Esw) as Hp2.
           rewrite Hp2 in Hs. cbn [negb] in Hs.
           destruct (deref option =? NUL)%char; cbn [andb] in *.
           ++ rewrite Hp2. cbn [negb andb]. auto.
           ++ cbn [is_null negb andb]. repeat split; auto.
              rewrite Hs. discriminate.
        -- cbn [andb] in Hs. cbn [is_null negb andb].
           repeat split; auto. rewrite Hs. discriminate.
      * pose proof (switch_failed c parameter) as Hsw.
        destruct (main_parseargs_switch bin2c c parameter false)
          as [p2 s2]. cbn [snd] in Hsw. subst s2. cbn [andb].
        intros H. apply IH in H. destruct H as [Hr [Hn [Hs Ha]]].
        cbn [andb] in Hs.
        assert (Hfalse : success
                         && ((if negb (is_null parameter) then plain x
                              else negb (is_null (option_slot bin2c x)))
                             && options_ok bin2c l
                                  (negb (negb (is_null parameter)))) = false).
        { destruct success; [|reflexivity]. cbn [andb] in Eok.
          rewrite Eok. cbn [negb]. now rewrite Hplain. }
        rewrite Hfalse. repeat split; auto. rewrite Hs. discriminate.
    + assert (Hplain : plain x = true) by (unfold plain; now rewrite Ex).
      destruct parameter as [s|]; cbn [is_null negb andb].
      * rewrite Hplain, andb_true_r. cbn [andb].
        intros H. apply IH in H. exact H.
      * rewrite (option_slot_hyphen x Ex). cbn [is_null negb andb].
        intros H. apply IH in H. destruct H as [Hr [Hn [Hs _]]].
        cbn [andb] in Hs. rewrite Hs, andb_false_r.
        repeat split; auto; discriminate.
Qed.

Lemma main_parseargs_loop_count l : forall argc success parameter a rest
  argc' success' parameter' a',
  main_parseargs_loop bin2c l argc success parameter a
  = Some (rest, argc', success', parameter', a') ->
  0 <= argc ->
  argc' = 0 /\ Z.of_nat (length l) = argc + Z.of_nat (length rest).
Proof.
  induction l as [|x l IH]; intros argc success parameter a rest argc' s' p'
    a' H Hargc; cbn [main_parseargs_loop] in H;
    destruct (Z.gtb_spec argc 0) as [Hpos|Hle].
  - discriminate.
  - injection H as <- <- _ _ _. split; [lia|]. simpl length. lia.
  - assert (Hstep : forall s1 p1 a1,
              main_parseargs_loop bin2c l (argc - 1) s1 p1 a1
              = Some (rest, argc', s', p', a') ->
              argc' = 0
              /\ Z.of_nat (length (x :: l)) = argc + Z.of_nat (length rest)).
    { intros s1 p1 a1 H1. apply IH in H1; [|lia].
      destruct H1 as [-> Hlen]. split; [reflexivity|].
      cbn [length]. lia. }
    destruct (deref x =? "-")%char.
    + destruct (skipn 1 x) as [|c option]; [discriminate|].
      destruct (main_parseargs_switch bin2c c parameter
                  (success && is_null parameter)) as [p2 s2].
      now apply Hstep in H.
    + destruct parameter; now apply Hstep in H.
  - injection H as <- <- _ _ _. split; lia.
Qed.

Lemma main_parseargs_loop_hyphen l : forall success parameter a,
  In lone_hyphen l ->
  main_parseargs_loop bin2c l (Z.of_nat (length l)) success parameter a
  = None.
Proof.
  induction l as [|x l IH]; intros success parameter a Hin; [destruct Hin|].
  cbn [main_parseargs_loop length].
  replace (Z.of_nat (S (length l)) >? 0) with true
    by (symmetry; apply Z.gtb_lt; lia).
  replace (Z.of_nat (S (length l)) - 1) with (Z.of_nat (length l)) by lia.
  destruct Hin as [->|Hin]; [reflexivity|].
  destruct (deref x =? "-")%char.
  - destruct (skipn 1 x) as [|c option]; [reflexivity|].
    destruct (main_parseargs_switch bin2c c parameter
                (success && is_null parameter)) as [p2 s2].
    now apply IH.
  - destruct parameter; now apply IH.
Qed.

Lemma options_set_last l o v s : forall pending a,
  options_ok bin2c (l ++ [o; v]) (negb (is_null pending)) = true ->
  option_slot bin2c o = Some s ->
  slot_value s (options_set bin2c (l ++ [o; v]) pending a) = Some v.
Proof.
  induction l as [|x l IH]; intros pending a Hok Ho.
  - cbn [app options_ok options_set] in *.
    destruct pending as [s0|]; cbn [is_null negb] in Hok.
    + assert (Hplain : plain o = false).
      { unfold plain. destruct (deref o =? "-")%char eqn:E; [reflexivity|].
        rewrite (option_slot_hyphen o E) in Ho. discriminate. }
      rewrite Hplain in Hok. discriminate.
    + rewrite Ho. now destruct s.
  - cbn [app options_ok options_set] in *.
    apply andb_prop in Hok. destruct Hok as [Hx Hok].
    destruct pending as [s0|]; cbn [is_null negb] in *.
    + now apply (IH None).
    + destruct (option_slot bin2c x) as [s1|]; [|discriminate].
      now apply (IH (Some s1)).
Qed.

(** X9.  [main_parseargs] returns true exactly when [argc] is the number of
    arguments and the command line is empty, or is a program name, an input
    path that does not start with a hyphen, and then options, each one a
    hyphen and one letter of the program in either case, each followed by a
    value that does not start with a hyphen.  The variables then hold what
    the arguments say, every option the value it had last.  In particular
    the options come after the input path, and the empty command line is
    accepted with no input path. *)
Theorem parseargs_accepts argc argv a :
  main_parseargs bin2c ndebug argc argv = Parsed true a
  <-> argc = Z.of_nat (length argv)
      /\ command_ok bin2c argv = true
      /\ a = command_set bin2c argv.
Proof.
  unfold main_parseargs. split.
  - destruct (Z.gtb_spec argc 0) as [Hpos|Hle].
    + destruct argv as [|first rest]; [discriminate|].
      destruct (main_parseargs_loop bin2c rest (argc - 1) _ _ _)
        as [[[[[r n] s'] p'] a']|] eqn:E; [|discriminate].
      destruct (main_parseargs_loop_count _ _ _ _ _ _ _ _ _ _ E ltac:(lia))
        as [-> Hlen].
      change (0 <? 0) with false. cbv iota.
      destruct r as [|y r]; [|rewrite andb_false_r; discriminate].
      rewrite andb_true_r. intros H. injection H as Hs <-.
      cbn [length] in Hlen.
      assert (Hargc : argc - 1 = Z.of_nat (length rest)) by lia.
      rewrite Hargc in E.
      apply main_parseargs_loop_spec in E.
      destruct E as [_ [_ [Hok Ha]]]. rewrite Hs in Hok.
      cbn [andb is_null negb] in Hok.
      repeat split; [cbn [length]; lia|now symmetry|now apply Ha].
    + destruct argv as [|x argv]; cbn [main_parseargs_loop];
        destruct (Z.gtb_spec argc 0) as [Hpos|_]; try lia;
        destruct (Z.ltb_spec argc 0) as [Hneg|Hnn].
      * destruct (bin2c || ndebug); discriminate.
      * intros H. injection H as <-. repeat split. simpl length. lia.
      * destruct (bin2c || ndebug); discriminate.
      * discriminate.
  - intros [-> [Hok ->]]. destruct argv as [|first rest].
    + reflexivity.
    + cbn [length command_ok command_set] in *.
      replace (Z.of_nat (S (length rest)) >? 0) with true
        by (symmetry; apply Z.gtb_lt; lia).
      replace (Z.of_nat (S (length rest)) - 1) with (Z.of_nat (length rest))
        by lia.
      destruct (main_parseargs_loop bin2c rest _ _ _ _)
        as [[[[[r n] s'] p'] a']|] eqn:E.
      * apply main_parseargs_loop_spec in E.
        destruct E as [-> [-> [Hs Ha]]].
        cbn [andb is_null negb] in Hs. rewrite Hok in Hs.
        change (0 <? 0) with false. cbv iota.
        rewrite Hs. cbn [andb]. f_equal. now apply Ha.
      * rewrite (main_parseargs_loop_stray _ _ _ _ E) in Hok. discriminate.
Qed.

(** X10.  An argument after the program name that is a lone hyphen makes
    [main_parseargs] read the character after its terminator: with
    [option] at the terminator, [option += 1u] leaves the string and
    [*option] is read. *)
Theorem lone_hyphen_is_read_past argv :
  In lone_hyphen (tl argv) ->
  main_parseargs bin2c ndebug (Z.of_nat (length argv)) argv = Stray.
Proof.
  intros Hin. destruct argv as [|first rest]; [destruct Hin|].
  unfold main_parseargs. cbn [length tl] in *.
  replace (Z.of_nat (S (length rest)) >? 0) with true
    by (symmetry; apply Z.gtb_lt; lia).
  replace (Z.of_nat (S (length rest)) - 1) with (Z.of_nat (length rest))
    by lia.
  now rewrite main_parseargs_loop_hyphen.
Qed.

(** X11.  [main_parseargs] does not refuse an option given twice: when it
    accepts a command line that ends, after the program name, with an
    option and its value, the variable of that option holds this last
    value, whatever came before. *)
Theorem last_option_wins program argv o v s a :
  main_parseargs bin2c ndebug
    (Z.of_nat (length (program :: argv ++ [o; v])))
    (program :: argv ++ [o; v]) = Parsed true a ->
  option_slot bin2c o = Some s ->
  slot_value s a = Some v.
Proof.
  intros H Ho.
  destruct (main_parseargs bin2c ndebug _ (program :: argv ++ [o; v])) eqn:E;
    try discriminate.
  injection H as -> ->.
  unfold main_parseargs in E.
  cbn [app length] in E.
  replace (Z.of_nat (S (length (argv ++ [o; v]))) >? 0) with true in E
    by (symmetry; apply Z.gtb_lt; lia).
  replace (Z.of_nat (S (length (argv ++ [o; v]))) - 1)
    with (Z.of_nat (length (argv ++ [o; v]))) in E by lia.
  destruct (main_parseargs_loop bin2c (argv ++ [o; v]) _ _ _ _)
    as [[[[[r n] s'] p'] a']|] eqn:El; [|discriminate].
  apply main_parseargs_loop_spec in El.
  destruct El as [-> [-> [Hs Ha]]].
  change (0 <? 0) with false in E. cbv iota in E.
  rewrite andb_true_r in E. injection E as Hok <-.
  rewrite Hok in Hs. cbn [andb] in Hs. symmetry in Hs.
  rewrite (Ha Hok). now apply options_set_last.
Qed.

End ArgumentFacts.


Lemma lone_hyphen_is_read_past_witness :
  main_parseargs true false 3 [str "bin2c"; str "data.bin"; str "-"] = Stray.
Proof.
  exact (lone_hyphen_is_read_past true false
           [str "bin2c"; str "data.bin"; str "-"]
           (or_intror (or_introl eq_refl))).
Defined.

Lemma last_option_wins_witness :
  slot_value to_prefix
    (command_set true
       [str "bin2c"; str "data.bin"; str "-p"; str "a_"; str "-P"; str "b_"])
  = Some (str "b_").
Proof.
  exact (last_option_wins true false (str "bin2c")
           [str "data.bin"; str "-p"; str "a_"] (str "-P") (str "b_")
           to_prefix _ eq_refl eq_refl).
Defined.

Lemma parseargs_accepts_witness :
  main_parseargs true false 4
    [str "bin2c"; str "data.bin"; str "-G"; str "_n"]
  = Parsed true
      {| arg_program := Some (str "bin2c"); arg_inpath := Some (str "data.bin");
         arg_prefix := None; arg_suffix := None;
         arg_global := Some (str "_n") |}.
Proof.
  exact (proj2 (parseargs_accepts true false 4
                  [str "bin2c"; str "data.bin"; str "-G"; str "_n"] _)
           (conj eq_refl (conj eq_refl eq_refl))).
Defined.

(** ** The programs *)

Lemma outcome_ret {A} (r : result A) a :
  outcome r = Some a -> r = Ret a (final r).
Proof. destruct r; cbn; intros H; now inversion H. Qed.

Lemma constructmacro_cstring heap prefix core suffix :
  main_runbin2c_constructmacro heap prefix (cstring core) suffix
  = main_runbin2c_constructmacro heap prefix core suffix.
Proof. rewrite !constructmacro_characterised. now rewrite cstring_idem. Qed.

Lemma history_noted e w : history (noted e w) = history w ++ [e].
Proof. reflexivity. Qed.

Lemma written_one file e :
  match e with Wrote _ _ _ => False | _ => True end ->
  written file [e] = [].
Proof. now destruct e. Qed.

Lemma lifecycle_app h h' : lifecycle (h ++ h') = lifecycle h ++ lifecycle h'.
Proof. apply filter_app. Qed.

Lemma written_input_closed file closes path complaint :
  written file (input_closed closes path complaint) = [].
Proof. now destruct closes. Qed.

Lemma lifecycle_input_closed closes path complaint :
  lifecycle (input_closed closes path complaint)
  = input_closed closes path complaint.
Proof. now destruct closes. Qed.

Lemma split_clean windows dir stem tail :
  well_split windows dir stem tail = true ->
  cstring (dir ++ stem ++ tail) = dir ++ stem ++ tail.
Proof.
  intros Hs.
  pose proof (well_split_facts windows dir stem tail Hs)
    as [[Hdir [Hstem Htail]] _].
  apply cstring_clean. rewrite !in_app_iff. tauto.
Qed.

Section Programs.

Variable c99 : bool.
Variable intel : bool.
Variable windows : bool.
Variable ndebug : bool.
Variable LONG_MAX : Z.
Variable readable : text -> bool.
Variable closes : bool.

(** The symbol [main] hands to the converter is the stem of the file
    name. *)
Lemma main_symbol_split dir stem tail :
  well_split windows dir stem tail = true ->
  Z.of_nat (length (dir ++ stem ++ tail)) + 1 <= USHRT_MAX ->
  cstring (main_symbol windows (dir ++ stem ++ tail)) = stem.
Proof.
  intros Hs HL. unfold main_symbol.
  rewrite main_shortenname_split by assumption.
  pose proof (well_split_facts windows dir stem tail Hs)
    as [[_ [Hstem _]] _].
  rewrite Nat2Z.id. destruct tail as [|c ext].
  - rewrite skipn_length_app. now apply cstring_clean.
  - rewrite skipn_length_app. now apply cstring_cut.
Qed.

(** The opening of the input. *)
Lemma main_openinput_run a inpath w :
  arg_inpath a = Some inpath ->
  main_openinput readable true a w
  = Ret (if readable (cstring inpath) then Some (cstring inpath) else None,
         readable (cstring inpath))
        (noted (Opened (cstring inpath) (readable (cstring inpath))) w).
Proof.
  intros Hin. unfold main_openinput, fopen_input, bind, ret. rewrite Hin.
  now destruct (readable (cstring inpath)).
Qed.

(** The end of [main]: the closing of the input, and the complaint when it
    fails. *)
Lemma main_closeinput_end {A} path complaint (k : bool -> A) w :
  let r := (clean <- main_closeinput closes (Some path) true ;;
            _ <- (if negb clean then complain complaint else ret tt) ;;
            ret (k clean)) w in
  outcome r = Some (k closes)
  /\ source (final r) = source w
  /\ history (final r) = history w ++ input_closed closes path complaint.
Proof.
  unfold main_closeinput, fclose_input, on_stream, input_closed.
  destruct closes; cbn; unfold history; cbn; rewrite <- ?app_assoc; auto.
Qed.

(** [main] of bin2c on an accepted command line whose input can be opened
    and whose output path can be built: the converter runs on the stem and
    on the kept path with the blank extension; its result and the closing
    of the input decide the exit status. *)
Lemma bin2c_main_runs argc argv a dir stem tail w :
  main_parseargs true ndebug argc argv = Parsed true a ->
  arg_inpath a = Some (dir ++ stem ++ tail) ->
  well_split windows dir stem tail = true ->
  (tail <> [] -> dir ++ stem <> []) ->
  Z.of_nat (length (dir ++ stem ++ tail)) + 1 <= USHRT_MAX ->
  Z.of_nat (length (dir ++ stem)) + 2 + 1 <= USHRT_MAX ->
  readable (dir ++ stem ++ tail) = true ->
  heap w (Z.of_nat (length (dir ++ stem)) + 2 + 1) = true ->
  bin2c_main c99 intel windows ndebug LONG_MAX readable closes argc argv w
  = (success <- main_runbin2c c99 intel LONG_MAX
                  (main_symbol windows (dir ++ stem ++ tail))
                  (arg_prefix a) (arg_suffix a) (arg_global a)
                  (dir ++ stem ++ str ". ") ;;
     clean <- main_closeinput closes (Some (dir ++ stem ++ tail)) true ;;
     _ <- (if negb clean
           then complain
                  (str "ERROR: failed to properly close the input file.")
           else ret tt) ;;
     ret (if success && clean then EXIT_SUCCESS else EXIT_FAILURE))
      (noted (Opened (dir ++ stem ++ tail) true) w).
Proof.
  intros Hparse Hin Hs Hdot HL Hkeep Hread Hheap.
  unfold bin2c_main. rewrite Hparse.
  erewrite bind_ret by (apply main_openinput_run; exact Hin).
  rewrite (split_clean _ _ _ _ Hs), Hread, Hin. cbv beta iota.
  erewrite bind_ret.
  2:{ cbv beta. unfold main_constructoutpath.
      rewrite constructout_split by (auto; lia).
      change (heap (noted _ w)) with (heap w). rewrite Hheap.
      replace (Z.of_nat (length (dir ++ stem)) + 2 + 1 <=? USHRT_MAX)
        with true by (symmetry; apply Z.leb_le; lia).
      reflexivity. }
  cbn [andb negb is_null]. cbv beta iota. reflexivity.
Qed.

Lemma blank_outpath dir stem tail :
  well_split windows dir stem tail = true ->
  cstring (dir ++ stem ++ str ". ") = (dir ++ stem ++ ["."%char]) ++ [" "%char].
Proof.
  intros Hs.
  pose proof (well_split_facts windows dir stem tail Hs)
    as [[Hdir [Hstem _]] _].
  rewrite <- !app_assoc. apply cstring_clean.
  rewrite !in_app_iff. cbn [In]. intuition discriminate.
Qed.

(** X12.  bin2c without [-g], from the command line to the file: when the
    command line is accepted, the input path (directories, stem and last
    extension, the full stop of which is not the first character of the
    path) can be opened and leaves room for the new extension, the
    allocations are granted, no operation on the output fails, the input is
    read to its end and has at most [LONG_MAX] bytes, then [main] opens the
    input; the one file it opens after that, flushes and closes is the
    input path with [.h] in place of its last extension, and the text of
    that file is the [static] definition of the array named prefix, stem,
    suffix; and it closes the input.  [main] returns [EXIT_SUCCESS] when
    the input closes; when it does not, the file is the same, and [main]
    complains and returns [EXIT_FAILURE]. *)
Theorem bin2c_writes_header argc argv a dir stem tail bytes w :
  main_parseargs true ndebug argc argv = Parsed true a ->
  arg_inpath a = Some (dir ++ stem ++ tail) ->
  arg_global a = None ->
  well_split windows dir stem tail = true ->
  (tail <> [] -> dir ++ stem <> []) ->
  Z.of_nat (length (dir ++ stem ++ tail)) + 1 <= USHRT_MAX ->
  Z.of_nat (length (dir ++ stem)) + 2 + 1 <= USHRT_MAX ->
  readable (dir ++ stem ++ tail) = true ->
  source w = unread bytes ->
  (forall n, fault w n = false) ->
  heap w (Z.of_nat (length (dir ++ stem)) + 2 + 1) = true ->
  heap w (MAIN_CHUNKSIZE intel) = true ->
  Z.of_nat (length bytes) <= LONG_MAX ->
  let inpath := dir ++ stem ++ tail in
  let file := dir ++ stem ++ str ".h" in
  let name := opt_string (arg_prefix a) ++ stem ++ opt_string (arg_suffix a) in
  let r := bin2c_main c99 intel windows ndebug LONG_MAX readable closes
             argc argv w in
  outcome r = Some (if closes then EXIT_SUCCESS else EXIT_FAILURE)
  /\ written file (history (final r))
     = written file (history w) ++ static_text name bytes
  /\ lifecycle (history (final r))
     = lifecycle (history w)
       ++ [Opened inpath true;
           Opened file true; Flushed file true; Closed file true]
       ++ input_closed closes inpath
            (str "ERROR: failed to properly close the input file.").
Proof.
  intros Hparse Hin Hglobal Hs Hdot HL Hkeep Hread Hsrc Hsound Hheap
    Hchunk Hlen inpath file name r.
  subst r. rewrite (bin2c_main_runs _ _ _ _ _ _ _ Hparse Hin) by assumption.
  rewrite Hglobal. fold inpath.
  set (w1 := noted (Opened inpath true) w).
  pose proof (main_runbin2c_static c99 intel LONG_MAX
                (main_symbol windows (dir ++ stem ++ tail))
                (arg_prefix a) (arg_suffix a) (dir ++ stem ++ str ". ")
                (dir ++ stem ++ ["."%char]) " "%char bytes w1
                (blank_outpath _ _ _ Hs) Hsrc Hsound Hchunk Hlen)
    as [Hout [Hwritten Hlife]].
  cbv zeta in Hout, Hwritten, Hlife.
  replace ((dir ++ stem ++ ["."%char]) ++ ["h"%char]) with file in *
    by (subst file; now rewrite <- !app_assoc).
  unfold array_name in Hwritten.
  rewrite (main_symbol_split _ _ _ Hs HL) in Hwritten.
  apply outcome_ret in Hout.
  rewrite (bind_ret _ _ _ _ _ Hout). cbn [andb].
  match goal with
  | |- context [outcome (?m ?w0)] =>
      set (w2 := w0) in *; set (R := m w2) in *;
      assert (Hend : outcome R
                     = Some (if closes then EXIT_SUCCESS else EXIT_FAILURE)
                     /\ history (final R)
                        = history w2
                          ++ input_closed closes inpath
                               (str "ERROR: failed to properly close the input file."))
        by (pose proof (main_closeinput_end inpath
                          (str "ERROR: failed to properly close the input file.")
                          (fun clean : bool =>
                             if clean then EXIT_SUCCESS else EXIT_FAILURE)
                          w2) as H;
            exact (conj (proj1 H) (proj2 (proj2 H))))
  end.
  destruct Hend as [Hend Hh]. rewrite Hend, Hh.
  rewrite written_app, lifecycle_app, written_input_closed,
    lifecycle_input_closed, app_nil_r, Hwritten, Hlife.
  subst w1. rewrite history_noted, written_app, lifecycle_app.
  cbn [written lifecycle filter]. rewrite app_nil_r, <- !app_assoc.
  repeat split; reflexivity.
Qed.

(** X13.  bin2c with [-g], from the command line to the files: under the
    conditions of the run without it and when the two macro names can be
    built, [main] opens the input, then opens, flushes and closes the input
    path with [.c] in place of its last extension and then the same with
    [.h], and closes the input; the first file holds the inclusion of
    [<stem>.h] and the definition of the array; the second holds the
    include guard named after the stem, the declaration of the array and
    the size macro with the number of bytes.  [main] returns [EXIT_SUCCESS]
    when the input closes, and complains and returns [EXIT_FAILURE] when it
    does not. *)
Theorem bin2c_writes_source_and_header argc argv a g dir stem tail bytes
  guard macro w :
  main_parseargs true ndebug argc argv = Parsed true a ->
  arg_inpath a = Some (dir ++ stem ++ tail) ->
  arg_global a = Some g ->
  well_split windows dir stem tail = true ->
  (tail <> [] -> dir ++ stem <> []) ->
  Z.of_nat (length (dir ++ stem ++ tail)) + 1 <= USHRT_MAX ->
  Z.of_nat (length (dir ++ stem)) + 2 + 1 <= USHRT_MAX ->
  readable (dir ++ stem ++ tail) = true ->
  source w = unread bytes ->
  (forall n, fault w n = false) ->
  heap w (Z.of_nat (length (dir ++ stem)) + 2 + 1) = true ->
  heap w (MAIN_CHUNKSIZE intel) = true ->
  Z.of_nat (length bytes) <= LONG_MAX ->
  main_runbin2c_constructmacro (heap w) None stem None = Some guard ->
  main_runbin2c_constructmacro (heap w) (arg_prefix a) stem (Some g)
  = Some macro ->
  let inpath := dir ++ stem ++ tail in
  let cfile := dir ++ stem ++ str ".c" in
  let hfile := dir ++ stem ++ str ".h" in
  let name := opt_string (arg_prefix a) ++ stem ++ opt_string (arg_suffix a) in
  let r := bin2c_main c99 intel windows ndebug LONG_MAX readable closes
             argc argv w in
  outcome r = Some (if closes then EXIT_SUCCESS else EXIT_FAILURE)
  /\ written cfile (history (final r))
     = written cfile (history w)
       ++ str "#include " ++ [dquote] ++ stem ++ str ".h"
       ++ [dquote; newline; newline] ++ array_text name bytes
  /\ written hfile (history (final r))
     = written hfile (history w)
       ++ header_text guard name macro
            (size_macro_value c99 (Z.of_nat (length bytes)))
  /\ lifecycle (history (final r))
     = lifecycle (history w)
       ++ [Opened inpath true;
           Opened cfile true; Flushed cfile true; Closed cfile true;
           Opened hfile true; Flushed hfile true; Closed hfile true]
       ++ input_closed closes inpath
            (str "ERROR: failed to properly close the input file.").
Proof.
  intros Hparse Hin Hglobal Hs Hdot HL Hkeep Hread Hsrc Hsound Hheap
    Hchunk Hlen Hguard Hmacro inpath cfile hfile name r.
  subst r. rewrite (bin2c_main_runs _ _ _ _ _ _ _ Hparse Hin) by assumption.
  rewrite Hglobal. fold inpath.
  set (w1 := noted (Opened inpath true) w).
  pose proof (main_symbol_split _ _ _ Hs HL) as Hsym.
  rewrite <- Hsym in Hguard, Hmacro. rewrite constructmacro_cstring in *.
  pose proof (main_runbin2c_global c99 intel LONG_MAX
                (main_symbol windows (dir ++ stem ++ tail))
                (arg_prefix a) (arg_suffix a) g (dir ++ stem ++ str ". ")
                (dir ++ stem ++ ["."%char]) " "%char bytes guard macro w1
                (blank_outpath _ _ _ Hs) Hsrc Hsound Hchunk Hlen Hguard Hmacro)
    as [Hout [Hc [Hh Hlife]]].
  cbv zeta in Hout, Hc, Hh, Hlife.
  replace ((dir ++ stem ++ ["."%char]) ++ ["h"%char]) with hfile in *
    by (subst hfile; now rewrite <- !app_assoc).
  replace ((dir ++ stem ++ ["."%char]) ++ ["c"%char]) with cfile in *
    by (subst cfile; now rewrite <- !app_assoc).
  unfold array_name, definition_text in Hc, Hh. rewrite Hsym in Hc, Hh.
  apply outcome_ret in Hout.
  rewrite (bind_ret _ _ _ _ _ Hout). cbn [andb].
  match goal with
  | |- context [outcome (?m ?w0)] =>
      set (w2 := w0) in *; set (R := m w2) in *;
      assert (Hend : outcome R
                     = Some (if closes then EXIT_SUCCESS else EXIT_FAILURE)
                     /\ history (final R)
                        = history w2
                          ++ input_closed closes inpath
                               (str "ERROR: failed to properly close the input file."))
        by (pose proof (main_closeinput_end inpath
                          (str "ERROR: failed to properly close the input file.")
                          (fun clean : bool =>
                             if clean then EXIT_SUCCESS else EXIT_FAILURE)
                          w2) as H;
            exact (conj (proj1 H) (proj2 (proj2 H))))
  end.
  destruct Hend as [Hend Hhist]. rewrite Hend, Hhist.
  rewrite !written_app, lifecycle_app, !written_input_closed,
    lifecycle_input_closed, !app_nil_r, Hc, Hh, Hlife.
  subst w1. rewrite history_noted, !written_app, lifecycle_app.
  cbn [written lifecycle filter]. rewrite !app_nil_r, <- !app_assoc.
  repeat split; reflexivity.
Qed.

End Programs.

Lemma bin2c_writes_header_witness :
  let r := bin2c_main true true false false 2147483647 (fun _ => true) false 4
             [str "bin2c"; str "out/a.bin"; str "-p"; str "g_"]
             (fresh [x41; x0a] EndOfFile sound) in
  outcome r = Some EXIT_FAILURE
  /\ written (str "out/a.h") (history (final r))
     = str "static unsigned char const g_a[] = { 0x41u, 0xAu };" ++ [newline]
  /\ lifecycle (history (final r))
     = [Opened (str "out/a.bin") true;
        Opened (str "out/a.h") true; Flushed (str "out/a.h") true;
        Closed (str "out/a.h") true;
        Closed (str "out/a.bin") false;
        Complained (str "ERROR: failed to properly close the input file.")].
Proof.
  exact (bin2c_writes_header true true false false 2147483647
           (fun _ => true) false 4
           [str "bin2c"; str "out/a.bin"; str "-p"; str "g_"] _
           (str "out/") (str "a") (str ".bin") [x41; x0a]
           (fresh [x41; x0a] EndOfFile sound)
           eq_refl eq_refl eq_refl eq_refl
           (fun _ => ltac:(discriminate))
           ltac:(vm_compute; discriminate) ltac:(vm_compute; discriminate)
           eq_refl eq_refl (fun _ => eq_refl) eq_refl eq_refl
           ltac:(vm_compute; discriminate)).
Defined.

Lemma bin2c_writes_source_and_header_witness :
  let r := bin2c_main true true false false 2147483647 (fun _ => true) true 4
             [str "bin2c"; str "a.bin"; str "-g"; str "_n"]
             (fresh [x41] EndOfFile sound) in
  outcome r = Some EXIT_SUCCESS
  /\ written (str "a.c") (history (final r))
     = str "#include " ++ [dquote] ++ str "a.h" ++ [dquote; newline; newline]
       ++ str "unsigned char const a[] = { 0x41u };" ++ [newline]
  /\ written (str "a.h") (history (final r))
     = str "#if !defined ( __A_H__ )" ++ [newline; newline]
       ++ str "#define __A_H__" ++ [newline; newline]
       ++ str "extern unsigned char const a[];" ++ [newline; newline]
       ++ str "#define A_N  1" ++ [newline; newline]
       ++ str "#endif" ++ [newline]
  /\ lifecycle (history (final r))
     = [Opened (str "a.bin") true;
        Opened (str "a.c") true; Flushed (str "a.c") true;
        Closed (str "a.c") true; Opened (str "a.h") true;
        Flushed (str "a.h") true; Closed (str "a.h") true;
        Closed (str "a.bin") true].
Proof.
  exact (bin2c_writes_source_and_header true true false false 2147483647
           (fun _ => true) true 4
           [str "bin2c"; str "a.bin"; str "-g"; str "_n"] _ (str "_n")
           [] (str "a") (str ".bin") [x41] (str "A") (str "A_N")
           (fresh [x41] EndOfFile sound)
           eq_refl eq_refl eq_refl eq_refl
           (fun _ => ltac:(discriminate))
           ltac:(vm_compute; discriminate) ltac:(vm_compute; discriminate)
           eq_refl eq_refl (fun _ => eq_refl) eq_refl eq_refl
           ltac:(vm_compute; discriminate)
           ltac:(vm_compute; reflexivity) ltac:(vm_compute; reflexivity)).
Defined.

(** ** Command lines that are turned down *)

Lemma fputs_any s file w :
  fputs s (Some file) w
  = Ret (if negb (fault w (ops w)) then 1 else EOF)
        (logged (Wrote file (cstring s) (negb (fault w (ops w)))) w).
Proof. reflexivity. Qed.

Lemma fprintf_any file format args w :
  fprintf (Some file) format args w
  = Ret (if negb (fault w (ops w))
         then Z.of_nat (length (sprintf format args)) else -1)
        (logged (Wrote file (sprintf format args) (negb (fault w (ops w)))) w).
Proof. reflexivity. Qed.

Lemma write_events_app file fault a : forall n b,
  write_events file fault n (a ++ b)
  = write_events file fault n a
    ++ write_events file fault (n + length a) b.
Proof.
  induction a as [|t a IH]; intros n b; cbn [write_events app length].
  - now rewrite Nat.add_0_r.
  - rewrite IH. now replace (S n + length a)%nat with (n + S (length a))%nat
      by lia.
Qed.

(** Writes do not touch the input, the oracles or the count of operations
    but by their own number; [wrote w w' file texts] tells that [w'] is [w]
    after the writes of [texts] to [file]. *)
Lemma fputs_each_run file lines : forall success w,
  exists r w',
    fputs_each lines (Some file) success w = Ret r w'
    /\ source w' = source w /\ fault w' = fault w /\ heap w' = heap w
    /\ ops w' = (ops w + length lines)%nat
    /\ history w'
       = history w
         ++ write_events file (fault w) (ops w) (map cstring lines).
Proof.
  induction lines as [|line lines IH]; intros success w.
  - exists success, w. cbn [fputs_each map write_events length].
    rewrite Nat.add_0_r, app_nil_r. repeat split.
  - cbn [fputs_each]. erewrite bind_ret by apply fputs_any.
    destruct (IH (success
                  && ((if negb (fault w (ops w)) then 1 else EOF) >=? 0))
                 (logged (Wrote file (cstring line)
                            (negb (fault w (ops w)))) w))
      as [r [w' [Hrun [Hs [Hf [Hh [Ho Hhist]]]]]]].
    exists r, w'. split; [exact Hrun|].
    cbn [source fault heap ops logged] in Hs, Hf, Hh, Ho, Hhist.
    repeat split; try assumption.
    + rewrite Ho. cbn [length]. lia.
    + rewrite Hhist, history_logged, <- app_assoc. reflexivity.
Qed.

Lemma assign_program s v a : arg_program (assign s v a) = arg_program a.
Proof. now destruct s. Qed.

Lemma main_parseargs_loop_program bin2c l : forall argc success parameter a
  rest argc' success' parameter' a',
  main_parseargs_loop bin2c l argc success parameter a
  = Some (rest, argc', success', parameter', a') ->
  arg_program a' = arg_program a.
Proof.
  induction l as [|x l IH]; intros argc success parameter a rest argc' s' p'
    a' H; cbn [main_parseargs_loop] in H; destruct (argc >? 0).
  - discriminate.
  - now inversion H.
  - destruct (deref x =? "-")%char.
    + destruct (skipn 1 x) as [|c option]; [discriminate|].
      destruct (main_parseargs_switch bin2c c parameter
                  (success && is_null parameter)) as [p2 s2].
      now apply IH in H.
    + destruct parameter as [s|]; apply IH in H; [|assumption].
      now rewrite H, assign_program.
  - now inversion H.
Qed.

Lemma main_parseargs_program bin2c ndebug argc argv success a :
  main_parseargs bin2c ndebug argc argv = Parsed success a ->
  0 < argc ->
  exists program, arg_program a = Some program.
Proof.
  unfold main_parseargs. intros H Hargc.
  replace (argc >? 0) with true in H by (symmetry; apply Z.gtb_lt; lia).
  destruct argv as [|first rest]; [discriminate|].
  destruct (main_parseargs_loop bin2c rest (argc - 1) _ _ _)
    as [[[[[r n] s'] p'] a']|] eqn:E; [|discriminate].
  apply main_parseargs_loop_program in E. cbn [arg_program] in E.
  exists first. rewrite <- E.
  destruct (n <? 0); [destruct (bin2c || ndebug)|]; now inversion H.
Qed.

Lemma option_slot_inpath bin2c x : option_slot bin2c x <> Some to_inpath.
Proof.
  unfold option_slot. destruct (cstring x) as [|d [|c [|e rest]]];
    try discriminate.
  destruct (d =? "-")%char; [|discriminate].
  destruct ((c =? "p") || (c =? "P"))%char; [discriminate|].
  destruct ((c =? "s") || (c =? "S"))%char; [discriminate|].
  destruct (bin2c && ((c =? "g") || (c =? "G"))%char); discriminate.
Qed.

Lemma options_set_inpath bin2c l : forall pending a,
  pending <> Some to_inpath ->
  arg_inpath (options_set bin2c l pending a) = arg_inpath a.
Proof.
  induction l as [|x l IH]; intros pending a Hp; [reflexivity|].
  cbn [options_set]. destruct pending as [s|].
  - rewrite IH by discriminate. destruct s; try reflexivity. contradiction.
  - apply IH. apply option_slot_inpath.
Qed.

Lemma main_parseargs_inpath bin2c ndebug argc argv a :
  main_parseargs bin2c ndebug argc argv = Parsed true a ->
  0 < argc ->
  exists inpath, arg_inpath a = Some inpath.
Proof.
  unfold main_parseargs. intros H Hargc.
  replace (argc >? 0) with true in H by (symmetry; apply Z.gtb_lt; lia).
  destruct argv as [|first rest]; [discriminate|].
  destruct (main_parseargs_loop bin2c rest (argc - 1) _ _ _)
    as [[[[[r n] s'] p'] a']|] eqn:E; [|discriminate].
  destruct (main_parseargs_loop_count _ _ _ _ _ _ _ _ _ _ _ E ltac:(lia))
    as [-> Hlen].
  change (0 <? 0) with false in H. cbv iota in H.
  destruct r as [|y r]; [|rewrite andb_false_r in H; discriminate].
  rewrite andb_true_r in H. injection H as Hs <-.
  cbn [length] in Hlen.
  replace (argc - 1) with (Z.of_nat (length rest)) in E by lia.
  apply main_parseargs_loop_spec in E. destruct E as [_ [_ [Hok Ha]]].
  rewrite Hs in Hok. cbn [andb is_null negb] in Hok. symmetry in Hok.
  rewrite (Ha Hs). destruct rest as [|x rest]; [discriminate|].
  exists x. cbn [options_set]. now rewrite options_set_inpath by discriminate.
Qed.

Lemma main_parseargs_program_positive bin2c ndebug argc argv success a program :
  main_parseargs bin2c ndebug argc argv = Parsed success a ->
  arg_program a = Some program ->
  0 < argc.
Proof.
  unfold main_parseargs. intros H Hp.
  destruct (Z.gtb_spec argc 0) as [Hpos|Hle]; [assumption|].
  exfalso.
  destruct argv as [|x argv]; cbn [main_parseargs_loop] in H;
    destruct (Z.gtb_spec argc 0) as [Hpos|_]; try lia;
    destruct (argc <? 0); [destruct (bin2c || ndebug)| |destruct (bin2c || ndebug)|];
    inversion H; subst a; discriminate.
Qed.

Section Refusals.

Variable c99 : bool.
Variable intel : bool.
Variable windows : bool.
Variable ndebug : bool.
Variable LONG_MAX : Z.
Variable readable : text -> bool.
Variable closes : bool.

(** [main_outputusage] attempts the write of every part of the usage to
    the standard error stream, and returns. *)
Lemma main_outputusage_run bin2c program w :
  exists r w',
    main_outputusage bin2c program w = Ret r w'
    /\ source w' = source w
    /\ history w'
       = history w
         ++ write_events [NUL] (fault w) (ops w) (usage_texts bin2c program).
Proof.
  unfold main_outputusage, stderr.
  destruct (fputs_each_run [NUL]
              (if bin2c then bin2c_usage_prologue else bin2h_usage_prologue)
              true w) as [r1 [w1 [Hrun1 [Hs1 [Hf1 [_ [Ho1 Hh1]]]]]]].
  erewrite bind_ret by exact Hrun1.
  erewrite bind_ret by apply fprintf_any.
  match goal with
  | |- context [fputs_each ?l (Some [NUL]) ?s ?w0] =>
      destruct (fputs_each_run [NUL] l s w0)
        as [r2 [w2 [Hrun2 [Hs2 [Hf2 [_ [Ho2 Hh2]]]]]]]
  end.
  exists r2, w2. split; [exact Hrun2|].
  cbn [source fault ops logged] in Hs2, Hf2, Ho2, Hh2.
  split; [congruence|].
  rewrite Hh2, history_logged, Hh1, Hf1, Ho1.
  unfold usage_texts. rewrite !write_events_app, <- !app_assoc.
  cbn [write_events length app]. rewrite length_map.
  replace (ops w + length (if bin2c then bin2c_usage_prologue
                           else bin2h_usage_prologue) + 1)%nat
    with (S (ops w + length (if bin2c then bin2c_usage_prologue
                             else bin2h_usage_prologue))) by lia.
  reflexivity.
Qed.

Lemma main_usage_run bin2c a program w :
  arg_program a = Some program ->
  exists w',
    main_usage windows bin2c a w = Ret tt w'
    /\ source w' = source w
    /\ history w'
       = history w
         ++ write_events [NUL] (fault w) (ops w)
              (usage_texts bin2c (usage_name windows program)).
Proof.
  intros Hp. unfold main_usage. rewrite Hp.
  destruct (main_outputusage_run bin2c (usage_name windows program) w)
    as [r [w' [Hrun [Hs Hh]]]].
  exists w'. split; [|auto].
  unfold usage_name in Hrun. erewrite bind_ret by exact Hrun. reflexivity.
Qed.

(** X14.  [main] of bin2c on a command line with a program name that
    [main_parseargs] turns down, or whose input cannot be opened, or whose
    output path cannot be built: it attempts the write of every part of the
    usage, for the file name of the program, to the standard error stream
    and returns [EXIT_FAILURE].  It does not read the input, and all that
    happens besides the usage is, when the command line is accepted, the
    opening of the input and, when that has succeeded, its closing (with a
    complaint when it fails): no output file is opened and nothing is
    written to a file. *)
Theorem bin2c_turns_down argc argv success a program w :
  main_parseargs true ndebug argc argv = Parsed success a ->
  arg_program a = Some program ->
  (success = true ->
   forall inpath, arg_inpath a = Some inpath ->
   readable (cstring inpath) = false
   \/ main_constructoutpath windows (heap w) inpath = None) ->
  let usage :=
    write_events [NUL] (fault w) (ops w)
      (usage_texts true (usage_name windows program)) in
  let '(before, after) :=
    match (if success then arg_inpath a else None) with
    | Some inpath =>
        if readable (cstring inpath)
        then ([Opened (cstring inpath) true],
              input_closed closes (cstring inpath)
                (str "ERROR: failed to properly close the input file."))
        else ([Opened (cstring inpath) false], [])
    | None => ([], [])
    end in
  let r := bin2c_main c99 intel windows ndebug LONG_MAX readable closes
             argc argv w in
  outcome r = Some EXIT_FAILURE
  /\ source (final r) = source w
  /\ history (final r) = history w ++ before ++ usage ++ after.
Proof.
  intros Hparse Hprogram Hno usage.
  pose proof (main_parseargs_program_positive _ _ _ _ _ _ _ Hparse Hprogram)
    as Hargc.
  unfold bin2c_main. rewrite Hparse.
  destruct success.
  - destruct (main_parseargs_inpath _ _ _ _ _ Hparse Hargc)
      as [inpath Hinpath].
    rewrite Hinpath.
    erewrite bind_ret by (apply main_openinput_run; exact Hinpath).
    set (name := cstring inpath).
    set (w1 := noted _ w).
    destruct (main_usage_run true a program w1 Hprogram)
      as [w2 [Hrun [Hs2 Hh2]]].
    destruct (readable name) eqn:Hread.
    + destruct (Hno eq_refl inpath Hinpath) as [Hr|Hpath];
        [fold name in Hr; congruence|].
      cbv beta iota. erewrite bind_ret by reflexivity.
      change (heap w1) with (heap w). rewrite Hpath.
      cbn [is_null negb andb]. cbv beta iota.
      rewrite bind_bind. erewrite bind_ret by exact Hrun.
      erewrite bind_ret by reflexivity.
      pose proof (main_closeinput_end closes name
                    (str "ERROR: failed to properly close the input file.")
                    (fun clean : bool =>
                       if false && clean then EXIT_SUCCESS else EXIT_FAILURE)
                    w2) as [Hend [Hsrc Hh]].
      cbv zeta beta in Hend, Hsrc, Hh.
      split; [exact Hend|]. split.
      * etransitivity; [exact Hsrc|]. now rewrite Hs2.
      * etransitivity; [exact Hh|]. rewrite Hh2. subst w1.
        rewrite history_noted, <- !app_assoc. reflexivity.
    + cbv beta iota. erewrite bind_ret by reflexivity. cbv beta iota.
      cbn [negb]. rewrite bind_bind. erewrite bind_ret by exact Hrun.
      erewrite bind_ret by reflexivity.
      unfold main_closeinput, ret, bind. cbn [outcome final negb andb].
      split; [reflexivity|]. split; [now rewrite Hs2|].
      rewrite Hh2. subst w1.
      rewrite history_noted, app_nil_r, <- !app_assoc. reflexivity.
  - unfold main_openinput.
    erewrite bind_ret by reflexivity. cbv beta iota.
    erewrite bind_ret by reflexivity. cbv beta iota. cbn [negb].
    destruct (main_usage_run true a program w Hprogram)
      as [w2 [Hrun [Hs2 Hh2]]].
    rewrite bind_bind. erewrite bind_ret by exact Hrun.
    erewrite bind_ret by reflexivity.
    unfold main_closeinput, ret, bind. cbn [outcome final negb andb].
    split; [reflexivity|]. split; [now rewrite Hs2|].
    rewrite Hh2, app_nil_r. reflexivity.
Qed.

End Refusals.

Lemma bin2c_turns_down_witness :
  let w := fresh [x41] EndOfFile sound in
  let r := bin2c_main true true false false 2147483647 (fun _ => false) true 2
             [str "bin/bin2c"; str "a.bin"] w in
  outcome r = Some EXIT_FAILURE
  /\ source (final r) = source w
  /\ history (final r)
     = Opened (str "a.bin") false
       :: write_events [NUL] sound 0 (usage_texts true (str "bin2c")).
Proof.
  exact (bin2c_turns_down true true false false 2147483647 (fun _ => false)
           true 2 [str "bin/bin2c"; str "a.bin"] true _
           (str "bin/bin2c") (fresh [x41] EndOfFile sound) eq_refl eq_refl
           (fun _ _ _ => or_introl eq_refl)).
Defined.

(** ** bin2h from the command line *)

Lemma main_parseargs_nothing bin2c ndebug argc argv :
  argc <= 0 ->
  main_parseargs bin2c ndebug argc argv
  = if argc <? 0 then (if bin2c || ndebug then Parsed false no_arguments
                       else Aborted)
    else Parsed (match argv with [] => true | _ => false end) no_arguments.
Proof.
  intros Hargc. unfold main_parseargs.
  assert (Hgt : (argc >? 0) = false).
  { destruct (Z.gtb_spec argc 0); [lia|reflexivity]. }
  rewrite Hgt.
  destruct argv as [|x argv]; cbn [main_parseargs_loop]; rewrite Hgt;
    reflexivity.
Qed.

Lemma main_parseargs_positive bin2c ndebug argc argv success a inpath :
  main_parseargs bin2c ndebug argc argv = Parsed success a ->
  arg_inpath a = Some inpath ->
  0 < argc.
Proof.
  intros H Hin. destruct (Z.lt_ge_cases 0 argc) as [|Hle]; [assumption|].
  rewrite main_parseargs_nothing in H by assumption.
  destruct (argc <? 0); [destruct (bin2c || ndebug)|];
    inversion H; subst a; discriminate.
Qed.

Section Bin2hProgram.

Variable intel : bool.
Variable windows : bool.
Variable ndebug : bool.
Variable readable : text -> bool.
Variable closes : bool.

(** X15.  bin2h from the command line to the file: when the command line is
    accepted, the input path (directories, stem and last extension, the
    full stop of which is not the first character of the path) can be
    opened and leaves room for the new extension, the allocations are
    granted, no operation on the output fails and the input is read to its
    end, then [main] opens the input; the one file it opens after that,
    flushes and closes is the input path with [.h] in place of its last
    extension, and the text of that file is the [static] definition of the
    array named prefix, stem, suffix; and it closes the input.  [main]
    returns [EXIT_SUCCESS] when the input closes; when it does not, the
    file is the same, and [main] complains and returns [EXIT_FAILURE]. *)
Theorem bin2h_writes_header argc argv a dir stem tail bytes w :
  main_parseargs false ndebug argc argv = Parsed true a ->
  arg_inpath a = Some (dir ++ stem ++ tail) ->
  well_split windows dir stem tail = true ->
  (tail <> [] -> dir ++ stem <> []) ->
  Z.of_nat (length (dir ++ stem ++ tail)) + 1 <= USHRT_MAX ->
  Z.of_nat (length (dir ++ stem)) + 2 + 1 <= USHRT_MAX ->
  readable (dir ++ stem ++ tail) = true ->
  source w = unread bytes ->
  (forall n, fault w n = false) ->
  heap w (Z.of_nat (length (dir ++ stem)) + 2 + 1) = true ->
  heap w (MAIN_CHUNKSIZE intel) = true ->
  let inpath := dir ++ stem ++ tail in
  let file := dir ++ stem ++ str ".h" in
  let name := opt_string (arg_prefix a) ++ stem ++ opt_string (arg_suffix a) in
  let r := bin2h_main intel windows ndebug readable closes argc argv w in
  outcome r = Some (Some (if closes then EXIT_SUCCESS else EXIT_FAILURE))
  /\ written file (history (final r))
     = written file (history w) ++ static_text name bytes
  /\ lifecycle (history (final r))
     = lifecycle (history w)
       ++ [Opened inpath true;
           Opened file true; Flushed file true; Closed file true]
       ++ input_closed closes inpath
            (str "ERROR: failed to properly close files.").
Proof.
  intros Hparse Hin Hs Hdot HL Hkeep Hread Hsrc Hsound Hheap Hchunk
    inpath file name r. subst r.
  pose proof (well_split_facts windows dir stem tail Hs)
    as [[Hdir [Hstem _]] _].
  assert (Hfile : cstring file = file).
  { apply cstring_clean. subst file. rewrite !in_app_iff. cbn [In str].
    cbn. intuition discriminate. }
  unfold bin2h_main. rewrite Hparse.
  erewrite bind_ret by (apply main_openinput_run; exact Hin).
  rewrite (split_clean _ _ _ _ Hs), Hread, Hin.
  cbv beta iota.
  set (w0 := noted _ w).
  rewrite !bind_bind. erewrite bind_ret by reflexivity.
  unfold main_constructoutname.
  rewrite constructout_split by (auto; lia).
  change (heap w0) with (heap w). rewrite Hheap.
  replace (Z.of_nat (length (dir ++ stem)) + 2 + 1 <=? USHRT_MAX)
    with true by (symmetry; apply Z.leb_le; lia).
  cbn [andb]. rewrite !bind_bind.
  erewrite bind_ret by (apply fopen_ok; apply Hsound).
  change (dir ++ stem ++ ["."%char; "h"%char]) with file. rewrite Hfile.
  erewrite bind_ret by reflexivity. cbn [is_null negb]. cbv beta iota.
  set (w1 := logged (Opened file true) w0).
  pose proof (main_runbin2h_clean intel file
                (main_symbol windows (dir ++ stem ++ tail))
                (arg_prefix a) (arg_suffix a) bytes w1 Hsrc Hsound Hchunk)
    as [Hout [Hwritten [Hfault Hlife]]].
  cbv zeta in Hout, Hwritten, Hfault, Hlife.
  unfold array_name in Hwritten.
  rewrite (main_symbol_split _ _ _ _ Hs HL) in Hwritten.
  apply outcome_ret in Hout.
  erewrite bind_ret by exact Hout.
  set (w2 := final _) in *.
  erewrite bind_ret.
  2:{ erewrite bind_ret;
        [reflexivity|apply fclose_ok; rewrite Hfault; apply Hsound]. }
  change (0 =? 0) with true. cbn [andb].
  set (w3 := logged (Closed file true) w2).
  assert (Hw3 : written file (history w3)
                = written file (history w) ++ static_text name bytes).
  { subst w3. rewrite written_logged_other by exact I. rewrite Hwritten.
    subst w1. rewrite written_logged_other by exact I.
    subst w0. rewrite history_noted, written_app. cbn [written].
    now rewrite app_nil_r. }
  assert (Hl3 : lifecycle (history w3)
                = lifecycle (history w)
                  ++ [Opened inpath true;
                      Opened file true; Flushed file true; Closed file true]).
  { subst w3. rewrite lifecycle_logged, Hlife. subst w1.
    rewrite lifecycle_logged. subst w0.
    rewrite history_noted, lifecycle_app. cbn [lifecycle filter].
    rewrite <- !app_assoc. reflexivity. }
  match goal with
  | |- context [outcome (?m w3)] =>
      set (R := m w3) in *;
      assert (Hend : outcome R
                     = Some (Some (if closes then EXIT_SUCCESS
                                   else EXIT_FAILURE))
                     /\ history (final R)
                        = history w3
                          ++ input_closed closes inpath
                               (str "ERROR: failed to properly close files."))
        by (pose proof (main_closeinput_end closes inpath
                          (str "ERROR: failed to properly close files.")
                          (fun clean : bool =>
                             Some (if clean then EXIT_SUCCESS
                                   else EXIT_FAILURE))
                          w3) as H;
            exact (conj (proj1 H) (proj2 (proj2 H))))
  end.
  destruct Hend as [Hend Hh]. rewrite Hend, Hh.
  rewrite written_app, lifecycle_app, written_input_closed,
    lifecycle_input_closed, app_nil_r, Hw3, Hl3, <- !app_assoc.
  repeat split; reflexivity.
Qed.

(** X16.  bin2h when the output file cannot be opened, on a command line
    that is accepted, whose input has been opened and whose output name
    has been built: [main] does not run the converter; all it does after
    the two openings is to attempt the write of every part of the usage,
    for the file name of the program, to the standard error stream and to
    close the input (complaining when that fails); it returns
    [EXIT_FAILURE] and has not read the input. *)
Theorem bin2h_failed_open argc argv a program inpath outpath w :
  main_parseargs false ndebug argc argv = Parsed true a ->
  arg_program a = Some program ->
  arg_inpath a = Some inpath ->
  readable (cstring inpath) = true ->
  main_constructoutname windows (heap w) inpath = Some outpath ->
  fault w (ops w) = true ->
  let r := bin2h_main intel windows ndebug readable closes argc argv w in
  outcome r = Some (Some EXIT_FAILURE)
  /\ source (final r) = source w
  /\ history (final r)
     = history w
       ++ [Opened (cstring inpath) true; Opened (cstring outpath) false]
       ++ write_events [NUL] (fault w) (S (ops w))
            (usage_texts false (usage_name windows program))
       ++ input_closed closes (cstring inpath)
            (str "ERROR: failed to properly close files.").
Proof.
  intros Hparse Hprogram Hin Hread Hname Hfault r. subst r.
  unfold bin2h_main. rewrite Hparse.
  erewrite bind_ret by (apply main_openinput_run; exact Hin).
  rewrite Hread, Hin. cbv beta iota.
  set (w0 := noted (Opened (cstring inpath) true) w).
  rewrite !bind_bind. erewrite bind_ret by reflexivity.
  change (heap w0) with (heap w). rewrite Hname.
  rewrite !bind_bind.
  erewrite bind_ret by (apply fopen_fails; exact Hfault).
  erewrite bind_ret by reflexivity. cbn [is_null negb]. cbv beta iota.
  set (w1 := logged (Opened (cstring outpath) false) w0).
  destruct (main_usage_run windows false a program w1 Hprogram)
    as [w2 [Hrun [Hs2 Hh2]]].
  rewrite bind_bind. erewrite bind_ret by exact Hrun.
  erewrite bind_ret by reflexivity.
  erewrite bind_ret by reflexivity. cbn [andb].
  pose proof (main_closeinput_end closes (cstring inpath)
                (str "ERROR: failed to properly close files.")
                (fun clean : bool =>
                   Some (if false && clean then EXIT_SUCCESS
                         else EXIT_FAILURE))
                w2) as [Hend [Hsrc Hh]].
  cbv zeta beta in Hend, Hsrc, Hh.
  split; [exact Hend|]. split.
  - etransitivity; [exact Hsrc|]. now rewrite Hs2.
  - etransitivity; [exact Hh|]. rewrite Hh2. subst w1.
    rewrite history_logged. subst w0. rewrite history_noted.
    rewrite <- !app_assoc. reflexivity.
Qed.

End Bin2hProgram.

(** X17.  An empty argument vector is not provided for.  With [argc] at
    most zero [main_parseargs] assigns neither [program] nor [inpath]; it
    accepts [argc = 0] with nothing in the vector, and [main] of bin2c then
    opens [inpath], or else prints the usage for [program]: it uses a
    variable that has no value, whatever the vector holds.  [main] of bin2h
    does the same, except that a negative [argc] ends in [abort] when
    [NDEBUG] is not defined. *)
Theorem no_arguments_no_value c99 intel windows ndebug LONG_MAX readable
  closes argc argv w :
  argc <= 0 ->
  bin2c_main c99 intel windows ndebug LONG_MAX readable closes argc argv w
  = Undefined w
  /\ bin2h_main intel windows ndebug readable closes argc argv w
     = if (argc <? 0) && negb ndebug then Ret None w else Undefined w.
Proof.
  intros Hargc. unfold bin2c_main, bin2h_main.
  rewrite !main_parseargs_nothing by assumption.
  destruct (argc <? 0), ndebug, argv; split; reflexivity.
Qed.

Lemma bin2h_writes_header_witness :
  let r := bin2h_main true false false (fun _ => true) true 4
             [str "bin2h"; str "out/a.bin"; str "-s"; str "_v"]
             (fresh [x41; x0a] EndOfFile sound) in
  outcome r = Some (Some EXIT_SUCCESS)
  /\ written (str "out/a.h") (history (final r))
     = str "static unsigned char const a_v[] = { 0x41u, 0xAu };" ++ [newline]
  /\ lifecycle (history (final r))
     = [Opened (str "out/a.bin") true;
        Opened (str "out/a.h") true; Flushed (str "out/a.h") true;
        Closed (str "out/a.h") true; Closed (str "out/a.bin") true].
Proof.
  exact (bin2h_writes_header true false false (fun _ => true) true 4
           [str "bin2h"; str "out/a.bin"; str "-s"; str "_v"] _
           (str "out/") (str "a") (str ".bin") [x41; x0a]
           (fresh [x41; x0a] EndOfFile sound)
           eq_refl eq_refl eq_refl
           (fun _ => ltac:(discriminate))
           ltac:(vm_compute; discriminate) ltac:(vm_compute; discriminate)
           eq_refl eq_refl (fun _ => eq_refl) eq_refl eq_refl).
Defined.

Lemma bin2h_failed_open_witness :
  let w := fresh [x41] EndOfFile (failing 0) in
  let r := bin2h_main true false false (fun _ => true) true 2
             [str "bin2h"; str ".bin"] w in
  outcome r = Some (Some EXIT_FAILURE)
  /\ source (final r) = source w
  /\ history (final r)
     = [Opened (str ".bin") true; Opened (str ".bin.h") false]
       ++ write_events [NUL] (failing 0) 1 (usage_texts false (str "bin2h"))
       ++ [Closed (str ".bin") true].
Proof.
  exact (bin2h_failed_open true false false (fun _ => true) true 2
           [str "bin2h"; str ".bin"] _ (str "bin2h") (str ".bin")
           (str ".bin.h") (fresh [x41] EndOfFile (failing 0))
           eq_refl eq_refl eq_refl eq_refl
           ltac:(vm_compute; reflexivity) eq_refl).
Defined.

Lemma no_arguments_no_value_witness :
  bin2c_main true true false false 2147483647 (fun _ => true) true 0 []
    (fresh [] EndOfFile sound)
  = Undefined (fresh [] EndOfFile sound)
  /\ bin2h_main true false false (fun _ => true) true 0 []
       (fresh [] EndOfFile sound)
     = Undefined (fresh [] EndOfFile sound).
Proof.
  exact (no_arguments_no_value true true false false 2147483647
           (fun _ => true) true 0 [] (fresh [] EndOfFile sound)
           ltac:(vm_compute; discriminate)).
Defined.

(** ** Two edges *)

(** X18.  A path that is a full stop and an extension, with no directory
    and nothing before the full stop: the scan of [main_constructoutpath]
    and [main_constructoutname] records the full stop with [offset] equal
    to [USHRT_MAX], its own mark for a name without extension, so the whole
    path is kept and the new extension is added to it, while
    [main_shortenname] cuts the name at that full stop and leaves the empty
    symbol. *)
Theorem leading_full_stop windows mark heap ext :
  well_split windows [] [] ("."%char :: ext) = true ->
  Z.of_nat (length ext) + 1 + 2 + 1 <= USHRT_MAX ->
  heap (Z.of_nat (length ext) + 1 + 2 + 1) = true ->
  let path := "."%char :: ext in
  constructout windows mark heap path = Some (path ++ ["."%char; mark])
  /\ cstring (main_symbol windows path) = [].
Proof.
  intros Hs HL Hheap path. split.
  - unfold constructout. subst path.
    change ("."%char :: ext) with ([] ++ [] ++ "."%char :: ext).
    rewrite constructout_scan_split by (auto; cbn [app length]; lia).
    cbn [app length deref]. rewrite Ascii.eqb_refl.
    unfold ptr_diff. cbn [length].
    replace (USHRT_MAX - Z.of_nat 0 =? USHRT_MAX) with true
      by (symmetry; apply Z.eqb_eq; lia).
    destruct (Z.geb_spec (USHRT_MAX - Z.of_nat (S (length ext))) (2 + 1));
      [|lia].
    rewrite ushort_small by lia.
    replace (USHRT_MAX - (USHRT_MAX - Z.of_nat (S (length ext))) + 2 + 1)
      with (Z.of_nat (length ext) + 1 + 2 + 1) by lia.
    rewrite Hheap. f_equal.
    rewrite constructout_copy_firstn by lia.
    match goal with
    | |- context [skipn (Z.to_nat ?e) _] => replace (Z.to_nat e) with O by lia
    end.
    cbn [skipn].
    replace (Z.to_nat (USHRT_MAX - (USHRT_MAX - Z.of_nat (S (length ext)))))
      with (length ("."%char :: ext)) by (cbn [length]; lia).
    now rewrite firstn_all.
  - change path with ([] ++ [] ++ "."%char :: ext).
    apply (main_symbol_split windows [] [] ("."%char :: ext) Hs).
    cbn [app length]. lia.
Qed.

Lemma leading_full_stop_witness :
  constructout false "h"%char roomy (str ".bin") = Some (str ".bin.h")
  /\ cstring (main_symbol false (str ".bin")) = [].
Proof.
  exact (leading_full_stop false "h"%char roomy (str "bin") eq_refl
           ltac:(vm_compute; discriminate) eq_refl).
Defined.

(** X19.  [main_runbin2c] when [malloc] refuses the chunk buffer and no
    operation on the output fails: the file is opened and the start of the
    definition is written before the buffer is asked for, so the run
    leaves a file that stops after the opening brace, flushed and closed;
    it reads nothing, opens no header for [-g], complains and returns
    false. *)
Theorem refused_buffer_leaves_stub c99 intel LONG_MAX symbol prefix suffix
  global outpath base mark w :
  cstring outpath = base ++ [mark] ->
  (forall n, fault w n = false) ->
  heap w (MAIN_CHUNKSIZE intel) = false ->
  let file :=
    base ++ [match global with Some _ => "c" | None => "h" end]%char in
  let start :=
    match global with
    | Some _ => str "#include " ++ [dquote] ++ cstring symbol ++ str ".h"
                ++ [dquote; newline; newline]
    | None => str "static "
    end in
  let r := main_runbin2c c99 intel LONG_MAX symbol prefix suffix global
             outpath w in
  outcome r = Some false
  /\ source (final r) = source w
  /\ written file (history (final r))
     = written file (history w) ++ start ++ str "unsigned char const "
       ++ array_name prefix symbol suffix ++ str "[] = { "
  /\ lifecycle (history (final r))
     = lifecycle (history w)
       ++ [Opened file true; Flushed file true; Closed file true;
           Complained (str "ERROR: failed to create output C file(s) from the input binary file.")].
Proof.
  intros Hpath Hsound Hheap file start r. subst r.
  rewrite <- chunk_size_request in Hheap.
  assert (Hoff : strlen outpath - 1 = Z.of_nat (length base)).
  { unfold strlen. rewrite Hpath, length_app. simpl length. lia. }
  set (ext := match global with Some _ => "c" | None => "h" end%char) in *.
  assert (Hfile : cstring (poke outpath (length base) ext) = file).
  { apply (cstring_poke_last ext ltac:(subst ext; destruct global; discriminate)
             _ _ mark Hpath). }
  unfold main_runbin2c, main_runbin2c_outputsymbol, bin2c_encode.
  rewrite Hoff, Nat2Z.id.
  replace (strlen outpath >=? 1) with true
    by (symmetry; apply Z.geb_le; lia).
  replace (if match global with Some _ => true | None => false end
           then "c"%char else "h"%char) with ext
    by (subst ext; now destruct global).
  unfold when.
  run Hsound. rewrite Hfile.
  destruct global as [g|], prefix as [p|], suffix as [s|];
    repeat run Hsound.
  all: erewrite bind_ret by (apply encode_no_buffer; exact Hheap).
  all: cbn [andb]; repeat run Hsound.
  all: erewrite bind_ret by apply complain_run.
  all: unfold ret; cbn [outcome final];
    split; [reflexivity|]; split; [reflexivity|].
  all: rewrite written_complained, lifecycle_complained.
  all: rewrite ?sprintf_include; subst start.
  all: split; read_off Hsound; tidy.
Qed.

Lemma refused_buffer_leaves_stub_witness :
  let w := {| source := unread [x41]; fault := sound; ops := 0;
              heap := fun _ => false; log := [] |} in
  let r := main_runbin2c true true 2147483647 (str "a") None None None
             (str "a. ") w in
  outcome r = Some false
  /\ source (final r) = source w
  /\ written (str "a.h") (history (final r))
     = str "static unsigned char const a[] = { "
  /\ lifecycle (history (final r))
     = [Opened (str "a.h") true; Flushed (str "a.h") true;
        Closed (str "a.h") true;
        Complained (str "ERROR: failed to create output C file(s) from the input binary file.")].
Proof.
  exact (refused_buffer_leaves_stub true true 2147483647 (str "a") None None
           None (str "a. ") (str "a.") " "%char
           {| source := unread [x41]; fault := sound; ops := 0;
              heap := fun _ => false; log := [] |}
           eq_refl (fun _ => eq_refl) eq_refl).
Defined.

(** ** Every path *)

Lemma last_cut_spec c s :
  let '(a, b) := last_cut c s in
  s = a ++ b /\ ~ In c b /\ last a c = c.
Proof.
  induction s as [|x s IH]; cbn [last_cut].
  - cbn. tauto.
  - destruct (last_cut c s) as [a b]. destruct IH as [-> [Hb Hl]].
    destruct a as [|y a].
    + destruct (Ascii.eqb_spec x c) as [->|Hx].
      * cbn. tauto.
      * cbn. repeat split; auto. intros [H|H]; [congruence|tauto].
    + repeat split; auto.
Qed.

Lemma split_path_spec windows path :
  ~ In NUL path ->
  let '(dir, stem, tail) := split_path windows path in
  path = dir ++ stem ++ tail /\ well_split windows dir stem tail = true.
Proof.
  intros Hn. unfold split_path.
  pose proof (last_cut_spec (MAIN_PATHDELIMITER windows) path) as H1.
  destruct (last_cut (MAIN_PATHDELIMITER windows) path) as [dir name].
  destruct H1 as [Hpath [Hd Hl]].
  pose proof (last_cut_spec "."%char name) as H2.
  destruct (last_cut "."%char name) as [a ext].
  destruct H2 as [Hname [He Ha]].
  assert (Hsplit : forall stem tail,
            name = stem ++ tail ->
            match tail with
            | [] => ~ In "."%char stem
            | c :: ext' => c = "."%char /\ ~ In "."%char ext'
            end ->
            path = dir ++ stem ++ tail
            /\ well_split windows dir stem tail = true).
  { intros stem tail Hst Ht. split; [now rewrite <- Hst|].
    unfold well_split. rewrite <- Hst, <- Hpath.
    rewrite !andb_true_iff, !negb_true_iff, !has_false.
    repeat split; auto.
    - now apply Ascii.eqb_eq.
    - destruct tail as [|c ext']; [now rewrite negb_true_iff, has_false|].
      destruct Ht as [-> Hx]. change ("." =? ".")%char with true.
      cbn [andb]. now rewrite negb_true_iff, has_false. }
  destruct a as [|y a].
  - apply Hsplit; [now rewrite app_nil_r|]. now rewrite Hname.
  - apply Hsplit.
    + rewrite Hname.
      rewrite (app_removelast_last "."%char (l := y :: a)) at 1
        by discriminate.
      rewrite Ha, <- app_assoc. reflexivity.
    + split; [reflexivity|assumption].
Qed.

(** X20.  Every path without a NUL that ends within the bound is cut by
    the three functions in the same way, into its directories, the stem of
    its file name and its last extension: [main_findname] points just after
    the directories, and [main_shortenname] leaves the stem.  The
    directories are empty or end in the delimiter, stem and extension hold
    no delimiter, and the extension is empty or a full stop and characters
    that are not full stops. *)
Theorem every_path_is_cut windows path :
  ~ In NUL path ->
  Z.of_nat (length path) + 1 <= USHRT_MAX ->
  let '(dir, stem, tail) := split_path windows path in
  path = dir ++ stem ++ tail
  /\ well_split windows dir stem tail = true
  /\ main_findname windows path = Z.of_nat (length dir)
  /\ cstring (main_symbol windows path) = stem.
Proof.
  intros Hn HL. pose proof (split_path_spec windows path Hn) as H.
  destruct (split_path windows path) as [[dir stem] tail].
  destruct H as [Hpath Hs]. split; [assumption|]. split; [assumption|].
  rewrite Hpath in HL |- *. split.
  - apply main_findname_split; [assumption|lia].
  - now apply main_symbol_split.
Qed.

Lemma every_path_is_cut_witness :
  str "a/b.c/d.tar.gz" = str "a/b.c/" ++ str "d.tar" ++ str ".gz"
  /\ well_split false (str "a/b.c/") (str "d.tar") (str ".gz") = true
  /\ main_findname false (str "a/b.c/d.tar.gz") = 6
  /\ cstring (main_symbol false (str "a/b.c/d.tar.gz")) = str "d.tar".
Proof.
  exact (every_path_is_cut false (str "a/b.c/d.tar.gz")
           ltac:(vm_compute; intuition discriminate)
           ltac:(vm_compute; discriminate)).
Defined.
